(** * web-messenger: the authenticated relay and its canonical payload encoding

    A shallow embedding of the relay's server side
    ([apps/api/src/auth.ts], [apps/api/src/router.ts], the zod schemas of
    [packages/shared] and the tables of [packages/db/src/schema.ts]) and of
    the client's payload canonicalizer ([apps/web/lib/crypto.ts]), together
    with the client's side of a signed request: the base64url codec of
    [apps/web/lib/encoding.ts], [signProcedure] and the web app's [makeAuth].

    Conventions of the embedding:
    - JavaScript strings are [string]; [String.length] stands for [.length]
      (exact on the ASCII alphabets the schemas' regular expressions allow);
    - JavaScript numbers that the schemas constrain with [.int()] are [Z].
      A [bigint] column holds every one of them. An [integer] column that is
      filled from the request ([registration_id], [signed_pre_key_id],
      [one_time_pre_key_id]) rejects a value outside the range of int4: the
      statement fails ([Sql.int4]);
    - the sequence behind a [serial] key is not bounded here (the one of
      the database runs out after 2^31 - 1 values), and an id given in a
      request is compared with such a key, or with a column that refers to
      one, as an integer of any size. The database rejects a parameter
      outside int4 before it runs the statement; the properties of a lookup
      by a requested id that no stored row is assumed to carry are
      therefore stated for the ids with [Sql.int4 id];
    - host capabilities the repository calls but does not define
      ([String.prototype.localeCompare], SHA-256, base64url decoding,
      Ed25519 verification) are parameters: a variable of the canonicalizers
      and the fields of the class [Runtime]; those of the page ([btoa],
      [atob], [Buffer], [crypto.subtle.digest], Ed25519 signing) are the
      fields of the class [Web.Browser];
    - a table with a natural primary key is a finite map from the key, a
      table with a [serial] key is the list of its rows and the next value
      of its sequence; the handlers never supply a [serial] id, so an id
      drawn from the sequence does not collide with a row;
    - a handler is a function from the database to a result and the
      database after it: the HTTP driver runs every statement on its own,
      so the statements executed before a failure stay in effect;
    - [Date.now()] is a parameter [now] of the request being handled: the
      readings a handler takes during one request give the same value. *)

From Stdlib Require Import Strings.Ascii Strings.Byte.
From stdpp Require Import base list strings pretty gmap sorting.

Set Warnings "-register-all,-clear-no-such-hyp".

Local Open Scope string_scope.
Local Open Scope list_scope.
Local Open Scope Z_scope.

(** ** JSON values *)

Module Json.

(** The primitives: [null] and the values with [typeof input !== "object"]. *)
Inductive prim : Type :=
  | PNull
  | PUndefined
  | PBool (b : bool)
  | PNum (n : Z)
  | PStr (s : string).

(** An object is the list of its own enumerable entries in the order
    [Object.entries] lists them. *)
Inductive json : Type :=
  | JPrim (p : prim)
  | JArr (items : list json)
  | JObj (entries : list (string * json)).

Definition JStr (s : string) : json := JPrim (PStr s).
Definition JNum (n : Z) : json := JPrim (PNum n).

Section json_ind.
Variable P : json → Prop.
Hypothesis Hprim : ∀ p, P (JPrim p).
Hypothesis Harr : ∀ items, Forall P items → P (JArr items).
Hypothesis Hobj : ∀ entries, Forall (λ e, P e.2) entries → P (JObj entries).

Fixpoint json_ind' (j : json) : P j :=
  match j with
  | JPrim p => Hprim p
  | JArr items =>
      Harr items
        ((fix go (l : list json) : Forall P l :=
            match l with
            | [] => Forall_nil_2 P
            | x :: l' => Forall_cons_2 P x l' (json_ind' x) (go l')
            end) items)
  | JObj entries =>
      Hobj entries
        ((fix go (l : list (string * json)) : Forall (λ e, P e.2) l :=
            match l with
            | [] => Forall_nil_2 _
            | e :: l' => Forall_cons_2 (λ e, P e.2) e l' (json_ind' e.2) (go l')
            end) entries)
  end.
End json_ind.

(** *** [JSON.stringify] on primitives *)

Definition hex_digit (n : N) : ascii :=
  match n with
  | 0 => "0" | 1 => "1" | 2 => "2" | 3 => "3" | 4 => "4" | 5 => "5"
  | 6 => "6" | 7 => "7" | 8 => "8" | 9 => "9" | 10 => "a" | 11 => "b"
  | 12 => "c" | 13 => "d" | 14 => "e" | _ => "f"
  end%N%char.

Definition char (n : N) : string := String (ascii_of_N n) EmptyString.
Definition dquote : string := char 34.
Definition bslash : string := char 92.

(** One character of a quoted JSON string. *)
Definition quote_char (c : ascii) : string :=
  let n := N_of_ascii c in
  if (n =? 34)%N then bslash +:+ dquote
  else if (n =? 92)%N then bslash +:+ bslash
  else if (n =? 8)%N then bslash +:+ "b"
  else if (n =? 12)%N then bslash +:+ "f"
  else if (n =? 10)%N then bslash +:+ "n"
  else if (n =? 13)%N then bslash +:+ "r"
  else if (n =? 9)%N then bslash +:+ "t"
  else if (n <? 32)%N then
    bslash +:+ "u00" +:+ String (hex_digit (n / 16)) (String (hex_digit (n mod 16)) EmptyString)
  else String c EmptyString.

Fixpoint quote_chars (s : string) : string :=
  match s with
  | EmptyString => EmptyString
  | String c s' => quote_char c +:+ quote_chars s'
  end.

Definition quote (s : string) : string := dquote +:+ quote_chars s +:+ dquote.

(** [JSON.stringify(input)] for a primitive [input]; [None] is the
    JavaScript value [undefined]. *)
Definition JSON_stringify (p : prim) : option string :=
  match p with
  | PNull => Some "null"
  | PUndefined => None
  | PBool true => Some "true"
  | PBool false => Some "false"
  | PNum n => Some (pretty n)
  | PStr s => Some (quote s)
  end.

(** String conversion of a [string | undefined] inside a template literal. *)
Definition template (s : option string) : string := default "undefined" s.

(** String conversion of an element by [Array.prototype.join]. *)
Definition join_item (s : option string) : string := default EmptyString s.

(** [parts.join(sep)] on an array of strings. *)
Fixpoint join (sep : string) (parts : list string) : string :=
  match parts with
  | [] => EmptyString
  | [x] => x
  | x :: rest => x +:+ sep +:+ join sep rest
  end.

(** *** [Array.prototype.sort] on entries, comparing keys

    The sort is stable; insertion from the right keeps an entry in front
    of the later entries it compares equal to. *)
Section sort.
Context {V : Type} (compareFn : string → string → comparison).

Fixpoint sort_insert (e : string * V) (l : list (string * V)) : list (string * V) :=
  match l with
  | [] => [e]
  | e' :: l' =>
      match compareFn e.1 e'.1 with
      | Gt => e' :: sort_insert e l'
      | _ => e :: e' :: l'
      end
  end.

Fixpoint sort (l : list (string * V)) : list (string * V) :=
  match l with
  | [] => []
  | e :: l' => sort_insert e (sort l')
  end.
End sort.

End Json.

Import Json.

(** ** The canonicalizers *)

(** [stableStringify] of [apps/api/src/auth.ts]. The values are rendered
    before the entries are sorted, which keeps the recursion structural;
    [stableStringify_object] below gives the equation in the order of the
    source (sort the entries, then render each). *)
Module Server.
Section stableStringify.
Variable localeCompare : string → string → comparison.

Definition render_entry (e : string * option string) : string :=
  template (JSON_stringify (PStr e.1)) +:+ ":" +:+ template e.2.

Fixpoint stableStringify (input : json) : option string :=
  match input with
  | JPrim p => JSON_stringify p
  | JArr items =>
      Some ("[" +:+ join "," (map (λ item, join_item (stableStringify item)) items) +:+ "]")
  | JObj entries =>
      Some ("{" +:+
            join "," (map render_entry
                        (sort localeCompare
                           (map (λ e, (e.1, stableStringify e.2)) entries)))
            +:+ "}")
  end.
End stableStringify.
End Server.

(** [stableStringify] of [apps/web/lib/crypto.ts]. *)
Module Client.
Section stableStringify.
Variable localeCompare : string → string → comparison.

Definition render_entry (e : string * option string) : string :=
  template (JSON_stringify (PStr e.1)) +:+ ":" +:+ template e.2.

Fixpoint stableStringify (input : json) : option string :=
  match input with
  | JPrim p => JSON_stringify p
  | JArr items =>
      Some ("[" +:+ join "," (map (λ item, join_item (stableStringify item)) items) +:+ "]")
  | JObj entries =>
      Some ("{" +:+
            join "," (map render_entry
                        (sort localeCompare
                           (map (λ e, (e.1, stableStringify e.2)) entries)))
            +:+ "}")
  end.
End stableStringify.
End Client.

(** ** Errors and the handler monad *)

Inductive TRPCCode : Type :=
  | UNAUTHORIZED
  | BAD_REQUEST
  | FORBIDDEN
  | NOT_FOUND
  | INTERNAL_SERVER_ERROR.

Record TRPCError : Type := mkTRPCError { code : TRPCCode; message : string }.

(** ** The tables of [packages/db/src/schema.ts] *)

(** [users], keyed by its primary key [userId]. *)
Module Users.
Record row : Type := mk {
  identityPublicKey : string;
  signalIdentityPublicKey : string;
  registrationId : Z;
  createdAt : Z }.
End Users.

Module Prekeys.
Record row : Type := mk {
  id : Z;
  userId : string;
  signedPreKeyId : Z;
  signedPreKeyPublic : string;
  signedPreKeySignature : string;
  oneTimePreKeyId : option Z;
  oneTimePreKeyPublic : option string;
  isUsed : bool;
  createdAt : Z }.

Definition set_isUsed (b : bool) (r : row) : row :=
  mk (id r) (userId r) (signedPreKeyId r) (signedPreKeyPublic r) (signedPreKeySignature r)
     (oneTimePreKeyId r) (oneTimePreKeyPublic r) b (createdAt r).
End Prekeys.

Module MessageQueue.
Record row : Type := mk {
  queuedMsgId : Z;
  toUserId : string;
  fromUserId : string;
  ciphertext : string;
  header : string;
  clientMsgId : string;
  createdAt : Z;
  expiresAt : option Z }.
End MessageQueue.

Module Groups.
Record row : Type := mk {
  groupId : Z;
  name : string;
  createdAt : Z;
  createdByUserId : string }.
End Groups.

(** [group_members], keyed by its primary key [(groupId, userId)]. *)
Module GroupMembers.
Inductive role : Type := owner | admin | member.
Record row : Type := mk { role_of : role; joinedAt : Z }.
End GroupMembers.

Module GroupMessageQueue.
Record row : Type := mk {
  queuedMsgId : Z;
  groupId : Z;
  fromUserId : string;
  ciphertext : string;
  header : string;
  clientMsgId : string;
  createdAt : Z }.
End GroupMessageQueue.

(** The database: one field per table, and the sequence behind every
    [serial] column. [auth_nonces] is keyed by its primary key
    [(userId, nonce)] and holds [createdAt]. *)
Record Db : Type := mkDb {
  users : gmap string Users.row;
  prekeys : list Prekeys.row;
  prekeys_id_seq : Z;
  messageQueue : list MessageQueue.row;
  messageQueue_id_seq : Z;
  groups : list Groups.row;
  groups_id_seq : Z;
  groupMembers : gmap (Z * string) GroupMembers.row;
  groupMessageQueue : list GroupMessageQueue.row;
  groupMessageQueue_id_seq : Z;
  authNonces : gmap (string * string) Z }.

Definition empty_db : Db := mkDb ∅ [] 1 [] 1 [] 1 ∅ [] 1 ∅.

Definition set_users (v : gmap string Users.row) (db : Db) : Db :=
  mkDb v (prekeys db) (prekeys_id_seq db) (messageQueue db) (messageQueue_id_seq db)
       (groups db) (groups_id_seq db) (groupMembers db) (groupMessageQueue db)
       (groupMessageQueue_id_seq db) (authNonces db).
Definition set_prekeys (v : list Prekeys.row) (s : Z) (db : Db) : Db :=
  mkDb (users db) v s (messageQueue db) (messageQueue_id_seq db)
       (groups db) (groups_id_seq db) (groupMembers db) (groupMessageQueue db)
       (groupMessageQueue_id_seq db) (authNonces db).
Definition set_messageQueue (v : list MessageQueue.row) (s : Z) (db : Db) : Db :=
  mkDb (users db) (prekeys db) (prekeys_id_seq db) v s
       (groups db) (groups_id_seq db) (groupMembers db) (groupMessageQueue db)
       (groupMessageQueue_id_seq db) (authNonces db).
Definition set_groups (v : list Groups.row) (s : Z) (db : Db) : Db :=
  mkDb (users db) (prekeys db) (prekeys_id_seq db) (messageQueue db) (messageQueue_id_seq db)
       v s (groupMembers db) (groupMessageQueue db)
       (groupMessageQueue_id_seq db) (authNonces db).
Definition set_groupMembers (v : gmap (Z * string) GroupMembers.row) (db : Db) : Db :=
  mkDb (users db) (prekeys db) (prekeys_id_seq db) (messageQueue db) (messageQueue_id_seq db)
       (groups db) (groups_id_seq db) v (groupMessageQueue db)
       (groupMessageQueue_id_seq db) (authNonces db).
Definition set_groupMessageQueue (v : list GroupMessageQueue.row) (s : Z) (db : Db) : Db :=
  mkDb (users db) (prekeys db) (prekeys_id_seq db) (messageQueue db) (messageQueue_id_seq db)
       (groups db) (groups_id_seq db) (groupMembers db) v s (authNonces db).
Definition set_authNonces (v : gmap (string * string) Z) (db : Db) : Db :=
  mkDb (users db) (prekeys db) (prekeys_id_seq db) (messageQueue db) (messageQueue_id_seq db)
       (groups db) (groups_id_seq db) (groupMembers db) (groupMessageQueue db)
       (groupMessageQueue_id_seq db) v.

(** A computation over the database that returns a value or throws an [E].
    The database is threaded through a throw as well: what was written
    before it stays written. *)
Definition M (E A : Type) : Type := Db → (E + A) * Db.

Definition ret {E A} (a : A) : M E A := λ db, (inr a, db).
Definition throw {E A} (e : E) : M E A := λ db, (inl e, db).
Definition bind {E A B} (m : M E A) (k : A → M E B) : M E B :=
  λ db, match m db with
        | (inl e, db') => (inl e, db')
        | (inr a, db') => k a db'
        end.
(** A read-only query. *)
Definition query {E A} (f : Db → A) : M E A := λ db, (inr (f db), db).
(** A statement: the driver rejects it with a message, or the database changes. *)
Definition exec (f : Db → string + Db) : M string unit :=
  λ db, match f db with
        | inl e => (inl e, db)
        | inr db' => (inr tt, db')
        end.
(** An error that is not a [TRPCError] reaches the client as
    [INTERNAL_SERVER_ERROR] carrying its message. *)
Definition uncaught {A} (m : M string A) : M TRPCError A :=
  λ db, match m db with
        | (inl e, db') => (inl (mkTRPCError INTERNAL_SERVER_ERROR e), db')
        | (inr a, db') => (inr a, db')
        end.

Notation "x <- m ;; k" := (bind m (λ x, k))
  (at level 100, m at next level, right associativity).
Notation "m ;;; k" := (bind m (λ _, k))
  (at level 100, right associativity).

(** [try { m } catch (e) { h e }]. *)
Definition try_catch {E E' A} (m : M E A) (h : E → M E' A) : M E' A :=
  λ db, match m db with
        | (inl e, db') => h e db'
        | (inr a, db') => (inr a, db')
        end.

(** ** The zod schemas of [packages/shared] *)

Module Zod.
Definition in_range (lo hi : N) (c : ascii) : bool :=
  let n := N_of_ascii c in ((lo <=? n) && (n <=? hi))%N.
Definition is_char (k : N) (c : ascii) : bool := (N_of_ascii c =? k)%N.
Definition alnum (c : ascii) : bool :=
  in_range 65 90 c || in_range 97 122 c || in_range 48 57 c.
(** The character class [[A-Za-z0-9_-]]. *)
Definition b64url_class (c : ascii) : bool := alnum c || is_char 95 c || is_char 45 c.
(** The character class [[A-Za-z0-9+/=]]. *)
Definition b64_class (c : ascii) : bool :=
  alnum c || is_char 43 c || is_char 47 c || is_char 61 c.

Fixpoint all_chars (p : ascii → bool) (s : string) : bool :=
  match s with
  | EmptyString => true
  | String c s' => p c && all_chars p s'
  end.

(** [/^[...]+$/]: at least one character, every character in the class. *)
Definition regex_plus (p : ascii → bool) (s : string) : bool :=
  match s with
  | EmptyString => false
  | _ => all_chars p s
  end.

Definition b64url : string → bool := regex_plus b64url_class.
Definition b64 : string → bool := regex_plus b64_class.

Definition min (n : nat) (s : string) : bool := (n <=? String.length s)%nat.
Definition max (n : nat) (s : string) : bool := (String.length s <=? n)%nat.
Definition array_min {A} (n : nat) (l : list A) : bool := (n <=? length l)%nat.
Definition array_max {A} (n : nat) (l : list A) : bool := (length l <=? n)%nat.
Definition nonnegative (n : Z) : bool := 0 <=? n.
Definition positive (n : Z) : bool := 0 <? n.
Definition optional {A} (p : A → bool) (o : option A) : bool :=
  match o with
  | None => true
  | Some a => p a
  end.
End Zod.

Module AuthEnvelope.
Record t : Type := mk {
  userId : string;
  identityPublicKey : string;
  nonce : string;
  signature : string }.
Definition schema (a : t) : bool :=
  Zod.min 8 (userId a) && Zod.b64url (identityPublicKey a)
  && Zod.min 12 (nonce a) && Zod.b64url (signature a).
End AuthEnvelope.

Module PreKey.
Record t : Type := mk { keyId : Z; publicKey : string }.
Definition schema (k : t) : bool := Zod.nonnegative (keyId k) && Zod.b64 (publicKey k).
Definition to_json (k : t) : json :=
  JObj [("keyId", JNum (keyId k)); ("publicKey", JStr (publicKey k))].
End PreKey.

Module SignedPreKey.
Record t : Type := mk { keyId : Z; publicKey : string; signature : string }.
Definition schema (k : t) : bool :=
  Zod.nonnegative (keyId k) && Zod.b64 (publicKey k) && Zod.b64 (signature k).
Definition to_json (k : t) : json :=
  JObj [("keyId", JNum (keyId k)); ("publicKey", JStr (publicKey k));
        ("signature", JStr (signature k))].
End SignedPreKey.

(** Every input record comes with its schema and, where the handler signs
    over [const { auth, ...payload } = input], with that rest object. *)
Module IdentityRegisterBundle.
Record input : Type := mk {
  auth : AuthEnvelope.t;
  signalIdentityPublicKey : string;
  registrationId : Z;
  signedPreKey : SignedPreKey.t;
  oneTimePreKeys : list PreKey.t }.
Definition schema (i : input) : bool :=
  AuthEnvelope.schema (auth i) && Zod.b64 (signalIdentityPublicKey i)
  && Zod.nonnegative (registrationId i) && SignedPreKey.schema (signedPreKey i)
  && forallb PreKey.schema (oneTimePreKeys i)
  && Zod.array_min 1 (oneTimePreKeys i) && Zod.array_max 100 (oneTimePreKeys i).
Definition payload (i : input) : list (string * json) :=
  [("signalIdentityPublicKey", JStr (signalIdentityPublicKey i));
   ("registrationId", JNum (registrationId i));
   ("signedPreKey", SignedPreKey.to_json (signedPreKey i));
   ("oneTimePreKeys", JArr (map PreKey.to_json (oneTimePreKeys i)))].
End IdentityRegisterBundle.

Module IdentityGetBundle.
Record input : Type := mk { userId : string }.
Definition schema (i : input) : bool := Zod.min 8 (userId i).
End IdentityGetBundle.

Module MessageSend.
Record input : Type := mk {
  auth : AuthEnvelope.t;
  toUserId : string;
  ciphertext : string;
  header : string;
  clientMsgId : string;
  createdAt : Z }.
Definition schema (i : input) : bool :=
  AuthEnvelope.schema (auth i) && Zod.min 8 (toUserId i) && Zod.min 1 (ciphertext i)
  && Zod.min 1 (header i) && Zod.min 4 (clientMsgId i) && Zod.positive (createdAt i).
Definition payload (i : input) : list (string * json) :=
  [("toUserId", JStr (toUserId i)); ("ciphertext", JStr (ciphertext i));
   ("header", JStr (header i)); ("clientMsgId", JStr (clientMsgId i));
   ("createdAt", JNum (createdAt i))].
End MessageSend.

(** An absent optional number is the JavaScript value [undefined]. *)
Definition optional_number (o : option Z) : json :=
  match o with
  | Some n => JNum n
  | None => JPrim PUndefined
  end.

Module MessagePoll.
Record input : Type := mk { auth : AuthEnvelope.t; since : option Z }.
Definition schema (i : input) : bool :=
  AuthEnvelope.schema (auth i) && Zod.optional Zod.nonnegative (since i).
Definition payload (i : input) : list (string * json) :=
  [("since", optional_number (since i))].
End MessagePoll.

Module MessageAckDelete.
Record input : Type := mk { auth : AuthEnvelope.t; queuedMsgId : Z }.
Definition schema (i : input) : bool :=
  AuthEnvelope.schema (auth i) && Zod.positive (queuedMsgId i).
Definition payload (i : input) : list (string * json) :=
  [("queuedMsgId", JNum (queuedMsgId i))].
End MessageAckDelete.

Module GroupCreate.
Record input : Type := mk {
  auth : AuthEnvelope.t;
  name : string;
  memberUserIds : list string }.
Definition schema (i : input) : bool :=
  AuthEnvelope.schema (auth i) && Zod.min 1 (name i) && Zod.max 100 (name i)
  && forallb (Zod.min 8) (memberUserIds i) && Zod.array_max 128 (memberUserIds i).
Definition payload (i : input) : list (string * json) :=
  [("name", JStr (name i)); ("memberUserIds", JArr (map JStr (memberUserIds i)))].
End GroupCreate.

Module GroupAddMembers.
Record input : Type := mk {
  auth : AuthEnvelope.t;
  groupId : Z;
  memberUserIds : list string }.
Definition schema (i : input) : bool :=
  AuthEnvelope.schema (auth i) && Zod.positive (groupId i)
  && forallb (Zod.min 8) (memberUserIds i)
  && Zod.array_min 1 (memberUserIds i) && Zod.array_max 128 (memberUserIds i).
Definition payload (i : input) : list (string * json) :=
  [("groupId", JNum (groupId i)); ("memberUserIds", JArr (map JStr (memberUserIds i)))].
End GroupAddMembers.

Module GroupPost.
Record input : Type := mk {
  auth : AuthEnvelope.t;
  groupId : Z;
  ciphertext : string;
  header : string;
  clientMsgId : string;
  createdAt : Z }.
Definition schema (i : input) : bool :=
  AuthEnvelope.schema (auth i) && Zod.positive (groupId i) && Zod.min 1 (ciphertext i)
  && Zod.min 1 (header i) && Zod.min 4 (clientMsgId i) && Zod.positive (createdAt i).
Definition payload (i : input) : list (string * json) :=
  [("groupId", JNum (groupId i)); ("ciphertext", JStr (ciphertext i));
   ("header", JStr (header i)); ("clientMsgId", JStr (clientMsgId i));
   ("createdAt", JNum (createdAt i))].
End GroupPost.

Module GroupPoll.
Record input : Type := mk { auth : AuthEnvelope.t; groupId : Z; since : option Z }.
Definition schema (i : input) : bool :=
  AuthEnvelope.schema (auth i) && Zod.positive (groupId i)
  && Zod.optional Zod.nonnegative (since i).
Definition payload (i : input) : list (string * json) :=
  [("groupId", JNum (groupId i)); ("since", optional_number (since i))].
End GroupPoll.

Module GroupAckDelete.
Record input : Type := mk { auth : AuthEnvelope.t; queuedMsgId : Z }.
Definition schema (i : input) : bool :=
  AuthEnvelope.schema (auth i) && Zod.positive (queuedMsgId i).
Definition payload (i : input) : list (string * json) :=
  [("queuedMsgId", JNum (queuedMsgId i))].
End GroupAckDelete.

Module GroupListMine.
Record input : Type := mk { auth : AuthEnvelope.t }.
Definition schema (i : input) : bool := AuthEnvelope.schema (auth i).
Definition payload (i : input) : list (string * json) := [].
End GroupListMine.

Module GroupGetMembers.
Record input : Type := mk { auth : AuthEnvelope.t; groupId : Z }.
Definition schema (i : input) : bool :=
  AuthEnvelope.schema (auth i) && Zod.positive (groupId i).
Definition payload (i : input) : list (string * json) :=
  [("groupId", JNum (groupId i))].
End GroupGetMembers.

(** ** Host capabilities of the API server *)

Class Runtime : Type := {
  (** [a.localeCompare(b)] in the server's default locale. *)
  localeCompare : string → string → comparison;
  (** [decodeBase64Url] of the server's [encoding.js]. *)
  decodeBase64Url : string → list byte;
  (** [createHash("sha256").update(data).digest("base64url")]. *)
  sha256_base64url : list byte → string;
  (** [nacl.sign.detached.verify(msg, sig, publicKey)]: a boolean, or the
      message of the [Error] it throws on operands of the wrong size. *)
  nacl_sign_detached_verify : list byte → list byte → list byte → string + bool }.

(** ** [apps/api/src/auth.ts] *)

Section auth.
Context `{Runtime}.

Definition deriveUserId (identityPublicKey : string) : string :=
  sha256_base64url (decodeBase64Url identityPublicKey).

(** [db.insert(authNonces).values(...)]: rejected when the primary key
    [(userId, nonce)] is taken. *)
Definition insert_authNonces (nonce userId : string) (createdAt : Z) (db : Db) : string + Db :=
  match authNonces db !! (userId, nonce) with
  | Some _ => inl "duplicate key value violates unique constraint auth_nonces_user_id_nonce_pk"
  | None => inr (set_authNonces (<[(userId, nonce) := createdAt]> (authNonces db)) db)
  end.

(** The string the signature is over. *)
Definition signed_string (procedure nonce payloadHash : string) : string :=
  procedure +:+ ":" +:+ nonce +:+ ":" +:+ payloadHash.

(** [now] is the value [Date.now()] returns during the request. *)
Definition assertAuthenticated (now : Z) (procedure : string) (auth : AuthEnvelope.t)
    (payload : list (string * json)) : M string string :=
  let derived := deriveUserId (AuthEnvelope.identityPublicKey auth) in
  if negb (String.eqb derived (AuthEnvelope.userId auth)) then throw "auth.userId mismatch"
  else
    match Server.stableStringify localeCompare (JObj payload) with
    | None => throw "The data argument must be of type string or a Buffer"
    | Some canonical =>
        let payloadHash := sha256_base64url (String.list_byte_of_string canonical) in
        let signed := signed_string procedure (AuthEnvelope.nonce auth) payloadHash in
        match nacl_sign_detached_verify
                (String.list_byte_of_string signed)
                (decodeBase64Url (AuthEnvelope.signature auth))
                (decodeBase64Url (AuthEnvelope.identityPublicKey auth)) with
        | inl e => throw e
        | inr ok =>
            if negb ok then throw "invalid signature"
            else
              try_catch
                (exec (insert_authNonces (AuthEnvelope.nonce auth) (AuthEnvelope.userId auth) now))
                (λ _, throw "replayed request") ;;;
              ret (AuthEnvelope.userId auth)
        end
    end.

End auth.

(** ** [apps/api/src/router.ts] *)

Definition unauthorized {A} (message : string) : M TRPCError A :=
  throw (mkTRPCError UNAUTHORIZED message).
Definition badRequest {A} (message : string) : M TRPCError A :=
  throw (mkTRPCError BAD_REQUEST message).
Definition forbidden {A} (message : string) : M TRPCError A :=
  throw (mkTRPCError FORBIDDEN message).

(** *** The statements the handlers run *)

Module Sql.

(** [orderBy(key)]: ascending; rows with equal keys come in an order the
    database chooses, here the one the merge leaves them in. *)
Definition le_on {A} (key : A → Z) : relation A := λ a b, key a ≤ key b.
#[global] Instance le_on_dec {A} (key : A → Z) (a b : A) : Decision (le_on key a b) :=
  Z.le_dec (key a) (key b).
Definition order_by {A} (key : A → Z) (l : list A) : list A :=
  merge_sort (le_on key) l.

Definition fk_violation : string := "insert or update violates foreign key constraint".
Definition unique_violation : string := "duplicate key value violates unique constraint".
Definition out_of_range : string := "value is out of range for type integer".

(** The values an [integer] column, and a parameter compared with one, can hold. *)
Definition int4 (v : Z) : bool := (-2147483648 <=? v) && (v <=? 2147483647).

(** [insert(users) ... onConflictDoUpdate({ target: users.userId, set })]:
    a [registrationId] outside int4 is rejected; a row with this [userId]
    keeps its [createdAt]; another row holding the same [identityPublicKey]
    or [signalIdentityPublicKey] violates the column's unique constraint. *)
Definition upsert_users (userId identityPublicKey signalIdentityPublicKey : string)
    (registrationId now : Z) (db : Db) : string + Db :=
  if negb (int4 registrationId) then inl out_of_range
  else if existsb (λ kv : string * Users.row,
                negb (String.eqb kv.1 userId)
                && (String.eqb (Users.identityPublicKey kv.2) identityPublicKey
                    || String.eqb (Users.signalIdentityPublicKey kv.2) signalIdentityPublicKey))
             (map_to_list (users db))
  then inl unique_violation
  else
    let createdAt :=
      match users db !! userId with
      | Some old => Users.createdAt old
      | None => now
      end in
    inr (set_users
           (<[userId := Users.mk identityPublicKey signalIdentityPublicKey registrationId createdAt]>
              (users db)) db).

(** [delete(prekeys).where(eq(prekeys.userId, userId))]. *)
Definition delete_prekeys (userId : string) (db : Db) : string + Db :=
  inr (set_prekeys (filter (λ r, Prekeys.userId r ≠ userId) (prekeys db)) (prekeys_id_seq db) db).

(** Rows of one [insert] take consecutive values of the sequence. *)
Fixpoint number_from {A B} (mk : Z → A → B) (next : Z) (l : list A) : list B :=
  match l with
  | [] => []
  | x :: l' => mk next x :: number_from mk (next + 1) l'
  end.

(** [insert(prekeys).values(items.map(...))]. A key id outside int4 is
    rejected before a row is formed. The values drawn from the sequence
    are not given back when the statement fails on the foreign key. *)
Definition insert_prekeys (userId : string) (signedPreKey : SignedPreKey.t)
    (items : list PreKey.t) (now : Z) (db : Db) : (string + unit) * Db :=
  if negb (int4 (SignedPreKey.keyId signedPreKey)
           && forallb (λ item, int4 (PreKey.keyId item)) items)
  then (inl out_of_range, db)
  else
  let next := prekeys_id_seq db + Z.of_nat (length items) in
  let rows :=
    number_from
      (λ id item,
         Prekeys.mk id userId (SignedPreKey.keyId signedPreKey)
           (SignedPreKey.publicKey signedPreKey) (SignedPreKey.signature signedPreKey)
           (Some (PreKey.keyId item)) (Some (PreKey.publicKey item)) false now)
      (prekeys_id_seq db) items in
  match users db !! userId with
  | None => (inl fk_violation, set_prekeys (prekeys db) next db)
  | Some _ => (inr tt, set_prekeys (prekeys db ++ rows) next db)
  end.

(** [select().from(prekeys).where(and(eq(userId), eq(isUsed, false)))
    .orderBy(prekeys.id).limit(1)]. *)
Definition select_unused_prekey (userId : string) (db : Db) : option Prekeys.row :=
  head (order_by Prekeys.id
          (filter (λ r, Prekeys.userId r = userId ∧ Prekeys.isUsed r = false) (prekeys db))).

(** [update(prekeys).set({ isUsed: true }).where(eq(prekeys.id, id))]. *)
Definition update_prekey_used (id : Z) (db : Db) : string + Db :=
  inr (set_prekeys
         (map (λ r, if bool_decide (Prekeys.id r = id) then Prekeys.set_isUsed true r else r)
              (prekeys db))
         (prekeys_id_seq db) db).

(** The unique index [message_queue_to_from_client_msg_unique]. *)
Definition same_message (toUserId fromUserId clientMsgId : string) (r : MessageQueue.row) : Prop :=
  MessageQueue.toUserId r = toUserId ∧ MessageQueue.fromUserId r = fromUserId
  ∧ MessageQueue.clientMsgId r = clientMsgId.

(** [insert(messageQueue).values(...).onConflictDoNothing().returning(queuedMsgId)].
    The sequence advances whether or not a row is inserted. *)
Definition insert_messageQueue (toUserId fromUserId ciphertext header clientMsgId : string)
    (createdAt : Z) (db : Db) : (string + list Z) * Db :=
  let id := messageQueue_id_seq db in
  if bool_decide (Exists (same_message toUserId fromUserId clientMsgId) (messageQueue db))
  then (inr [], set_messageQueue (messageQueue db) (id + 1) db)
  else if bool_decide (is_Some (users db !! toUserId) ∧ is_Some (users db !! fromUserId))
  then (inr [id],
        set_messageQueue
          (messageQueue db ++
             [MessageQueue.mk id toUserId fromUserId ciphertext header clientMsgId createdAt None])
          (id + 1) db)
  else (inl fk_violation, set_messageQueue (messageQueue db) (id + 1) db).

(** [delete(messageQueue).where(and(eq(queuedMsgId), eq(toUserId)))]; the
    id is compared as an integer of any size. *)
Definition delete_messageQueue (queuedMsgId : Z) (toUserId : string) (db : Db) : string + Db :=
  inr (set_messageQueue
         (filter (λ r, ¬ (MessageQueue.queuedMsgId r = queuedMsgId
                          ∧ MessageQueue.toUserId r = toUserId)) (messageQueue db))
         (messageQueue_id_seq db) db).

(** [select({ userId }).from(users).where(inArray(users.userId, ids))]. *)
Definition select_users_in (ids : list string) (db : Db) : list string :=
  (map_to_list (filter (λ kv : string * Users.row, kv.1 ∈ ids) (users db))).*1.

(** [insert(groups).values(...).returning({ groupId })]. *)
Definition insert_groups (name : string) (createdAt : Z) (createdByUserId : string)
    (db : Db) : (string + list Z) * Db :=
  let id := groups_id_seq db in
  match users db !! createdByUserId with
  | None => (inl fk_violation, set_groups (groups db) (id + 1) db)
  | Some _ =>
      (inr [id],
       set_groups (groups db ++ [Groups.mk id name createdAt createdByUserId]) (id + 1) db)
  end.

(** The two foreign keys of a [group_members] row. *)
Definition member_fk_ok (db : Db) (key : Z * string) : Prop :=
  Exists (λ g, Groups.groupId g = key.1) (groups db) ∧ is_Some (users db !! key.2).

(** [insert(groupMembers).values(rows)]: all rows, or none when a primary
    key repeats or a foreign key dangles. *)
Definition insert_groupMembers (rows : list ((Z * string) * GroupMembers.row)) (db : Db)
    : string + Db :=
  if bool_decide (NoDup rows.*1 ∧ Forall (λ k, groupMembers db !! k = None) rows.*1)
  then
    if bool_decide (Forall (member_fk_ok db) rows.*1)
    then inr (set_groupMembers (list_to_map rows ∪ groupMembers db) db)
    else inl fk_violation
  else inl unique_violation.

(** One row of an [insert ... onConflictDoNothing()]. *)
Definition insert_if_absent {K V} `{Countable K} (m : gmap K V) (kv : K * V) : gmap K V :=
  match m !! kv.1 with
  | Some _ => m
  | None => <[kv.1 := kv.2]> m
  end.

(** [insert(groupMembers).values(rows).onConflictDoNothing()]: rows whose
    primary key exists are skipped; the foreign keys of the others are
    checked. *)
Definition insert_groupMembers_onConflictDoNothing
    (rows : list ((Z * string) * GroupMembers.row)) (db : Db) : string + Db :=
  if bool_decide (Forall (λ k, groupMembers db !! k = None → member_fk_ok db k) rows.*1)
  then inr (set_groupMembers (foldl insert_if_absent (groupMembers db) rows) db)
  else inl fk_violation.

(** The unique index [group_message_queue_group_from_client_unique]. *)
Definition same_group_message (groupId : Z) (fromUserId clientMsgId : string)
    (r : GroupMessageQueue.row) : Prop :=
  GroupMessageQueue.groupId r = groupId ∧ GroupMessageQueue.fromUserId r = fromUserId
  ∧ GroupMessageQueue.clientMsgId r = clientMsgId.

(** [insert(groupMessageQueue).values(...).onConflictDoNothing().returning(queuedMsgId)]. *)
Definition insert_groupMessageQueue (groupId : Z) (fromUserId ciphertext header clientMsgId : string)
    (createdAt : Z) (db : Db) : (string + list Z) * Db :=
  let id := groupMessageQueue_id_seq db in
  if bool_decide (Exists (same_group_message groupId fromUserId clientMsgId) (groupMessageQueue db))
  then (inr [], set_groupMessageQueue (groupMessageQueue db) (id + 1) db)
  else if bool_decide (Exists (λ g, Groups.groupId g = groupId) (groups db)
                       ∧ is_Some (users db !! fromUserId))
  then (inr [id],
        set_groupMessageQueue
          (groupMessageQueue db ++
             [GroupMessageQueue.mk id groupId fromUserId ciphertext header clientMsgId createdAt])
          (id + 1) db)
  else (inl fk_violation, set_groupMessageQueue (groupMessageQueue db) (id + 1) db).

End Sql.

(** [Array.from(new Set(l))]: the first occurrence of every element, in order. *)
Fixpoint uniq (seen l : list string) : list string :=
  match l with
  | [] => []
  | x :: l' => if bool_decide (x ∈ seen) then uniq seen l' else x :: uniq (x :: seen) l'
  end.
Definition Array_from_Set (l : list string) : list string := uniq [] l.

(** JavaScript truthiness of an optional number: [undefined] and [0] are falsy. *)
Definition truthy (o : option Z) : bool :=
  match o with
  | Some n => negb (n =? 0)
  | None => false
  end.

(** [and(...conditions)]. *)
Definition and_all {A} (conditions : list (A → bool)) (r : A) : bool :=
  forallb (λ c, c r) conditions.

Record Bundle : Type := mkBundle {
  registrationId : Z;
  signalIdentityPublicKey : string;
  signedPreKey : SignedPreKey.t;
  oneTimePreKey : option PreKey.t }.

Record GroupListItem : Type := mkGroupListItem {
  group : Groups.row;
  role : GroupMembers.role }.

(** The handlers. A [groupId] or [queuedMsgId] of the request is looked up
    as an integer of any size (see the conventions at the head of the
    file). *)
Section router.
Context `{Runtime}.

Definition requireAuth (now : Z) (procedure : string) (auth : AuthEnvelope.t)
    (payload : list (string * json)) : M TRPCError string :=
  try_catch (assertAuthenticated now procedure auth payload) (λ error, unauthorized error).

Definition identity_registerBundle (now : Z) (input : IdentityRegisterBundle.input)
    : M TRPCError unit :=
  let auth := IdentityRegisterBundle.auth input in
  userId <- requireAuth now "identity.registerBundle" auth (IdentityRegisterBundle.payload input) ;;
  uncaught (exec (Sql.upsert_users userId (AuthEnvelope.identityPublicKey auth)
                    (IdentityRegisterBundle.signalIdentityPublicKey input)
                    (IdentityRegisterBundle.registrationId input) now)) ;;;
  uncaught (exec (Sql.delete_prekeys userId)) ;;;
  uncaught (Sql.insert_prekeys userId (IdentityRegisterBundle.signedPreKey input)
              (IdentityRegisterBundle.oneTimePreKeys input) now) ;;;
  ret tt.

Definition identity_getBundle (input : IdentityGetBundle.input) : M TRPCError Bundle :=
  let userId := IdentityGetBundle.userId input in
  identity <- query (λ db, users db !! userId) ;;
  match identity with
  | None => throw (mkTRPCError NOT_FOUND "user not found")
  | Some identity =>
      prekey <- query (Sql.select_unused_prekey userId) ;;
      match prekey with
      | None => throw (mkTRPCError NOT_FOUND "no prekey bundle")
      | Some prekey =>
          match Prekeys.oneTimePreKeyId prekey with
          | Some _ => uncaught (exec (Sql.update_prekey_used (Prekeys.id prekey)))
          | None => ret tt
          end ;;;
          ret (mkBundle
                 (Users.registrationId identity)
                 (Users.signalIdentityPublicKey identity)
                 (SignedPreKey.mk (Prekeys.signedPreKeyId prekey)
                    (Prekeys.signedPreKeyPublic prekey) (Prekeys.signedPreKeySignature prekey))
                 match Prekeys.oneTimePreKeyId prekey, Prekeys.oneTimePreKeyPublic prekey with
                 | Some keyId, Some publicKey => Some (PreKey.mk keyId publicKey)
                 | _, _ => None
                 end)
      end
  end.

Definition message_send (now : Z) (input : MessageSend.input) : M TRPCError Z :=
  let toUserId := MessageSend.toUserId input in
  let clientMsgId := MessageSend.clientMsgId input in
  fromUserId <- requireAuth now "message.send" (MessageSend.auth input) (MessageSend.payload input) ;;
  targetRows <- query (λ db, users db !! toUserId) ;;
  match targetRows with
  | None => badRequest "target user not found"
  | Some _ =>
      inserted <- uncaught (Sql.insert_messageQueue toUserId fromUserId
                              (MessageSend.ciphertext input) (MessageSend.header input)
                              clientMsgId (MessageSend.createdAt input)) ;;
      match inserted with
      | [] =>
          existing <- query (λ db, head (filter (Sql.same_message toUserId fromUserId clientMsgId)
                                           (messageQueue db))) ;;
          ret (match existing with
               | Some r => MessageQueue.queuedMsgId r
               | None => -1
               end)
      | queuedMsgId :: _ => ret queuedMsgId
      end
  end.

(** The rows [message.poll] selects once the caller is authenticated. *)
Definition message_poll_rows (userId : string) (since : option Z) (db : Db)
    : list MessageQueue.row :=
  let conditions :=
    ([λ r, bool_decide (MessageQueue.toUserId r = userId)]
     ++ if truthy since
        then [λ r, bool_decide (default 0 since < MessageQueue.createdAt r)]
        else [])%list in
  Sql.order_by MessageQueue.createdAt (List.filter (and_all conditions) (messageQueue db)).

Definition message_poll (now : Z) (input : MessagePoll.input)
    : M TRPCError (list MessageQueue.row) :=
  let since := MessagePoll.since input in
  userId <- requireAuth now "message.poll" (MessagePoll.auth input) (MessagePoll.payload input) ;;
  query (message_poll_rows userId since).

Definition message_ackDelete (now : Z) (input : MessageAckDelete.input) : M TRPCError unit :=
  userId <- requireAuth now "message.ackDelete" (MessageAckDelete.auth input)
              (MessageAckDelete.payload input) ;;
  uncaught (exec (Sql.delete_messageQueue (MessageAckDelete.queuedMsgId input) userId)) ;;;
  ret tt.

Definition group_create (now : Z) (input : GroupCreate.input) : M TRPCError Z :=
  userId <- requireAuth now "group.create" (GroupCreate.auth input) (GroupCreate.payload input) ;;
  let memberUserIds := Array_from_Set (userId :: GroupCreate.memberUserIds input) in
  knownUsers <- query (Sql.select_users_in memberUserIds) ;;
  if negb (length knownUsers =? length memberUserIds)%nat
  then badRequest "unknown userId included"
  else
    created <- uncaught (Sql.insert_groups (GroupCreate.name input) now userId) ;;
    match head created with
    | None => badRequest "failed to create group"
    | Some groupId =>
        if groupId =? 0 then badRequest "failed to create group"
        else
          uncaught (exec (Sql.insert_groupMembers
                            (map (λ memberUserId,
                                    ((groupId, memberUserId),
                                     GroupMembers.mk
                                       (if String.eqb memberUserId userId
                                        then GroupMembers.owner else GroupMembers.member)
                                       now))
                                 memberUserIds))) ;;;
          ret groupId
    end.

(** The source reads the clock for the [joinedAt] of every row; the rows
    get the one reading [now] of the request. *)
Definition group_addMembers (now : Z) (input : GroupAddMembers.input) : M TRPCError unit :=
  let groupId := GroupAddMembers.groupId input in
  let memberUserIds := GroupAddMembers.memberUserIds input in
  userId <- requireAuth now "group.addMembers" (GroupAddMembers.auth input)
              (GroupAddMembers.payload input) ;;
  actor <- query (λ db, groupMembers db !! (groupId, userId)) ;;
  if match actor with
     | None => true
     | Some actor =>
         match GroupMembers.role_of actor with
         | GroupMembers.owner | GroupMembers.admin => false
         | GroupMembers.member => true
         end
     end
  then forbidden "insufficient role"
  else
    knownUsers <- query (Sql.select_users_in memberUserIds) ;;
    if negb (length knownUsers =? length memberUserIds)%nat
    then badRequest "unknown userId included"
    else
      uncaught (exec (Sql.insert_groupMembers_onConflictDoNothing
                        (map (λ memberUserId,
                                ((groupId, memberUserId), GroupMembers.mk GroupMembers.member now))
                             memberUserIds))) ;;;
      ret tt.

(** The join of [group.listMine]. *)
Definition group_listMine_rows (userId : string) (db : Db) : list GroupListItem :=
  Sql.order_by (λ i, Groups.createdAt (group i))
    (flat_map
       (λ kv : (Z * string) * GroupMembers.row,
          map (λ g, mkGroupListItem g (GroupMembers.role_of kv.2))
              (filter (λ g, Groups.groupId g = kv.1.1) (groups db)))
       (map_to_list (filter (λ kv : (Z * string) * GroupMembers.row, kv.1.2 = userId)
                       (groupMembers db)))).

Definition group_listMine (now : Z) (input : GroupListMine.input)
    : M TRPCError (list GroupListItem) :=
  userId <- requireAuth now "group.listMine" (GroupListMine.auth input)
              (GroupListMine.payload input) ;;
  query (group_listMine_rows userId).

Definition group_getMembers (now : Z) (input : GroupGetMembers.input)
    : M TRPCError (list (string * GroupMembers.row)) :=
  let groupId := GroupGetMembers.groupId input in
  userId <- requireAuth now "group.getMembers" (GroupGetMembers.auth input)
              (GroupGetMembers.payload input) ;;
  selfRows <- query (λ db, groupMembers db !! (groupId, userId)) ;;
  match selfRows with
  | None => forbidden "not a group member"
  | Some _ =>
      query (λ db,
               map (λ kv : (Z * string) * GroupMembers.row, (kv.1.2, kv.2))
                   (map_to_list (filter (λ kv : (Z * string) * GroupMembers.row, kv.1.1 = groupId)
                                   (groupMembers db))))
  end.

Definition group_post (now : Z) (input : GroupPost.input) : M TRPCError Z :=
  let groupId := GroupPost.groupId input in
  let clientMsgId := GroupPost.clientMsgId input in
  userId <- requireAuth now "group.post" (GroupPost.auth input) (GroupPost.payload input) ;;
  memberRows <- query (λ db, groupMembers db !! (groupId, userId)) ;;
  match memberRows with
  | None => forbidden "not a group member"
  | Some _ =>
      inserted <- uncaught (Sql.insert_groupMessageQueue groupId userId
                              (GroupPost.ciphertext input) (GroupPost.header input)
                              clientMsgId (GroupPost.createdAt input)) ;;
      match inserted with
      | [] =>
          existing <- query (λ db, head (filter (Sql.same_group_message groupId userId clientMsgId)
                                           (groupMessageQueue db))) ;;
          ret (match existing with
               | Some r => GroupMessageQueue.queuedMsgId r
               | None => -1
               end)
      | queuedMsgId :: _ => ret queuedMsgId
      end
  end.

Definition group_poll_rows (groupId : Z) (since : option Z) (db : Db)
    : list GroupMessageQueue.row :=
  let conditions :=
    ([λ r, bool_decide (GroupMessageQueue.groupId r = groupId)]
     ++ if truthy since
        then [λ r, bool_decide (default 0 since < GroupMessageQueue.createdAt r)]
        else [])%list in
  Sql.order_by GroupMessageQueue.createdAt
    (List.filter (and_all conditions) (groupMessageQueue db)).

Definition group_poll (now : Z) (input : GroupPoll.input)
    : M TRPCError (list GroupMessageQueue.row) :=
  let groupId := GroupPoll.groupId input in
  userId <- requireAuth now "group.poll" (GroupPoll.auth input) (GroupPoll.payload input) ;;
  memberRows <- query (λ db, groupMembers db !! (groupId, userId)) ;;
  match memberRows with
  | None => forbidden "not a group member"
  | Some _ => query (group_poll_rows groupId (GroupPoll.since input))
  end.

Definition group_ackDelete (now : Z) (input : GroupAckDelete.input) : M TRPCError unit :=
  userId <- requireAuth now "group.ackDelete" (GroupAckDelete.auth input)
              (GroupAckDelete.payload input) ;;
  rows <- query (λ db, head (filter (λ r, GroupMessageQueue.queuedMsgId r
                                           = GroupAckDelete.queuedMsgId input)
                               (groupMessageQueue db))) ;;
  match rows with
  | None => ret tt
  | Some row =>
      memberRows <- query (λ db, groupMembers db !! (GroupMessageQueue.groupId row, userId)) ;;
      match memberRows with
      | None => forbidden "not a group member"
      | Some _ => ret tt
      end
  end.

(** *** The router: tRPC validates the input against the procedure's schema
    (a failure is a [BAD_REQUEST]) and then runs the handler. *)

Inductive Request : Type :=
  | IdentityRegisterBundleReq (input : IdentityRegisterBundle.input)
  | IdentityGetBundleReq (input : IdentityGetBundle.input)
  | MessageSendReq (input : MessageSend.input)
  | MessagePollReq (input : MessagePoll.input)
  | MessageAckDeleteReq (input : MessageAckDelete.input)
  | GroupCreateReq (input : GroupCreate.input)
  | GroupAddMembersReq (input : GroupAddMembers.input)
  | GroupListMineReq (input : GroupListMine.input)
  | GroupGetMembersReq (input : GroupGetMembers.input)
  | GroupPostReq (input : GroupPost.input)
  | GroupPollReq (input : GroupPoll.input)
  | GroupAckDeleteReq (input : GroupAckDelete.input).

Inductive Response : Type :=
  | ROk
  | RBundle (bundle : Bundle)
  | RQueuedMsgId (queuedMsgId : Z)
  | RMessages (rows : list MessageQueue.row)
  | RGroupId (groupId : Z)
  | RGroupList (rows : list GroupListItem)
  | RMembers (rows : list (string * GroupMembers.row))
  | RGroupMessages (rows : list GroupMessageQueue.row).

Definition t_procedure {A} (valid : bool) (handler : M TRPCError A) (wrap : A → Response)
    : M TRPCError Response :=
  if valid then (a <- handler ;; ret (wrap a))
  else badRequest "Input validation failed".

Definition appRouter (now : Z) (req : Request) : M TRPCError Response :=
  match req with
  | IdentityRegisterBundleReq i =>
      t_procedure (IdentityRegisterBundle.schema i) (identity_registerBundle now i) (λ _, ROk)
  | IdentityGetBundleReq i =>
      t_procedure (IdentityGetBundle.schema i) (identity_getBundle i) RBundle
  | MessageSendReq i => t_procedure (MessageSend.schema i) (message_send now i) RQueuedMsgId
  | MessagePollReq i => t_procedure (MessagePoll.schema i) (message_poll now i) RMessages
  | MessageAckDeleteReq i =>
      t_procedure (MessageAckDelete.schema i) (message_ackDelete now i) (λ _, ROk)
  | GroupCreateReq i => t_procedure (GroupCreate.schema i) (group_create now i) RGroupId
  | GroupAddMembersReq i =>
      t_procedure (GroupAddMembers.schema i) (group_addMembers now i) (λ _, ROk)
  | GroupListMineReq i => t_procedure (GroupListMine.schema i) (group_listMine now i) RGroupList
  | GroupGetMembersReq i =>
      t_procedure (GroupGetMembers.schema i) (group_getMembers now i) RMembers
  | GroupPostReq i => t_procedure (GroupPost.schema i) (group_post now i) RQueuedMsgId
  | GroupPollReq i => t_procedure (GroupPoll.schema i) (group_poll now i) RGroupMessages
  | GroupAckDeleteReq i =>
      t_procedure (GroupAckDelete.schema i) (group_ackDelete now i) (λ _, ROk)
  end.

(** The server handling requests one after the other; every request comes
    with the clock reading during it. *)
Fixpoint serve (trace : list (Z * Request)) (db : Db) : list (TRPCError + Response) * Db :=
  match trace with
  | [] => ([], db)
  | (now, req) :: trace' =>
      let '(out, db') := appRouter now req db in
      let '(outs, db'') := serve trace' db' in
      (out :: outs, db'')
  end.

End router.

(** ** Notions the properties are stated with *)

(** A collation orders the keys of a list strictly: no two distinct keys
    compare equal, and on these keys the comparison is antisymmetric and
    transitive. [localeCompare] orders the identifier keys of the schemas
    strictly; it does not order all strings so, since it ignores some
    characters. *)
Record strict_on (cmp : string → string → comparison) (keys : list string) : Prop := {
  strict_eq : ∀ a b, a ∈ keys → b ∈ keys → cmp a b = Eq → a = b;
  strict_opp : ∀ a b, a ∈ keys → b ∈ keys → cmp b a = CompOpp (cmp a b);
  strict_trans :
    ∀ a b c, a ∈ keys → b ∈ keys → c ∈ keys → cmp a b = Lt → cmp b c = Lt → cmp a c = Lt }.

(** The same as a check to run on given keys. *)
Definition strict_onb (cmp : string → string → comparison) (keys : list string) : bool :=
  forallb
    (λ a,
       forallb
         (λ b,
            match cmp a b with
            | Eq => bool_decide (a = b)
            | _ => true
            end
            && bool_decide (cmp b a = CompOpp (cmp a b))
            && forallb
                 (λ c,
                    match cmp a b, cmp b c with
                    | Lt, Lt => bool_decide (cmp a c = Lt)
                    | _, _ => true
                    end)
                 keys)
         keys)
    keys.

(** Two collations order the keys of a list alike. *)
Definition agree_on (cmp1 cmp2 : string → string → comparison) (keys : list string) : Prop :=
  ∀ a b, a ∈ keys → b ∈ keys → cmp1 a b = cmp2 a b.

Definition agree_onb (cmp1 cmp2 : string → string → comparison) (keys : list string) : bool :=
  forallb (λ a, forallb (λ b, bool_decide (cmp1 a b = cmp2 a b)) keys) keys.

(** A property of the keys of every object of a JSON value, nested ones
    included. *)
Inductive each_object (P : list string → Prop) : json → Prop :=
  | each_prim p : each_object P (JPrim p)
  | each_arr items : Forall (each_object P) items → each_object P (JArr items)
  | each_obj entries :
      P entries.*1 → Forall (λ e, each_object P e.2) entries → each_object P (JObj entries).

(** Two JSON values are equal as maps: the same primitives, arrays equal
    position by position, objects with the same keys (each once) bound to
    values equal as maps, whatever the order of the keys. *)
Inductive same_map : json → json → Prop :=
  | same_prim p : same_map (JPrim p) (JPrim p)
  | same_arr items1 items2 :
      Forall2 same_map items1 items2 → same_map (JArr items1) (JArr items2)
  | same_obj entries1 entries2 reordered :
      NoDup entries1.*1 →
      entries2 ≡ₚ reordered →
      Forall2 (λ e1 e2, e1.1 = e2.1 ∧ same_map e1.2 e2.2) entries1 reordered →
      same_map (JObj entries1) (JObj entries2).

(** Entries ordered by key. *)
Definition key_le {V} (cmp : string → string → comparison) : relation (string * V) :=
  λ a b, cmp a.1 b.1 ≠ Gt.

(** Code-unit order on strings: a collation to run the canonicalizers with. *)
Definition codeUnitCompare (a b : string) : comparison := String.compare a b.


(** The procedure name, envelope and payload a request is signed over;
    [identity.getBundle] is the one procedure that takes no envelope. *)
Definition signed_request (req : Request) : option (string * AuthEnvelope.t * list (string * json)) :=
  match req with
  | IdentityRegisterBundleReq i =>
      Some ("identity.registerBundle", IdentityRegisterBundle.auth i, IdentityRegisterBundle.payload i)
  | IdentityGetBundleReq _ => None
  | MessageSendReq i => Some ("message.send", MessageSend.auth i, MessageSend.payload i)
  | MessagePollReq i => Some ("message.poll", MessagePoll.auth i, MessagePoll.payload i)
  | MessageAckDeleteReq i =>
      Some ("message.ackDelete", MessageAckDelete.auth i, MessageAckDelete.payload i)
  | GroupCreateReq i => Some ("group.create", GroupCreate.auth i, GroupCreate.payload i)
  | GroupAddMembersReq i =>
      Some ("group.addMembers", GroupAddMembers.auth i, GroupAddMembers.payload i)
  | GroupListMineReq i => Some ("group.listMine", GroupListMine.auth i, GroupListMine.payload i)
  | GroupGetMembersReq i =>
      Some ("group.getMembers", GroupGetMembers.auth i, GroupGetMembers.payload i)
  | GroupPostReq i => Some ("group.post", GroupPost.auth i, GroupPost.payload i)
  | GroupPollReq i => Some ("group.poll", GroupPoll.auth i, GroupPoll.payload i)
  | GroupAckDeleteReq i =>
      Some ("group.ackDelete", GroupAckDelete.auth i, GroupAckDelete.payload i)
  end.

(** The schema check tRPC runs on a request. *)
Definition schema_of (req : Request) : bool :=
  match req with
  | IdentityRegisterBundleReq i => IdentityRegisterBundle.schema i
  | IdentityGetBundleReq i => IdentityGetBundle.schema i
  | MessageSendReq i => MessageSend.schema i
  | MessagePollReq i => MessagePoll.schema i
  | MessageAckDeleteReq i => MessageAckDelete.schema i
  | GroupCreateReq i => GroupCreate.schema i
  | GroupAddMembersReq i => GroupAddMembers.schema i
  | GroupListMineReq i => GroupListMine.schema i
  | GroupGetMembersReq i => GroupGetMembers.schema i
  | GroupPostReq i => GroupPost.schema i
  | GroupPollReq i => GroupPoll.schema i
  | GroupAckDeleteReq i => GroupAckDelete.schema i
  end.

Section envelope.
Context `{Runtime}.

(** A valid envelope: [userId] is derived from the public key and the
    signature verifies over [procedure:nonce:hash] of the canonical payload. *)
Definition envelope_valid (procedure : string) (auth : AuthEnvelope.t)
    (payload : list (string * json)) : Prop :=
  deriveUserId (AuthEnvelope.identityPublicKey auth) = AuthEnvelope.userId auth
  ∧ ∃ canonical,
      Server.stableStringify localeCompare (JObj payload) = Some canonical
      ∧ nacl_sign_detached_verify
          (String.list_byte_of_string
             (signed_string procedure (AuthEnvelope.nonce auth)
                (sha256_base64url (String.list_byte_of_string canonical))))
          (decodeBase64Url (AuthEnvelope.signature auth))
          (decodeBase64Url (AuthEnvelope.identityPublicKey auth))
        = inr true.

(** The pair [(userId, nonce)] of an envelope is in the nonce table. *)
Definition nonce_used (auth : AuthEnvelope.t) (db : Db) : Prop :=
  is_Some (authNonces db !! (AuthEnvelope.userId auth, AuthEnvelope.nonce auth)).

Definition replayed : TRPCError := mkTRPCError UNAUTHORIZED "replayed request".

End envelope.

(** Nonce pairs are never taken out of the table. *)
Definition nonces_kept (db db' : Db) : Prop :=
  ∀ k, is_Some (authNonces db !! k) → is_Some (authNonces db' !! k).

(** A relation between the database before and after a computation. *)
Definition preserves {E A} (R : relation Db) (m : M E A) : Prop :=
  ∀ db, R db (m db).2.


(** The key ids of the one-time pre-keys of a user that have not been
    handed out, one entry per row of the pool. *)
Definition unused_keyIds (userId : string) (db : Db) : list Z :=
  omap Prekeys.oneTimePreKeyId
    (filter (λ r, Prekeys.userId r = userId ∧ Prekeys.isUsed r = false) (prekeys db)).

(** The key id of the one-time pre-key a request hands out for a user. *)
Definition served_keyId (userId : string) (req : Request) (out : TRPCError + Response)
    : option Z :=
  match req, out with
  | IdentityGetBundleReq i, inr (RBundle b) =>
      if bool_decide (IdentityGetBundle.userId i = userId)
      then PreKey.keyId <$> oneTimePreKey b
      else None
  | _, _ => None
  end.

Fixpoint served_keyIds (userId : string) (trace : list (Z * Request))
    (outs : list (TRPCError + Response)) : list Z :=
  match trace, outs with
  | (_, req) :: trace', out :: outs' =>
      match served_keyId userId req out with
      | Some keyId => keyId :: served_keyIds userId trace' outs'
      | None => served_keyIds userId trace' outs'
      end
  | _, _ => []
  end.

(** A request to register a bundle in the name of a user. *)
Definition registers (userId : string) (req : Request) : Prop :=
  match req with
  | IdentityRegisterBundleReq i =>
      AuthEnvelope.userId (IdentityRegisterBundle.auth i) = userId
  | _ => False
  end.

(** The pool of a user shrinks: its unused key ids after are among those before. *)
Definition pool_shrinks (userId : string) (db db' : Db) : Prop :=
  unused_keyIds userId db' ⊆+ unused_keyIds userId db.


(** ** Invariants of the database *)

(** What the schemas and the checks of the handlers maintain: queued
    messages carry a positive [createdAt]; group ids come from the sequence,
    which starts at 1; every membership row refers to a group and to a user. *)
Record db_ok (db : Db) : Prop := {
  ok_createdAt : Forall (λ r, 0 < MessageQueue.createdAt r) (messageQueue db);
  ok_groups_seq : 1 ≤ groups_id_seq db;
  ok_groupId : Forall (λ g, Groups.groupId g < groups_id_seq db) (groups db);
  ok_member_fk : ∀ k, is_Some (groupMembers db !! k) → Sql.member_fk_ok db k }.

Definition keeps_ok (db db' : Db) : Prop := db_ok db → db_ok db'.

Section reachable.
Context `{Runtime}.

(** The states the server can be in: those it reaches from the empty
    database by handling requests. *)
Definition reachable (db : Db) : Prop :=
  ∃ trace, db = (serve trace empty_db).2.

End reachable.


(** A queued message addressed to a user and, when a threshold is given,
    created strictly after it. *)
Definition addressed_after (userId : string) (since : option Z) (r : MessageQueue.row) : Prop :=
  MessageQueue.toUserId r = userId
  ∧ match since with
    | Some T => T < MessageQueue.createdAt r
    | None => True
    end.

#[global] Instance addressed_after_dec userId since r : Decision (addressed_after userId since r).
Proof. unfold addressed_after. destruct since; apply _. Defined.


(** ** Notions for the properties of the other procedures *)

Section accepted.
Context `{Runtime}.

(** An envelope that passes authentication on a database: it is valid and
    its pair has not been presented. *)
Definition authenticates (procedure : string) (auth : AuthEnvelope.t)
    (payload : list (string * json)) (db : Db) : Prop :=
  envelope_valid procedure auth payload
  ∧ authNonces db !! (AuthEnvelope.userId auth, AuthEnvelope.nonce auth) = None.

End accepted.

(** The database once authentication has recorded the pair of an envelope. *)
Definition record_nonce (now : Z) (auth : AuthEnvelope.t) (db : Db) : Db :=
  set_authNonces
    (<[(AuthEnvelope.userId auth, AuthEnvelope.nonce auth) := now]> (authNonces db)) db.

Section signed.
Context `{Runtime}.

(** The bytes the signature of an envelope is verified against. *)
Definition signed_message (procedure : string) (auth : AuthEnvelope.t)
    (payload : list (string * json)) : list byte :=
  String.list_byte_of_string
    (signed_string procedure (AuthEnvelope.nonce auth)
       (sha256_base64url
          (String.list_byte_of_string
             (default EmptyString (Server.stableStringify localeCompare (JObj payload)))))).

End signed.

(** The errors a computation can end with. *)
Definition raises {E A} (P : E → Prop) (m : M E A) : Prop :=
  ∀ db e db', m db = (inl e, db') → P e.

(** The group a request reads or posts to, for the three procedures that
    are open to the members of that group. *)
Definition group_scope (req : Request) : option Z :=
  match req with
  | GroupGetMembersReq i => Some (GroupGetMembers.groupId i)
  | GroupPostReq i => Some (GroupPost.groupId i)
  | GroupPollReq i => Some (GroupPoll.groupId i)
  | _ => None
  end.

Definition not_a_member : TRPCError := mkTRPCError FORBIDDEN "not a group member".

(** A queued group message of a group and, when a threshold is given,
    created strictly after it. *)
Definition posted_after (groupId : Z) (since : option Z) (r : GroupMessageQueue.row) : Prop :=
  GroupMessageQueue.groupId r = groupId
  ∧ match since with
    | Some T => T < GroupMessageQueue.createdAt r
    | None => True
    end.

#[global] Instance posted_after_dec groupId since r : Decision (posted_after groupId since r).
Proof. unfold posted_after. destruct since; apply _. Defined.

(** What no procedure takes back: users stay registered and keep their
    [createdAt]; groups, memberships (role included), group messages and
    nonce pairs stay as they are; the sequences do not go back. *)
Record grows (db db' : Db) : Prop := {
  grows_users :
    ∀ u r, users db !! u = Some r →
           ∃ r', users db' !! u = Some r' ∧ Users.createdAt r' = Users.createdAt r;
  grows_groups : groups db `prefix_of` groups db';
  grows_groupMembers : groupMembers db ⊆ groupMembers db';
  grows_groupMessageQueue : groupMessageQueue db `prefix_of` groupMessageQueue db';
  grows_authNonces : authNonces db ⊆ authNonces db';
  grows_prekeys_id_seq : prekeys_id_seq db ≤ prekeys_id_seq db';
  grows_messageQueue_id_seq : messageQueue_id_seq db ≤ messageQueue_id_seq db';
  grows_groups_id_seq : groups_id_seq db ≤ groups_id_seq db';
  grows_groupMessageQueue_id_seq : groupMessageQueue_id_seq db ≤ groupMessageQueue_id_seq db' }.

(** The rows of a table with a [serial] key: in ascending order of the
    key, which lies between 1 and the next value of the sequence. *)
Definition serial_ok {A} (key : A → Z) (rows : list A) (seq : Z) : Prop :=
  1 ≤ seq
  ∧ StronglySorted (λ a b, key a < key b) rows
  ∧ Forall (λ r, 1 ≤ key r < seq) rows.

Definition message_key (r : MessageQueue.row) : string * string * string :=
  (MessageQueue.toUserId r, MessageQueue.fromUserId r, MessageQueue.clientMsgId r).
Definition group_message_key (r : GroupMessageQueue.row) : Z * string * string :=
  (GroupMessageQueue.groupId r, GroupMessageQueue.fromUserId r, GroupMessageQueue.clientMsgId r).

(** The constraints of [schema.ts] on the stored rows: primary keys drawn
    from the sequences, the unique columns and unique indexes, the foreign
    keys; and what the schemas of the inputs make of the stored values. *)
Record constraints_ok (db : Db) : Prop := {
  ok_users_identityPublicKey :
    ∀ u v r s, users db !! u = Some r → users db !! v = Some s →
               Users.identityPublicKey r = Users.identityPublicKey s → u = v;
  ok_users_signalIdentityPublicKey :
    ∀ u v r s, users db !! u = Some r → users db !! v = Some s →
               Users.signalIdentityPublicKey r = Users.signalIdentityPublicKey s → u = v;
  ok_prekeys_id : serial_ok Prekeys.id (prekeys db) (prekeys_id_seq db);
  ok_prekeys_userId : Forall (λ r, is_Some (users db !! Prekeys.userId r)) (prekeys db);
  ok_prekeys_oneTime :
    Forall (λ r, is_Some (Prekeys.oneTimePreKeyId r) ∧ is_Some (Prekeys.oneTimePreKeyPublic r))
           (prekeys db);
  ok_messageQueue_id :
    serial_ok MessageQueue.queuedMsgId (messageQueue db) (messageQueue_id_seq db);
  ok_messageQueue_unique : NoDup (map message_key (messageQueue db));
  ok_messageQueue_users :
    Forall (λ r, is_Some (users db !! MessageQueue.toUserId r)
                 ∧ is_Some (users db !! MessageQueue.fromUserId r)) (messageQueue db);
  ok_groups_id : serial_ok Groups.groupId (groups db) (groups_id_seq db);
  ok_groups_createdBy :
    Forall (λ g, is_Some (users db !! Groups.createdByUserId g)) (groups db);
  ok_groupMessageQueue_id :
    serial_ok GroupMessageQueue.queuedMsgId (groupMessageQueue db) (groupMessageQueue_id_seq db);
  ok_groupMessageQueue_unique : NoDup (map group_message_key (groupMessageQueue db));
  ok_groupMessageQueue_fk :
    Forall (λ r, Exists (λ g, Groups.groupId g = GroupMessageQueue.groupId r) (groups db)
                 ∧ is_Some (users db !! GroupMessageQueue.fromUserId r)) (groupMessageQueue db);
  ok_groupMessageQueue_createdAt :
    Forall (λ r, 0 < GroupMessageQueue.createdAt r) (groupMessageQueue db) }.

Definition keeps_constraints (db db' : Db) : Prop := constraints_ok db → constraints_ok db'.

(** An id of [message_queue] that has been drawn from the sequence and
    whose row is gone. *)
Definition retired (queuedMsgId : Z) (db : Db) : Prop :=
  queuedMsgId < messageQueue_id_seq db
  ∧ Forall (λ r, MessageQueue.queuedMsgId r ≠ queuedMsgId) (messageQueue db).

Definition stays_retired (queuedMsgId : Z) (db db' : Db) : Prop :=
  retired queuedMsgId db → retired queuedMsgId db'.

(** The unused pre-key rows of a user, in the order of the table. *)
Definition unused_prekeys (userId : string) (db : Db) : list Prekeys.row :=
  filter (λ r, Prekeys.userId r = userId ∧ Prekeys.isUsed r = false) (prekeys db).

(** The bundle [identity.getBundle] returns for a user row and a pre-key row. *)
Definition bundle_of (identity : Users.row) (prekey : Prekeys.row) : Bundle :=
  mkBundle
    (Users.registrationId identity)
    (Users.signalIdentityPublicKey identity)
    (SignedPreKey.mk (Prekeys.signedPreKeyId prekey)
       (Prekeys.signedPreKeyPublic prekey) (Prekeys.signedPreKeySignature prekey))
    match Prekeys.oneTimePreKeyId prekey, Prekeys.oneTimePreKeyPublic prekey with
    | Some keyId, Some publicKey => Some (PreKey.mk keyId publicKey)
    | _, _ => None
    end.

(** Who holds which role: an owner row belongs to the user who created
    the group, no row is an admin row, and the creator of every group is
    in it as its owner. *)
Record roles_ok (db : Db) : Prop := {
  ok_owner :
    ∀ g u r, groupMembers db !! (g, u) = Some r →
             GroupMembers.role_of r = GroupMembers.owner →
             ∃ grp, grp ∈ groups db ∧ Groups.groupId grp = g ∧ Groups.createdByUserId grp = u;
  ok_no_admin :
    ∀ k r, groupMembers db !! k = Some r → GroupMembers.role_of r ≠ GroupMembers.admin;
  ok_creator :
    ∀ grp, grp ∈ groups db →
           ∃ r, groupMembers db !! (Groups.groupId grp, Groups.createdByUserId grp) = Some r
                ∧ GroupMembers.role_of r = GroupMembers.owner }.

(** The groups are the same and the member rows that are new have role [member]. *)
Definition members_added (db db' : Db) : Prop :=
  groups db' = groups db
  ∧ groupMembers db ⊆ groupMembers db'
  ∧ ∀ k r, groupMembers db' !! k = Some r →
           groupMembers db !! k = Some r ∨ GroupMembers.role_of r = GroupMembers.member.

(** The users are as they were. *)
Definition same_users (db db' : Db) : Prop := users db' = users db.

(** The group messages that are new come from members of their group. *)
Definition posted_by_members (db db' : Db) : Prop :=
  groupMembers db ⊆ groupMembers db'
  ∧ ∃ new,
      groupMessageQueue db' = groupMessageQueue db ++ new
      ∧ Forall (λ r, is_Some (groupMembers db' !! (GroupMessageQueue.groupId r,
                                                   GroupMessageQueue.fromUserId r))) new.

(** ** The client: [apps/web/lib/encoding.ts] and [apps/web/lib/crypto.ts] *)

Module Web.

(** Host capabilities of the page. A binary string, one character per
    byte, is a [string]. *)
Class Browser : Type := {
  (** [typeof window === "undefined"]. *)
  window_undefined : bool;
  (** [Buffer.from(bytes).toString("base64")]. *)
  Buffer_toString_base64 : list byte → string;
  (** [new Uint8Array(Buffer.from(value, "base64"))]. *)
  Buffer_from_base64 : string → list byte;
  (** [btoa(binary)]. *)
  btoa : string → string;
  (** [atob(value)]: the binary string, or the message of the error it
      throws on a malformed operand. *)
  atob : string → string + string;
  (** [a.localeCompare(b)] in the page's default locale. *)
  localeCompare : string → string → comparison;
  (** [crypto.subtle.digest("SHA-256", data)]. *)
  subtle_digest_SHA256 : list byte → list byte;
  (** [nacl.sign.detached(msg, secretKey)]: the signature, or the message
      of the error it throws on a key of the wrong size. *)
  nacl_sign_detached : list byte → list byte → string + list byte }.

(** [value.replace(/c/g, by)] for a pattern that is one character. *)
Fixpoint replace_char (c by_ : ascii) (value : string) : string :=
  match value with
  | EmptyString => EmptyString
  | String a rest => String (if Ascii.eqb a c then by_ else a) (replace_char c by_ rest)
  end.

(** [value.replace(/c+$/g, empty)]: the trailing run of [c] is dropped. *)
Fixpoint strip_trailing (c : ascii) (value : string) : string :=
  match value with
  | EmptyString => EmptyString
  | String a rest =>
      match strip_trailing c rest with
      | EmptyString => if Ascii.eqb a c then EmptyString else String a EmptyString
      | kept => String a kept
      end
  end.

(** [c.repeat(n)]. *)
Fixpoint repeat_char (c : ascii) (n : nat) : string :=
  match n with
  | O => EmptyString
  | S n' => String c (repeat_char c n')
  end.

Section encoding.
Context `{Browser}.

Definition toBase64 (bytes : list byte) : string :=
  if window_undefined then Buffer_toString_base64 bytes
  else btoa (String.string_of_list_byte bytes).

Definition fromBase64 (value : string) : string + list byte :=
  if window_undefined then inr (Buffer_from_base64 value)
  else
    match atob value with
    | inl e => inl e
    | inr binary => inr (String.list_byte_of_string binary)
    end.

Definition arrayBufferToBase64 (buffer : list byte) : string := toBase64 buffer.

Definition base64ToArrayBuffer (value : string) : string + list byte := fromBase64 value.

Definition encodeBase64Url (bytes : list byte) : string :=
  strip_trailing "=" (replace_char "/" "_" (replace_char "+" "-" (toBase64 bytes))).

Definition decodeBase64Url (value : string) : string + list byte :=
  let normalized := replace_char "_" "/" (replace_char "-" "+" value) in
  let padded :=
    normalized +:+ repeat_char "=" ((4 - String.length normalized mod 4) mod 4)%nat in
  fromBase64 padded.

End encoding.

(** The fields of [LocalIdentity] that authentication uses. *)
Record LocalIdentity : Type := mkLocalIdentity {
  userId : string;
  authIdentityPublicKey : string;
  authIdentitySecretKey : string }.

Section crypto.
Context `{Browser}.

Definition sha256 (bytes : list byte) : list byte := subtle_digest_SHA256 bytes.

Definition deriveUserId (identityPublicKey : string) : string + string :=
  match decodeBase64Url identityPublicKey with
  | inl e => inl e
  | inr bytes => inr (encodeBase64Url (sha256 bytes))
  end.

(** [new TextEncoder().encode(s)]; an argument that is [undefined] encodes
    as the empty string. *)
Definition TextEncoder_encode (s : option string) : list byte :=
  String.list_byte_of_string (default EmptyString s).

Definition signProcedure (procedure : string) (payload : list (string * json))
    (nonce : string) (identity : LocalIdentity) : string + string :=
  let payloadDigest :=
    subtle_digest_SHA256
      (TextEncoder_encode (Client.stableStringify localeCompare (JObj payload))) in
  let payloadHash := encodeBase64Url payloadDigest in
  let message := procedure +:+ ":" +:+ nonce +:+ ":" +:+ payloadHash in
  match decodeBase64Url (authIdentitySecretKey identity) with
  | inl e => inl e
  | inr secretKey =>
      match nacl_sign_detached (TextEncoder_encode (Some message)) secretKey with
      | inl e => inl e
      | inr signature => inr (encodeBase64Url signature)
      end
  end.

(** [makeAuth] of the messenger page; [nonce] is what [randomNonce()]
    returns during the call. *)
Definition makeAuth (identity : option LocalIdentity) (nonce : string)
    (procedure : string) (payload : list (string * json)) : string + AuthEnvelope.t :=
  match identity with
  | None => inl "identity not ready"
  | Some identity =>
      match signProcedure procedure payload nonce identity with
      | inl e => inl e
      | inr signature =>
          inr (AuthEnvelope.mk (userId identity) (authIdentityPublicKey identity)
                 nonce signature)
      end
  end.

End crypto.

(** The characters of standard base64 other than the padding. *)
Definition base64_class (c : ascii) : bool :=
  Zod.alnum c || Zod.is_char 43 c || Zod.is_char 47 c.

(** A base64 text in canonical form: characters of the alphabet, then at
    most three [=], four characters to the group. *)
Definition canonical_base64 (s : string) : bool :=
  let body := strip_trailing "=" s in
  Zod.all_chars base64_class body
  && (String.length s - String.length body <? 4)%nat
  && (String.length s mod 4 =? 0)%nat.

End Web.


(** ** Scenarios to run the handlers on *)

Module Scenario.

(** One payload written with two key orders, nested object included. *)
Definition payload_client : json :=
  JObj [("toUserId", JStr "bob-bob-"); ("createdAt", JNum 1700);
        ("meta", JObj [("y", JPrim (PBool true)); ("x", JArr [JNum 1; JPrim PNull])])].
Definition payload_server : json :=
  JObj [("meta", JObj [("x", JArr [JNum 1; JPrim PNull]); ("y", JPrim (PBool true))]);
        ("toUserId", JStr "bob-bob-"); ("createdAt", JNum 1700)].

(** A collation that ignores the control characters U+0001 to U+0008, as
    the one behind [localeCompare] does ([a] and [a] followed by U+0001
    compare equal), and orders what is left by code unit. *)
Fixpoint collation_key (s : string) : string :=
  match s with
  | EmptyString => EmptyString
  | String c s' =>
      if Zod.in_range 1 8 c then collation_key s' else String c (collation_key s')
  end.
Definition collate (a b : string) : comparison :=
  codeUnitCompare (collation_key a) (collation_key b).

(** One object written with two key orders; its two keys differ in a
    character the collation ignores. *)
Definition key_a : string := "a".
Definition key_a1 : string := "a" +:+ char 1.
Definition payload_a_a1 : json := JObj [(key_a, JNum 1); (key_a1, JNum 2)].
Definition payload_a1_a : json := JObj [(key_a1, JNum 2); (key_a, JNum 1)].

(** A stand-in for the host, to run the handlers with: byte strings are
    decoded as they are, the digest is the hexadecimal spelling of the
    data, and a signature is the hexadecimal spelling of the signed string
    followed by the public key. *)
Definition hex_of_bytes (bs : list byte) : string :=
  foldr (λ b acc, String (hex_digit (Byte.to_N b / 16))
                     (String (hex_digit (Byte.to_N b mod 16)) acc))
        EmptyString bs.

Definition host : Runtime := {|
  localeCompare := codeUnitCompare;
  decodeBase64Url := String.list_byte_of_string;
  sha256_base64url := hex_of_bytes;
  nacl_sign_detached_verify := λ msg sig publicKey,
    inr (String.eqb (String.string_of_list_byte sig)
           (hex_of_bytes msg +:+ String.string_of_list_byte publicKey)) |}.

(** What the client's [makeAuth] produces under [host]. *)
Definition makeAuth (identityPublicKey nonce procedure : string)
    (payload : list (string * json)) : AuthEnvelope.t :=
  let canonical := default EmptyString (Client.stableStringify codeUnitCompare (JObj payload)) in
  let payloadHash := hex_of_bytes (String.list_byte_of_string canonical) in
  let signed := signed_string procedure nonce payloadHash in
  AuthEnvelope.mk (hex_of_bytes (String.list_byte_of_string identityPublicKey))
    identityPublicKey nonce
    (hex_of_bytes (String.list_byte_of_string signed) +:+ identityPublicKey).

(** The envelope is left out of the payload it signs. *)
Definition no_auth : AuthEnvelope.t :=
  AuthEnvelope.mk EmptyString EmptyString EmptyString EmptyString.

Definition alice_key : string := "alicekey".
Definition alice : string := hex_of_bytes (String.list_byte_of_string alice_key).
Definition bob_key : string := "bobkey".
Definition bob : string := hex_of_bytes (String.list_byte_of_string bob_key).
Definition carol_key : string := "carolkey".
Definition carol : string := hex_of_bytes (String.list_byte_of_string carol_key).
Definition dave_key : string := "davekey".
Definition dave : string := hex_of_bytes (String.list_byte_of_string dave_key).

(** The inputs of the procedures, signed by the user who holds [key]. *)
Definition register (key nonce : string) (oneTimePreKeys : list PreKey.t) : Request :=
  let build auth :=
    IdentityRegisterBundle.mk auth ("signal" +:+ key) 42
      (SignedPreKey.mk 7 "signedPub" "signedSig") oneTimePreKeys in
  IdentityRegisterBundleReq
    (build (makeAuth key nonce "identity.registerBundle"
              (IdentityRegisterBundle.payload (build no_auth)))).

Definition get_bundle (userId : string) : Request :=
  IdentityGetBundleReq (IdentityGetBundle.mk userId).

Definition send_input (key nonce toUserId clientMsgId ciphertext : string) (createdAt : Z)
    : MessageSend.input :=
  let build auth := MessageSend.mk auth toUserId ciphertext "hdr" clientMsgId createdAt in
  build (makeAuth key nonce "message.send" (MessageSend.payload (build no_auth))).

Definition poll_input (key nonce : string) (since : option Z) : MessagePoll.input :=
  let build auth := MessagePoll.mk auth since in
  build (makeAuth key nonce "message.poll" (MessagePoll.payload (build no_auth))).

Definition ack_message_input (key nonce : string) (queuedMsgId : Z) : MessageAckDelete.input :=
  let build auth := MessageAckDelete.mk auth queuedMsgId in
  build (makeAuth key nonce "message.ackDelete" (MessageAckDelete.payload (build no_auth))).

Definition create_input (key nonce name : string) (memberUserIds : list string)
    : GroupCreate.input :=
  let build auth := GroupCreate.mk auth name memberUserIds in
  build (makeAuth key nonce "group.create" (GroupCreate.payload (build no_auth))).

Definition add_input (key nonce : string) (groupId : Z) (memberUserIds : list string)
    : GroupAddMembers.input :=
  let build auth := GroupAddMembers.mk auth groupId memberUserIds in
  build (makeAuth key nonce "group.addMembers" (GroupAddMembers.payload (build no_auth))).

Definition post_input (key nonce : string) (groupId : Z) (clientMsgId : string)
    : GroupPost.input :=
  let build auth := GroupPost.mk auth groupId "group-ciphertext" "hdr" clientMsgId 1800 in
  build (makeAuth key nonce "group.post" (GroupPost.payload (build no_auth))).

Definition ack_input (key nonce : string) (queuedMsgId : Z) : GroupAckDelete.input :=
  let build auth := GroupAckDelete.mk auth queuedMsgId in
  build (makeAuth key nonce "group.ackDelete" (GroupAckDelete.payload (build no_auth))).

(** Alice, Bob and Carol register, with one, two and one one-time pre-keys. *)
Definition registration : list (Z * Request) :=
  [(1000, register alice_key "nonce-register-a" [PreKey.mk 1 "otkA1"]);
   (1001, register bob_key "nonce-register-b" [PreKey.mk 1 "otkB1"; PreKey.mk 2 "otkB2"]);
   (1002, register carol_key "nonce-register-c" [PreKey.mk 1 "otkC1"])].
Definition registered : Db := (serve (H:=host) registration empty_db).2.

(** Dave registers two one-time pre-keys under one key id. *)
Definition registered_twice_5 : Db :=
  (serve (H:=host)
     [(1000, register dave_key "nonce-register-d" [PreKey.mk 5 "otkD1"; PreKey.mk 5 "otkD2"])]
     empty_db).2.
Definition fetches_of_dave : list (Z * Request) :=
  [(3000, get_bundle dave); (3001, get_bundle dave)].

(** Alice's single one-time pre-key is fetched. *)
Definition after_first_fetch : Db :=
  (appRouter (H:=host) 3000 (get_bundle alice) registered).2.

(** Bob's bundle is fetched three times, with a send in between. *)
Definition fetches_of_bob : list (Z * Request) :=
  [(3000, get_bundle bob);
   (3001, MessageSendReq (send_input alice_key "nonce-send-003" bob "msg-3" "ciphertext-3" 1700));
   (3002, get_bundle bob);
   (3003, get_bundle bob)].

(** Alice polls her queue. *)
Definition poll_of_alice : MessagePoll.input := poll_input alice_key "nonce-poll-0001" None.

(** Alice sends to Dave, who has not registered. *)
Definition send_to_dave : MessageSend.input :=
  send_input alice_key "nonce-send-000" dave "msg-0" "ciphertext-0" 1700.

(** Alice sends to Bob, and sends again under the same [clientMsgId]. *)
Definition first_send : MessageSend.input :=
  send_input alice_key "nonce-send-001" bob "msg-1" "ciphertext-1" 1700.
Definition retry_send : MessageSend.input :=
  send_input alice_key "nonce-send-002" bob "msg-1" "ciphertext-2" 1701.

(** Alice sends Bob two messages that carry the same [createdAt]. *)
Definition sends_to_bob : list (Z * Request) :=
  [(2000, MessageSendReq
            (send_input alice_key "nonce-send-010" bob "msg-1" "ciphertext-a" 1700));
   (2001, MessageSendReq
            (send_input alice_key "nonce-send-011" bob "msg-2" "ciphertext-b" 1700))].
Definition two_queued : Db := (serve (H:=host) (registration ++ sends_to_bob) empty_db).2.
Definition poll_of_bob : MessagePoll.input := poll_input bob_key "nonce-poll-0002" (Some 1000).

(** Alice creates a group with Bob and posts to it. *)
Definition group_setup : list (Z * Request) :=
  [(2100, GroupCreateReq (create_input alice_key "nonce-create-01" "team" [bob]));
   (2101, GroupPostReq (post_input alice_key "nonce-post-0001" 1 "gmsg-1"))].
Definition group_posted : Db := (serve (H:=host) (registration ++ group_setup) empty_db).2.

(** Bob, a member, acknowledges the row Alice posted. *)
Definition ack_of_bob : GroupAckDelete.input := ack_input bob_key "nonce-ack-00001" 1.

(** Alice creates another group, naming Bob twice and herself. *)
Definition create_of_alice : GroupCreate.input :=
  create_input alice_key "nonce-create-02" "friends" [bob; alice; bob].

(** Alice, the owner, adds Carol and Bob; Bob, a member, tries to add Carol. *)
Definition add_by_alice : GroupAddMembers.input :=
  add_input alice_key "nonce-add-00001" 1 [carol; bob].
Definition add_by_bob : GroupAddMembers.input :=
  add_input bob_key "nonce-add-00002" 1 [carol].

(** The inputs of the other procedures, signed by the user who holds [key]. *)
Definition register_input (key nonce signalKey : string) (oneTimePreKeys : list PreKey.t)
    : IdentityRegisterBundle.input :=
  let build auth :=
    IdentityRegisterBundle.mk auth signalKey 42
      (SignedPreKey.mk 7 "signedPub" "signedSig") oneTimePreKeys in
  build (makeAuth key nonce "identity.registerBundle"
           (IdentityRegisterBundle.payload (build no_auth))).

Definition group_poll_input (key nonce : string) (groupId : Z) (since : option Z)
    : GroupPoll.input :=
  let build auth := GroupPoll.mk auth groupId since in
  build (makeAuth key nonce "group.poll" (GroupPoll.payload (build no_auth))).

Definition members_input (key nonce : string) (groupId : Z) : GroupGetMembers.input :=
  let build auth := GroupGetMembers.mk auth groupId in
  build (makeAuth key nonce "group.getMembers" (GroupGetMembers.payload (build no_auth))).

Definition list_input (key nonce : string) : GroupListMine.input :=
  let build auth := GroupListMine.mk auth in
  build (makeAuth key nonce "group.listMine" (GroupListMine.payload (build no_auth))).

(** Alice's first send with another ciphertext under the signature of the first. *)
Definition tampered_send : MessageSend.input :=
  MessageSend.mk (MessageSend.auth first_send) bob "ciphertext-x" "hdr" "msg-1" 1700.

(** Alice polls, and presents the same request again. *)
Definition polled_once : Db :=
  (appRouter (H:=host) 4000 (MessagePollReq poll_of_alice) registered).2.

(** Bob acknowledges the first of his two messages; Alice sends a third. *)
Definition ack_by_bob : MessageAckDelete.input :=
  ack_message_input bob_key "nonce-ack-00002" 1.
Definition third_send : list (Z * Request) :=
  [(6000, MessageSendReq (send_input alice_key "nonce-send-020" bob "msg-3" "ciphertext-c" 1702))].

(** Dave registers once the others have; then with the Signal key of Alice. *)
Definition registration_of_dave : IdentityRegisterBundle.input :=
  register_input dave_key "nonce-register-d" "signaldavekey"
    [PreKey.mk 5 "otkD1"; PreKey.mk 6 "otkD2"].
Definition registration_with_taken_key : IdentityRegisterBundle.input :=
  register_input dave_key "nonce-register-e" "signalalicekey" [PreKey.mk 5 "otkD1"].

(** Bob registers again: with a registration id, and with a key id, one
    past the largest [integer]. *)
Definition register_again (key nonce signalKey : string) (registrationId : Z)
    (oneTimePreKeys : list PreKey.t) : IdentityRegisterBundle.input :=
  let build auth :=
    IdentityRegisterBundle.mk auth signalKey registrationId
      (SignedPreKey.mk 8 "signedPub2" "signedSig2") oneTimePreKeys in
  build (makeAuth key nonce "identity.registerBundle"
           (IdentityRegisterBundle.payload (build no_auth))).
Definition registration_with_wide_id : IdentityRegisterBundle.input :=
  register_again bob_key "nonce-register-f" "signalbobkey" 2147483648 [PreKey.mk 9 "otkB9"].
Definition registration_with_wide_keyId : IdentityRegisterBundle.input :=
  register_again bob_key "nonce-register-g" "signalbobkey" 43
    [PreKey.mk 9 "otkB9"; PreKey.mk 2147483648 "otkB10"].

(** Alice's group before anything is posted, and her post and its retry. *)
Definition group_created : Db :=
  (serve (H:=host)
     (registration
      ++ [(2100, GroupCreateReq (create_input alice_key "nonce-create-01" "team" [bob]))])
     empty_db).2.
Definition first_post : GroupPost.input := post_input alice_key "nonce-post-0001" 1 "gmsg-1".
Definition retry_post : GroupPost.input := post_input alice_key "nonce-post-0002" 1 "gmsg-1".

(** Bob, a member, and Carol, who is not, turn to group 1. *)
Definition group_poll_of_bob : GroupPoll.input :=
  group_poll_input bob_key "nonce-gpoll-001" 1 (Some 1000).
Definition group_poll_of_carol : GroupPoll.input :=
  group_poll_input carol_key "nonce-gpoll-002" 1 None.
Definition members_of_bob : GroupGetMembers.input := members_input bob_key "nonce-members-1" 1.
Definition list_of_bob : GroupListMine.input := list_input bob_key "nonce-list-0001".

(** *** A page and a server that share a base64 codec

    Standard base64 (RFC 4648) for [btoa], [atob] and [Buffer]; the digest
    and the signature are stand-ins: the digest of data is the data in
    reverse, a signature is the message followed by the key, and a key
    pair is a key taken twice. *)
Definition base64_alphabet : list ascii :=
  String.list_ascii_of_string "ABCDEFGHIJKLMNOPQRSTUVWXYZabcdefghijklmnopqrstuvwxyz0123456789+/".

Definition base64_digit (n : N) : ascii := nth (N.to_nat n) base64_alphabet "A"%char.

Fixpoint base64_encode (bytes : list byte) : string :=
  match bytes with
  | [] => EmptyString
  | [a] =>
      let n := Byte.to_N a in
      String (base64_digit (n / 4)) (String (base64_digit (n mod 4 * 16)) "==")
  | [a; b] =>
      let n := (Byte.to_N a * 256 + Byte.to_N b)%N in
      String (base64_digit (n / 1024))
        (String (base64_digit (n / 16 mod 64)) (String (base64_digit (n mod 16 * 4)) "="))
  | a :: b :: c :: rest =>
      let n := (Byte.to_N a * 65536 + Byte.to_N b * 256 + Byte.to_N c)%N in
      String (base64_digit (n / 262144))
        (String (base64_digit (n / 4096 mod 64))
           (String (base64_digit (n / 64 mod 64))
              (String (base64_digit (n mod 64)) (base64_encode rest))))
  end.

Definition base64_value (c : ascii) : option N :=
  N.of_nat <$> (fst <$> list_find (λ d, d = c) base64_alphabet).

Definition byte_of (n : N) : byte := default x00 (Byte.of_N (n mod 256)).

Fixpoint base64_decode_values (fuel : nat) (values : list N) : list byte :=
  match fuel, values with
  | S fuel', a :: b :: c :: d :: rest =>
      let n := (a * 262144 + b * 4096 + c * 64 + d)%N in
      byte_of (n / 65536) :: byte_of (n / 256) :: byte_of n :: base64_decode_values fuel' rest
  | _, [a; b; c] =>
      let n := (a * 4096 + b * 64 + c)%N in
      [byte_of (n / 1024); byte_of (n / 4)]
  | _, [a; b] => [byte_of ((a * 64 + b) / 16)]
  | _, _ => []
  end.

Definition base64_decode (value : string) : list byte :=
  let values := omap base64_value (String.list_ascii_of_string value) in
  base64_decode_values (length values) values.

Definition browser : Web.Browser := {|
  Web.window_undefined := false;
  Web.Buffer_toString_base64 := base64_encode;
  Web.Buffer_from_base64 := base64_decode;
  Web.btoa := λ binary, base64_encode (String.list_byte_of_string binary);
  Web.atob := λ value, inr (String.string_of_list_byte (base64_decode value));
  Web.localeCompare := codeUnitCompare;
  Web.subtle_digest_SHA256 := λ data, rev data;
  Web.nacl_sign_detached := λ msg secretKey, inr (msg ++ secretKey) |}.

Definition node : Runtime := {|
  localeCompare := codeUnitCompare;
  decodeBase64Url := λ value,
    match Web.decodeBase64Url (H:=browser) value with
    | inl _ => []
    | inr bytes => bytes
    end;
  sha256_base64url := λ data, Web.encodeBase64Url (H:=browser) (rev data);
  nacl_sign_detached_verify := λ msg sig publicKey,
    inr (String.eqb (String.string_of_list_byte sig)
           (String.string_of_list_byte (msg ++ publicKey))) |}.

(** Bytes whose base64 text has a [+], a [/] and padding. *)
Definition some_bytes : list byte := [xfb; xff; x3e; x41].

(** An identity of the page: the key, and the user id the server derives from it. *)
Definition erin_key : string := Web.encodeBase64Url (H:=browser) [x65; x72; x69; x6e; xfb; xff].
Definition erin : Web.LocalIdentity :=
  Web.mkLocalIdentity (deriveUserId (H:=node) erin_key) erin_key erin_key.


End Scenario.

(** * Properties *)

(** ** Canonical serialization *)

Section canonical.
Context {V : Type} (cmp : string → string → comparison).

Lemma sort_insert_perm (e : string * V) l : sort_insert cmp e l ≡ₚ e :: l.
Proof.
  induction l as [|e' l IH]; simpl; [done|].
  destruct (cmp e.1 e'.1); try done.
  by rewrite IH, Permutation_swap.
Qed.

Lemma sort_perm (l : list (string * V)) : sort cmp l ≡ₚ l.
Proof.
  induction l as [|e l IH]; simpl; [done|].
  by rewrite sort_insert_perm, IH.
Qed.

Lemma strict_onb_correct keys : strict_onb cmp keys = true → strict_on cmp keys.
Proof.
  unfold strict_onb. rewrite forallb_forall. intros Hb.
  assert (∀ a b, a ∈ keys → b ∈ keys →
                 (cmp a b = Eq → a = b)
                 ∧ cmp b a = CompOpp (cmp a b)
                 ∧ ∀ c, c ∈ keys → cmp a b = Lt → cmp b c = Lt → cmp a c = Lt) as Hall.
  { intros a b Ha Hb'. apply list_elem_of_In in Ha, Hb'.
    specialize (Hb a Ha). rewrite forallb_forall in Hb. specialize (Hb b Hb').
    apply andb_true_iff in Hb as [Hb Htrans]. apply andb_true_iff in Hb as [Heq Hopp].
    split; [|split].
    - intros E. rewrite E in Heq. by apply bool_decide_eq_true in Heq.
    - by apply bool_decide_eq_true in Hopp.
    - intros c Hc Eab Ebc. apply list_elem_of_In in Hc.
      rewrite forallb_forall in Htrans. specialize (Htrans c Hc).
      rewrite Eab, Ebc in Htrans. by apply bool_decide_eq_true in Htrans. }
  split.
  - intros a b Ha Hb'. by apply Hall.
  - intros a b Ha Hb'. by apply Hall.
  - intros a b c Ha Hb' Hc. by apply (Hall a b Ha Hb').
Qed.

Section strict.
Context (keys : list string) (Hcmp : strict_on cmp keys).

Lemma key_le_trans_on (a b c : string * V) :
  a.1 ∈ keys → b.1 ∈ keys → c.1 ∈ keys →
  key_le cmp a b → key_le cmp b c → key_le cmp a c.
Proof.
  unfold key_le. intros Ha Hb Hc Hab Hbc.
  destruct (cmp a.1 b.1) eqn:Eab; [| |done].
  - apply (strict_eq _ _ Hcmp) in Eab; [|done..]. by rewrite Eab.
  - destruct (cmp b.1 c.1) eqn:Ebc; [| |done].
    + apply (strict_eq _ _ Hcmp) in Ebc; [|done..]. rewrite <- Ebc, Eab. done.
    + rewrite (strict_trans _ _ Hcmp _ _ _ Ha Hb Hc Eab Ebc). done.
Qed.

Lemma sort_insert_sorted (e : string * V) l :
  e.1 ∈ keys → Forall (λ x, x.1 ∈ keys) l →
  StronglySorted (key_le cmp) l → StronglySorted (key_le cmp) (sort_insert cmp e l).
Proof.
  intros He Hl Hs. induction Hs as [|e' l Hs IH Hall]; simpl.
  { by repeat constructor. }
  apply Forall_cons in Hl as [He' Hl].
  assert (key_le cmp e e' →
          StronglySorted (key_le cmp) (e :: e' :: l)) as Hfront.
  { intros Hee'. constructor; [by constructor|]. constructor; [done|].
    rewrite Forall_forall in Hall, Hl |- *. intros x Hx.
    apply (key_le_trans_on e e' x); auto. }
  destruct (cmp e.1 e'.1) eqn:E.
  - apply Hfront. unfold key_le. by rewrite E.
  - apply Hfront. unfold key_le. by rewrite E.
  - constructor; [by apply IH|].
    rewrite sort_insert_perm. constructor; [|done].
    unfold key_le. rewrite (strict_opp _ _ Hcmp) by done. by rewrite E.
Qed.

Lemma sort_sorted (l : list (string * V)) :
  Forall (λ x, x.1 ∈ keys) l → StronglySorted (key_le cmp) (sort cmp l).
Proof.
  induction l as [|e l IH]; simpl; [constructor|].
  intros Hl. apply Forall_cons in Hl as [He Hl].
  apply sort_insert_sorted; [done|by rewrite sort_perm|by apply IH].
Qed.

End strict.

Lemma NoDup_fst_agree (l : list (string * V)) k v1 v2 :
  NoDup l.*1 → (k, v1) ∈ l → (k, v2) ∈ l → v1 = v2.
Proof.
  induction l as [|[k' v'] l IH]; simpl; intros Hnd H1 H2.
  { by apply elem_of_nil in H1. }
  apply NoDup_cons in Hnd as [Hk Hnd].
  apply elem_of_cons in H1 as [H1|H1], H2 as [H2|H2]; simplify_eq; try done.
  - exfalso. apply Hk. apply list_elem_of_fmap. by exists (k', v2).
  - exfalso. apply Hk. apply list_elem_of_fmap. by exists (k', v1).
  - by apply IH.
Qed.

(** Sorting forgets the order the entries came in, when the collation
    orders their keys strictly. *)
Lemma sort_unique (l1 l2 : list (string * V)) :
  strict_on cmp l1.*1 → NoDup l1.*1 → l1 ≡ₚ l2 → sort cmp l1 = sort cmp l2.
Proof.
  intros Hcmp Hnd Hp.
  assert (∀ x, x ∈ l1 → x.1 ∈ l1.*1) as Hkey.
  { intros x Hx. apply list_elem_of_fmap. by exists x. }
  apply (StronglySorted_unique_strong (key_le cmp)).
  - intros [k1 v1] [k2 v2] H1 H2 H12 H21.
    rewrite sort_perm in H1. rewrite sort_perm, <- Hp in H2.
    pose proof (Hkey _ H1) as Hk1. pose proof (Hkey _ H2) as Hk2.
    unfold key_le in *; simpl in *.
    rewrite (strict_opp _ _ Hcmp k1 k2 Hk1 Hk2) in H21.
    destruct (cmp k1 k2) eqn:E; simpl in *; try done.
    apply (strict_eq _ _ Hcmp) in E as ->; [|done..].
    f_equal. by eapply NoDup_fst_agree.
  - apply (sort_sorted l1.*1 Hcmp). by apply Forall_forall.
  - apply (sort_sorted l1.*1 Hcmp). rewrite <- Hp. by apply Forall_forall.
  - by rewrite !sort_perm.
Qed.

End canonical.

Lemma agree_onb_correct (cmp1 cmp2 : string → string → comparison) keys :
  agree_onb cmp1 cmp2 keys = true → agree_on cmp1 cmp2 keys.
Proof.
  unfold agree_onb. rewrite forallb_forall. intros Hb a b Ha Hb'.
  apply list_elem_of_In in Ha, Hb'. specialize (Hb a Ha).
  rewrite forallb_forall in Hb. specialize (Hb b Hb'). by apply bool_decide_eq_true in Hb.
Qed.

Lemma sort_ext {V} (cmp1 cmp2 : string → string → comparison) (l : list (string * V)) :
  agree_on cmp1 cmp2 l.*1 → sort cmp1 l = sort cmp2 l.
Proof.
  intros E. induction l as [|e l IH]; simpl; [done|].
  rewrite IH.
  2: { intros a b Ha Hb. apply E; rewrite fmap_cons; by right. }
  assert (Forall (λ x, cmp1 e.1 x.1 = cmp2 e.1 x.1) (sort cmp2 l)) as Hs.
  { rewrite sort_perm. apply Forall_forall. intros x Hx. apply E; rewrite fmap_cons.
    - by left.
    - right. apply list_elem_of_fmap. by exists x. }
  revert Hs. generalize (sort cmp2 l). intros s Hs.
  induction Hs as [|e' s He' _ IHs]; simpl; [done|]. by rewrite He', IHs.
Qed.

Lemma each_object_all (P : list string → Prop) (input : json) :
  (∀ keys, P keys) → each_object P input.
Proof.
  intros HP. induction input as [p|items IH|entries IH] using json_ind'; by constructor.
Qed.

Lemma fst_rendered (f : json → option string) (entries : list (string * json)) :
  (map (λ e, (e.1, f e.2)) entries).*1 = entries.*1.
Proof. induction entries as [|e l IH]; [done|]. cbn [map]. by rewrite !fmap_cons, IH. Qed.

(** The two copies of the canonicalizer compute the same string when their
    hosts order the keys of every object alike. *)
Lemma client_server_agree_on (cmpC cmpS : string → string → comparison) (input : json) :
  each_object (agree_on cmpC cmpS) input →
  Client.stableStringify cmpC input = Server.stableStringify cmpS input.
Proof.
  induction input as [p|items IH|entries IH] using json_ind'; intros Hin;
    inversion Hin as [|? Hitems|? Hkeys Hentries]; subst; simpl; [done| |].
  - replace (map (λ item, join_item (Client.stableStringify cmpC item)) items)
      with (map (λ item, join_item (Server.stableStringify cmpS item)) items); [done|].
    clear Hin. induction IH as [|x l Hx _ IHl]; simpl; [done|].
    apply Forall_cons in Hitems as [Hx' Hl]. by rewrite (Hx Hx'), (IHl Hl).
  - replace (map (λ e, (e.1, Client.stableStringify cmpC e.2)) entries)
      with (map (λ e, (e.1, Server.stableStringify cmpS e.2)) entries).
    + rewrite (sort_ext cmpC cmpS); [done|]. by rewrite fst_rendered.
    + clear Hkeys Hin. induction IH as [|x l Hx _ IHl]; simpl; [done|].
      apply Forall_cons in Hentries as [Hx' Hl]. by rewrite (Hx Hx'), (IHl Hl).
Qed.

Lemma client_server_agree (cmpC cmpS : string → string → comparison) (input : json) :
  (∀ x y, cmpC x y = cmpS x y) →
  Client.stableStringify cmpC input = Server.stableStringify cmpS input.
Proof.
  intros E. apply client_server_agree_on, each_object_all. intros keys a b _ _. apply E.
Qed.

(** The equation of the object case in the order the source computes it:
    sort the entries by key, then render each. *)
Lemma stableStringify_object (cmp : string → string → comparison) entries :
  Server.stableStringify cmp (JObj entries)
  = Some ("{" +:+
          join "," (map (λ e, template (JSON_stringify (PStr e.1)) +:+ ":"
                              +:+ template (Server.stableStringify cmp e.2))
                      (sort cmp entries))
          +:+ "}").
Proof.
  simpl.
  assert (∀ (f : json → option string) (l : list (string * json)),
            sort cmp (map (λ e, (e.1, f e.2)) l) = map (λ e, (e.1, f e.2)) (sort cmp l)) as Hc.
  { intros f l. induction l as [|e l IH]; simpl; [done|]. rewrite IH.
    generalize (sort cmp l). intros s.
    induction s as [|e' s IHs]; simpl; [done|].
    destruct (cmp e.1 e'.1); simpl; try done. by rewrite IHs. }
  rewrite Hc, map_map. done.
Qed.

Lemma server_key_order_independent (cmp : string → string → comparison) (a b : json) :
  each_object (strict_on cmp) a → same_map a b →
  Server.stableStringify cmp a = Server.stableStringify cmp b.
Proof.
  revert b.
  induction a as [p|items IH|entries IH] using json_ind'; intros b Ha Hab;
    inversion Hab; subst; inversion Ha as [|? Hitems|? Hkeys Hentries]; subst.
  - done.
  - simpl.
    enough (map (λ item, join_item (Server.stableStringify cmp item)) items
            = map (λ item, join_item (Server.stableStringify cmp item)) items2) as -> by done.
    match goal with H : Forall2 _ _ _ |- _ =>
      clear - IH Hitems H; revert IH Hitems; induction H as [|x y l l' Hxy _ IHl] end.
    + done.
    + intros IH Hitems. apply Forall_cons in IH as [Hx IH].
      apply Forall_cons in Hitems as [Hx' Hitems]. simpl.
      rewrite (Hx _ Hx' Hxy), (IHl IH Hitems). done.
  - simpl.
    enough (sort cmp (map (λ e, (e.1, Server.stableStringify cmp e.2)) entries)
            = sort cmp (map (λ e, (e.1, Server.stableStringify cmp e.2)) entries2)) as -> by done.
    set (f := λ e : string * json, (e.1, Server.stableStringify cmp e.2)).
    assert (map f entries = map f reordered) as Hmap.
    { match goal with H : Forall2 _ _ _ |- _ => clear - IH Hentries H; revert IH Hentries;
        induction H as [|x y l l' [Hk Hv] _ IHl] end; [done|].
      intros IH Hentries. apply Forall_cons in IH as [Hx IH].
      apply Forall_cons in Hentries as [Hx' Hentries]. simpl.
      rewrite (IHl IH Hentries). unfold f at 1 3. rewrite Hk, (Hx _ Hx' Hv). done. }
    apply sort_unique.
    + unfold f. by rewrite fst_rendered.
    + unfold f. by rewrite fst_rendered.
    + rewrite Hmap. apply Permutation_map. by symmetry.
Qed.

(** C1, amended. Canonical serialization is independent of key order and
    the same on both sides for the payloads whose keys the collation
    orders strictly: when in every object of a payload, nested ones
    included, no two distinct keys compare equal (and the comparison is
    antisymmetric and transitive on them), a payload that is equal to it
    as a map serializes to the same string on the server; and the client's
    canonicalizer yields that very string when its collation orders the
    keys of every object as the server's does. *)
Theorem stableStringify_canonical (cmpS cmpC : string → string → comparison) (a b : json) :
  each_object (strict_on cmpS) a →
  each_object (agree_on cmpC cmpS) a →
  same_map a b →
  Server.stableStringify cmpS a = Server.stableStringify cmpS b
  ∧ Client.stableStringify cmpC a = Server.stableStringify cmpS b.
Proof.
  intros Hcmp Hagree Hab. split.
  - by apply server_key_order_independent.
  - rewrite (client_server_agree_on cmpC cmpS a Hagree).
    by apply server_key_order_independent.
Qed.

(** C1 as stated fails: a collation that takes two distinct keys of an
    object for equal leaves them in the order they came in, since the sort
    is stable. Under a collation that ignores U+0001, as [localeCompare]
    does, the object with the keys [a] and [a] followed by U+0001
    serializes in two ways, one for each order of its keys. *)
Lemma stableStringify_canonical_counterexample :
  same_map Scenario.payload_a_a1 Scenario.payload_a1_a
  ∧ Scenario.key_a ≠ Scenario.key_a1
  ∧ Scenario.collate Scenario.key_a Scenario.key_a1 = Eq
  ∧ Server.stableStringify Scenario.collate Scenario.payload_a_a1
    = Some ("{" +:+ dquote +:+ "a" +:+ dquote +:+ ":1," +:+
            dquote +:+ "a" +:+ bslash +:+ "u0001" +:+ dquote +:+ ":2}")
  ∧ Server.stableStringify Scenario.collate Scenario.payload_a1_a
    = Some ("{" +:+ dquote +:+ "a" +:+ bslash +:+ "u0001" +:+ dquote +:+ ":2," +:+
            dquote +:+ "a" +:+ dquote +:+ ":1}")
  ∧ Server.stableStringify Scenario.collate Scenario.payload_a_a1
    ≠ Server.stableStringify Scenario.collate Scenario.payload_a1_a.
Proof.
  split.
  { eapply (same_obj _ _ [(Scenario.key_a, JNum 1); (Scenario.key_a1, JNum 2)]).
    - by apply (bool_decide_unpack _).
    - apply Permutation_swap.
    - repeat constructor. }
  split; [by apply (bool_decide_unpack _)|].
  repeat split; try (vm_compute; reflexivity).
  vm_compute. discriminate.
Qed.

Lemma example_payloads_same_map : same_map Scenario.payload_client Scenario.payload_server.
Proof.
  eapply (same_obj _ _
            [("toUserId", JStr "bob-bob-"); ("createdAt", JNum 1700);
             ("meta", JObj [("x", JArr [JNum 1; JPrim PNull]); ("y", JPrim (PBool true))])]).
  - by apply (bool_decide_unpack _).
  - unfold Scenario.payload_server. apply Permutation_cons_append.
  - repeat constructor; simpl.
    eapply (same_obj _ _ [("y", JPrim (PBool true)); ("x", JArr [JNum 1; JPrim PNull])]).
    + by apply (bool_decide_unpack _).
    + apply Permutation_swap.
    + repeat constructor.
Qed.

(** The keys of the example payload are ordered strictly by the collation
    that ignores control characters, and as the code-unit order does. *)
Lemma example_payload_keys (P : list string → Prop) :
  P ["toUserId"; "createdAt"; "meta"] → P ["y"; "x"] →
  each_object P Scenario.payload_client.
Proof.
  intros Houter Hinner. apply each_obj; [done|].
  apply Forall_cons; split; [apply each_prim|].
  apply Forall_cons; split; [apply each_prim|].
  apply Forall_cons; split; [|apply Forall_nil_2].
  apply each_obj; [done|]. repeat constructor.
Qed.

Lemma stableStringify_canonical_witness :
  Server.stableStringify Scenario.collate Scenario.payload_client
  = Server.stableStringify Scenario.collate Scenario.payload_server
  ∧ Client.stableStringify codeUnitCompare Scenario.payload_client
    = Server.stableStringify Scenario.collate Scenario.payload_server.
Proof.
  apply (stableStringify_canonical Scenario.collate codeUnitCompare
           Scenario.payload_client Scenario.payload_server).
  - apply example_payload_keys; apply strict_onb_correct; vm_compute; reflexivity.
  - apply example_payload_keys; apply agree_onb_correct; vm_compute; reflexivity.
  - apply example_payloads_same_map.
Defined.

Example stableStringify_poll_payload :
  Server.stableStringify codeUnitCompare
    (JObj [("since", JPrim PUndefined); ("groupId", JNum 7)])
  = Some ("{" +:+ dquote +:+ "groupId" +:+ dquote +:+ ":7," +:+
          dquote +:+ "since" +:+ dquote +:+ ":undefined}").
Proof. vm_compute. reflexivity. Qed.

(** ** Reasoning about handlers *)

Section monad.
Context {E : Type}.

Lemma bind_inr {A B} (m : M E A) (k : A → M E B) db a db' :
  m db = (inr a, db') → bind m k db = k a db'.
Proof. unfold bind. by intros ->. Qed.

Lemma bind_inl {A B} (m : M E A) (k : A → M E B) db e db' :
  m db = (inl e, db') → bind m k db = (inl e, db').
Proof. unfold bind. by intros ->. Qed.

Context (R : relation Db) `{!PreOrder R}.

Lemma preserves_ret {A} (a : A) : preserves R (ret (E:=E) a).
Proof. intros db. simpl. reflexivity. Qed.

Lemma preserves_throw {A} (e : E) : preserves R (throw (A:=A) e).
Proof. intros db. simpl. reflexivity. Qed.

Lemma preserves_query {A} (f : Db → A) : preserves R (query (E:=E) f).
Proof. intros db. simpl. reflexivity. Qed.

Lemma preserves_bind {A B} (m : M E A) (k : A → M E B) :
  preserves R m → (∀ a, preserves R (k a)) → preserves R (bind m k).
Proof.
  intros Hm Hk db. unfold bind. specialize (Hm db).
  destruct (m db) as [[e|a] db']; simpl in *; [done|].
  etrans; [done|]. apply Hk.
Qed.

Lemma preserves_try_catch {E' A} (m : M E' A) (h : E' → M E A) :
  preserves R m → (∀ e, preserves R (h e)) → preserves R (try_catch m h).
Proof.
  intros Hm Hh db. unfold try_catch. specialize (Hm db).
  destruct (m db) as [[e|a] db']; simpl in *; [|done].
  etrans; [done|]. apply Hh.
Qed.

End monad.

Lemma preserves_uncaught (R : relation Db) {A} (m : M string A) :
  preserves R m → preserves R (uncaught m).
Proof.
  intros Hm db. unfold uncaught. specialize (Hm db).
  by destruct (m db) as [[e|a] db'].
Qed.

Lemma preserves_exec (R : relation Db) `{!Reflexive R} (f : Db → string + Db) :
  (∀ db db', f db = inr db' → R db db') → preserves R (exec f).
Proof.
  intros Hf db. unfold exec. destruct (f db) as [e|db'] eqn:Ef; simpl; [done|].
  by apply Hf.
Qed.

#[local] Instance nonces_kept_preorder : PreOrder nonces_kept.
Proof. split; unfold nonces_kept; [by intros ?|]. intros x y z Hxy Hyz k Hk. auto. Qed.

(** Steps through a handler, leaving the statements it runs. *)
Ltac frame_step :=
  lazymatch goal with
  | |- preserves _ (ret _) => apply preserves_ret; try apply _
  | |- preserves _ (throw _) => apply preserves_throw; try apply _
  | |- preserves _ (unauthorized _) => apply preserves_throw; try apply _
  | |- preserves _ (badRequest _) => apply preserves_throw; try apply _
  | |- preserves _ (forbidden _) => apply preserves_throw; try apply _
  | |- preserves _ (query _) => apply preserves_query; try apply _
  | |- preserves _ (bind _ _) => apply preserves_bind; [try apply _| |intros ?]
  | |- preserves _ (uncaught _) => apply preserves_uncaught
  | |- preserves _ (try_catch _ _) => apply preserves_try_catch; [try apply _| |intros ?]
  | |- preserves _ (match ?x with _ => _ end) => destruct x
  end.
Ltac frame := repeat frame_step.

(** Opens the handler a request is routed to. *)
Ltac unfold_handlers :=
  unfold t_procedure, identity_registerBundle, identity_getBundle, message_send,
    message_poll, message_ackDelete, group_create, group_addMembers, group_listMine,
    group_getMembers, group_post, group_poll, group_ackDelete;
  cbv zeta.

(** ** Authentication *)

Section authentication.
Context `{Runtime}.

Lemma insert_authNonces_inr nonce userId now db db' :
  insert_authNonces nonce userId now db = inr db' →
  authNonces db !! (userId, nonce) = None
  ∧ db' = set_authNonces (<[(userId, nonce) := now]> (authNonces db)) db.
Proof.
  unfold insert_authNonces. destruct (authNonces db !! _); [done|]. by intros [= <-].
Qed.

(** A valid envelope with a pair not seen before authenticates and records
    the pair. *)
Lemma assertAuthenticated_fresh now procedure auth payload db :
  envelope_valid procedure auth payload →
  authNonces db !! (AuthEnvelope.userId auth, AuthEnvelope.nonce auth) = None →
  assertAuthenticated now procedure auth payload db
  = (inr (AuthEnvelope.userId auth),
     set_authNonces
       (<[(AuthEnvelope.userId auth, AuthEnvelope.nonce auth) := now]> (authNonces db)) db).
Proof.
  intros [Hid (canonical & Hc & Hv)] Hfresh. unfold assertAuthenticated.
  rewrite Hid, String.eqb_refl. cbn [negb]. rewrite Hc, Hv. cbn [negb].
  unfold bind, try_catch, exec, insert_authNonces. by rewrite Hfresh.
Qed.

(** A valid envelope with a pair seen before is a replay; nothing is written. *)
Lemma assertAuthenticated_replay now procedure auth payload db :
  envelope_valid procedure auth payload →
  nonce_used auth db →
  assertAuthenticated now procedure auth payload db = (inl "replayed request", db).
Proof.
  intros [Hid (canonical & Hc & Hv)] [t Hused]. unfold assertAuthenticated.
  rewrite Hid, String.eqb_refl. cbn [negb]. rewrite Hc, Hv. cbn [negb].
  unfold bind, try_catch, exec, insert_authNonces. by rewrite Hused.
Qed.

(** Whatever the envelope, a failed authentication writes nothing and a
    successful one was a valid envelope with a fresh pair. *)
Lemma assertAuthenticated_inv now procedure auth payload db out db' :
  assertAuthenticated now procedure auth payload db = (out, db') →
  match out with
  | inl _ => db' = db
  | inr userId =>
      userId = AuthEnvelope.userId auth
      ∧ envelope_valid procedure auth payload
      ∧ authNonces db !! (AuthEnvelope.userId auth, AuthEnvelope.nonce auth) = None
      ∧ db' = set_authNonces
                (<[(AuthEnvelope.userId auth, AuthEnvelope.nonce auth) := now]> (authNonces db)) db
  end.
Proof.
  unfold assertAuthenticated, envelope_valid.
  destruct (String.eqb _ _) eqn:Eid; cbn [negb]; [|by intros [= <- <-]].
  apply String.eqb_eq in Eid.
  destruct (Server.stableStringify _ _) as [canonical|] eqn:Ec; [|by intros [= <- <-]].
  destruct (nacl_sign_detached_verify _ _ _) as [e|[]] eqn:Ev; cbn [negb];
    [by intros [= <- <-]| |by intros [= <- <-]].
  unfold bind, try_catch, exec.
  destruct (insert_authNonces _ _ _ _) as [e|db1] eqn:Ei; simpl; [by intros [= <- <-]|].
  intros [= <- <-]. apply insert_authNonces_inr in Ei as [Hfresh ->].
  repeat split; eauto.
Qed.

Lemma requireAuth_fresh now procedure auth payload db :
  envelope_valid procedure auth payload →
  authNonces db !! (AuthEnvelope.userId auth, AuthEnvelope.nonce auth) = None →
  requireAuth now procedure auth payload db
  = (inr (AuthEnvelope.userId auth),
     set_authNonces
       (<[(AuthEnvelope.userId auth, AuthEnvelope.nonce auth) := now]> (authNonces db)) db).
Proof.
  intros Hv Hf. unfold requireAuth, try_catch.
  by rewrite (assertAuthenticated_fresh _ _ _ _ _ Hv Hf).
Qed.

Lemma requireAuth_replay now procedure auth payload db :
  envelope_valid procedure auth payload →
  nonce_used auth db →
  requireAuth now procedure auth payload db = (inl replayed, db).
Proof.
  intros Hv Hu. unfold requireAuth, try_catch.
  by rewrite (assertAuthenticated_replay _ _ _ _ _ Hv Hu).
Qed.

Lemma requireAuth_inv now procedure auth payload db out db' :
  requireAuth now procedure auth payload db = (out, db') →
  match out with
  | inl e => code e = UNAUTHORIZED ∧ db' = db
  | inr userId =>
      userId = AuthEnvelope.userId auth
      ∧ envelope_valid procedure auth payload
      ∧ authNonces db !! (AuthEnvelope.userId auth, AuthEnvelope.nonce auth) = None
      ∧ db' = set_authNonces
                (<[(AuthEnvelope.userId auth, AuthEnvelope.nonce auth) := now]> (authNonces db)) db
  end.
Proof.
  unfold requireAuth, try_catch.
  destruct (assertAuthenticated _ _ _ _ _) as [[e|u] db1] eqn:Ea;
    apply assertAuthenticated_inv in Ea; intros [= <- <-]; simpl; [by subst|done].
Qed.

Lemma preserves_requireAuth now procedure auth payload :
  preserves nonces_kept (requireAuth now procedure auth payload).
Proof.
  intros db. destruct (requireAuth _ _ _ _ db) as [[e|u] db'] eqn:Er;
    apply requireAuth_inv in Er; simpl.
  - destruct Er as [_ ->]. reflexivity.
  - destruct Er as (_ & _ & Hf & ->). intros k Hk. simpl.
    destruct (decide (k = (AuthEnvelope.userId auth, AuthEnvelope.nonce auth))) as [->|Hne].
    + rewrite lookup_insert_eq. eauto.
    + by rewrite lookup_insert_ne.
Qed.

(** A request whose authentication fails is answered with that failure. *)
Lemma appRouter_unauthenticated now req procedure auth payload db e db' :
  signed_request req = Some (procedure, auth, payload) →
  schema_of req = true →
  requireAuth now procedure auth payload db = (inl e, db') →
  appRouter now req db = (inl e, db').
Proof.
  intros Hs Hv Hr.
  destruct req; simpl in Hs, Hv; simplify_eq; simpl; rewrite Hv; unfold t_procedure.
  all: apply bind_inl.
  all: unfold identity_registerBundle, message_send, message_poll, message_ackDelete,
         group_create, group_addMembers, group_listMine, group_getMembers, group_post,
         group_poll, group_ackDelete.
  all: by apply bind_inl.
Qed.

End authentication.

(** ** No handler removes a nonce *)

Section nonces.
Context `{Runtime}.

Ltac unfold_sql :=
  unfold Sql.upsert_users, Sql.delete_prekeys, Sql.insert_prekeys, Sql.update_prekey_used,
    Sql.insert_messageQueue, Sql.delete_messageQueue, Sql.insert_groups,
    Sql.insert_groupMembers, Sql.insert_groupMembers_onConflictDoNothing,
    Sql.insert_groupMessageQueue.

(** A statement outside [auth_nonces] leaves that table as it is. *)
Ltac statement_keeps_nonces :=
  first
    [ apply preserves_requireAuth
    | apply preserves_exec; [apply _|];
      intros db db'; unfold_sql; repeat case_match; intros; simplify_eq; by intros k
    | intros db; unfold_sql; repeat case_match; by intros k ].

Lemma preserves_appRouter_nonces now req : preserves nonces_kept (appRouter now req).
Proof.
  destruct req; simpl; unfold_handlers; frame; statement_keeps_nonces.
Qed.

Lemma serve_nonces_kept trace db outs db' :
  serve trace db = (outs, db') → nonces_kept db db'.
Proof.
  revert db outs db'. induction trace as [|[now req] trace IH]; simpl; intros db outs db'.
  - intros [= <- <-]. reflexivity.
  - destruct (appRouter now req db) as [out db1] eqn:E1.
    destruct (serve trace db1) as [outs1 db2] eqn:E2. intros [= <- <-].
    etrans; [|by eapply IH].
    pose proof (preserves_appRouter_nonces now req db) as Hp. by rewrite E1 in Hp.
Qed.

(** Every signed request authenticates first and only then runs its body. *)
Lemma appRouter_authenticated now req procedure auth payload db userId db0 :
  signed_request req = Some (procedure, auth, payload) →
  schema_of req = true →
  requireAuth now procedure auth payload db = (inr userId, db0) →
  nonces_kept db0 (appRouter now req db).2.
Proof.
  intros Hs Hv Hr.
  destruct req; simpl in Hs, Hv |- *; simplify_eq; rewrite Hv.
  all: unfold_handlers.
  all: unfold bind at 1; unfold bind at 1; rewrite Hr.
  all: lazymatch goal with
       | |- nonces_kept ?d (match ?body ?d with _ => _ end).2 =>
           let F := fresh in
           assert (preserves nonces_kept body) as F;
           [|specialize (F d); by destruct (body d) as [[?|?] ?]]
       end.
  all: frame.
  all: first
    [ apply preserves_exec; [apply _|];
      intros d d'; unfold Sql.upsert_users, Sql.delete_prekeys, Sql.update_prekey_used,
        Sql.delete_messageQueue, Sql.insert_groupMembers,
        Sql.insert_groupMembers_onConflictDoNothing;
      repeat case_match; intros; simplify_eq; by intros k
    | intros d; unfold Sql.insert_prekeys, Sql.insert_messageQueue, Sql.insert_groups,
        Sql.insert_groupMessageQueue; repeat case_match; by intros k ].
Qed.

(** C2. Authentication succeeds exactly once per [(userId, nonce)]: a
    request with a valid envelope whose pair is not yet in the nonce table
    authenticates and inserts the pair; once the server has handled it,
    and whatever requests it handles afterwards, every request that
    presents the same pair under a valid envelope (for any procedure and
    payload, signed anew) is refused as unauthorized with the replay
    error and leaves the database untouched. *)
Theorem replay_detected now req procedure auth payload db :
  signed_request req = Some (procedure, auth, payload) →
  schema_of req = true →
  envelope_valid procedure auth payload →
  authNonces db !! (AuthEnvelope.userId auth, AuthEnvelope.nonce auth) = None →
  (∃ db1,
     assertAuthenticated now procedure auth payload db = (inr (AuthEnvelope.userId auth), db1)
     ∧ authNonces db1
       = <[(AuthEnvelope.userId auth, AuthEnvelope.nonce auth) := now]> (authNonces db))
  ∧ ∀ trace now2 req2 procedure2 auth2 payload2,
      signed_request req2 = Some (procedure2, auth2, payload2) →
      schema_of req2 = true →
      AuthEnvelope.userId auth2 = AuthEnvelope.userId auth →
      AuthEnvelope.nonce auth2 = AuthEnvelope.nonce auth →
      envelope_valid procedure2 auth2 payload2 →
      let db2 := (serve ((now, req) :: trace) db).2 in
      assertAuthenticated now2 procedure2 auth2 payload2 db2 = (inl "replayed request", db2)
      ∧ appRouter now2 req2 db2 = (inl replayed, db2).
Proof.
  intros Hreq Hschema Hvalid Hfresh. split.
  { eexists. split; [by apply assertAuthenticated_fresh|done]. }
  intros trace now2 req2 procedure2 auth2 payload2 Hreq2 Hschema2 Hu Hn Hvalid2 db2.
  assert (nonce_used auth2 db2) as Hused.
  { unfold nonce_used. rewrite Hu, Hn. subst db2. simpl.
    pose proof (appRouter_authenticated now req _ _ _ db _ _ Hreq Hschema
                  (requireAuth_fresh _ _ _ _ _ Hvalid Hfresh)) as Hfirst.
    destruct (appRouter now req db) as [out db1].
    pose proof (serve_nonces_kept trace db1) as Hrest.
    destruct (serve trace db1) as [outs db3]. simpl in *.
    eapply Hrest; [done|]. apply Hfirst. simpl. rewrite lookup_insert_eq. eauto. }
  split; [by apply assertAuthenticated_replay|].
  eapply appRouter_unauthenticated; [done..|]. by apply requireAuth_replay.
Qed.

End nonces.

Lemma replay_detected_witness :
  (∃ db1,
     assertAuthenticated (H:=Scenario.host) 1000 "message.poll"
       (MessagePoll.auth Scenario.poll_of_alice) (MessagePoll.payload Scenario.poll_of_alice)
       empty_db
     = (inr (AuthEnvelope.userId (MessagePoll.auth Scenario.poll_of_alice)), db1)
     ∧ authNonces db1
       = <[(AuthEnvelope.userId (MessagePoll.auth Scenario.poll_of_alice),
            AuthEnvelope.nonce (MessagePoll.auth Scenario.poll_of_alice)) := 1000]>
           (authNonces empty_db))
  ∧ ∀ trace now2 req2 procedure2 auth2 payload2,
      signed_request req2 = Some (procedure2, auth2, payload2) →
      schema_of req2 = true →
      AuthEnvelope.userId auth2 = AuthEnvelope.userId (MessagePoll.auth Scenario.poll_of_alice) →
      AuthEnvelope.nonce auth2 = AuthEnvelope.nonce (MessagePoll.auth Scenario.poll_of_alice) →
      envelope_valid (H:=Scenario.host) procedure2 auth2 payload2 →
      let db2 :=
        (serve (H:=Scenario.host) ((1000, MessagePollReq Scenario.poll_of_alice) :: trace)
           empty_db).2 in
      assertAuthenticated (H:=Scenario.host) now2 procedure2 auth2 payload2 db2
      = (inl "replayed request", db2)
      ∧ appRouter (H:=Scenario.host) now2 req2 db2 = (inl replayed, db2).
Proof.
  apply (replay_detected (H:=Scenario.host) 1000 (MessagePollReq Scenario.poll_of_alice)
           "message.poll"
           (MessagePoll.auth Scenario.poll_of_alice) (MessagePoll.payload Scenario.poll_of_alice)
           empty_db).
  - reflexivity.
  - vm_compute. reflexivity.
  - split; [vm_compute; reflexivity|]. eexists. split; vm_compute; reflexivity.
  - vm_compute. reflexivity.
Defined.

(** Alice's nonce, once spent on a poll, is refused on a send she signs
    anew over another payload. *)
Example replay_with_other_payload :
  (appRouter (H:=Scenario.host) 1000 (MessagePollReq Scenario.poll_of_alice)
     Scenario.registered).1 = inr (RMessages [])
  ∧ appRouter (H:=Scenario.host) 1001
      (MessageSendReq
         (Scenario.send_input Scenario.alice_key "nonce-poll-0001" Scenario.bob "msg-9"
            "ciphertext-9" 1700))
      (appRouter (H:=Scenario.host) 1000 (MessagePollReq Scenario.poll_of_alice)
         Scenario.registered).2
    = (inl replayed,
       (appRouter (H:=Scenario.host) 1000 (MessagePollReq Scenario.poll_of_alice)
          Scenario.registered).2).
Proof. split; vm_compute; reflexivity. Qed.

(** ** A rejected request has spent its nonce *)

Section rejection.
Context `{Runtime}.

(** C10. The nonce is spent even when the procedure body fails: if a signed
    request passes the schema and is answered with an error other than
    unauthorized (it was authenticated and rejected afterwards, as
    [message.send] to an unregistered user is), its pair is in the nonce
    table afterwards, and submitting the identical request again is
    refused as a replay, leaving the database untouched. *)
Theorem nonce_spent_on_rejection now req procedure auth payload db e db1 :
  signed_request req = Some (procedure, auth, payload) →
  schema_of req = true →
  appRouter now req db = (inl e, db1) →
  code e ≠ UNAUTHORIZED →
  nonce_used auth db1 ∧ ∀ now2, appRouter now2 req db1 = (inl replayed, db1).
Proof.
  intros Hs Hv Hr Hcode.
  destruct (requireAuth now procedure auth payload db) as [[e0|u] db0] eqn:Ea.
  { pose proof Ea as Ea'. apply requireAuth_inv in Ea' as [Hc ->].
    rewrite (appRouter_unauthenticated _ _ _ _ _ _ _ _ Hs Hv Ea) in Hr.
    by simplify_eq. }
  pose proof (appRouter_authenticated _ _ _ _ _ _ _ _ Hs Hv Ea) as Hk.
  rewrite Hr in Hk. simpl in Hk.
  apply requireAuth_inv in Ea as (-> & Hvalid & Hfresh & ->).
  assert (nonce_used auth db1) as Hused.
  { apply Hk. simpl. rewrite lookup_insert_eq. eauto. }
  split; [done|]. intros now2.
  eapply appRouter_unauthenticated; [done..|]. by apply requireAuth_replay.
Qed.

End rejection.

Lemma nonce_spent_on_rejection_witness :
  (appRouter (H:=Scenario.host) 1000 (MessageSendReq Scenario.send_to_dave) Scenario.registered).1
  = inl (mkTRPCError BAD_REQUEST "target user not found")
  ∧ nonce_used (MessageSend.auth Scenario.send_to_dave)
      (appRouter (H:=Scenario.host) 1000 (MessageSendReq Scenario.send_to_dave)
         Scenario.registered).2
  ∧ ∀ now2,
      appRouter (H:=Scenario.host) now2 (MessageSendReq Scenario.send_to_dave)
        (appRouter (H:=Scenario.host) 1000 (MessageSendReq Scenario.send_to_dave)
           Scenario.registered).2
      = (inl replayed,
         (appRouter (H:=Scenario.host) 1000 (MessageSendReq Scenario.send_to_dave)
            Scenario.registered).2).
Proof.
  split; [vm_compute; reflexivity|].
  apply (nonce_spent_on_rejection (H:=Scenario.host) 1000
           (MessageSendReq Scenario.send_to_dave) "message.send"
           (MessageSend.auth Scenario.send_to_dave) (MessageSend.payload Scenario.send_to_dave)
           Scenario.registered (mkTRPCError BAD_REQUEST "target user not found")).
  - reflexivity.
  - vm_compute. reflexivity.
  - vm_compute. reflexivity.
  - simpl. discriminate.
Defined.

(** Projections of an updated database. *)
Ltac db_simpl :=
  cbn [users prekeys prekeys_id_seq messageQueue messageQueue_id_seq groups groups_id_seq
       groupMembers groupMessageQueue groupMessageQueue_id_seq authNonces
       set_users set_prekeys set_messageQueue set_groups set_groupMembers
       set_groupMessageQueue set_authNonces fst snd] in *.

(** ** [message.send] *)

Section message_send.
Context `{Runtime}.

Lemma head_filter_Exists {A} (P : A → Prop) `{∀ x, Decision (P x)} (l : list A) :
  Exists P l → ∃ r, head (filter P l) = Some r ∧ r ∈ l ∧ P r.
Proof.
  intros HE. apply Exists_exists in HE as (x & Hx & HPx).
  assert (x ∈ filter P l) as Hin by (by apply list_elem_of_filter).
  destruct (filter P l) as [|r rest] eqn:Ef; [by apply elem_of_nil in Hin|].
  exists r. split; [done|].
  assert (r ∈ filter P l) as Hr by (rewrite Ef; left).
  by apply list_elem_of_filter in Hr as [? ?].
Qed.

Lemma filter_not_Exists {A} (P : A → Prop) `{∀ x, Decision (P x)} (l : list A) :
  ¬ Exists P l → filter P l = [].
Proof.
  intros HE. induction l as [|x l IH]; [done|].
  rewrite filter_cons. destruct (decide (P x)) as [HP|HP].
  - exfalso. apply HE. by left.
  - apply IH. intros HE'. apply HE. by right.
Qed.

(** What the insert of [message.send] does. *)
Lemma insert_messageQueue_cases toUserId fromUserId ciphertext header clientMsgId createdAt db :
  let same := Sql.same_message toUserId fromUserId clientMsgId in
  let out := Sql.insert_messageQueue toUserId fromUserId ciphertext header clientMsgId
               createdAt db in
  users out.2 = users db ∧ authNonces out.2 = authNonces db
  ∧ ((Exists same (messageQueue db) ∧ out.1 = inr [] ∧ messageQueue out.2 = messageQueue db)
     ∨ (¬ Exists same (messageQueue db)
        ∧ out.1 = inr [messageQueue_id_seq db]
        ∧ messageQueue out.2
          = messageQueue db ++
              [MessageQueue.mk (messageQueue_id_seq db) toUserId fromUserId ciphertext header
                 clientMsgId createdAt None])
     ∨ (¬ Exists same (messageQueue db) ∧ ∃ e, out.1 = inl e)).
Proof.
  intros same out. unfold out, Sql.insert_messageQueue.
  repeat case_bool_decide; simpl; repeat split; eauto 8.
Qed.

(** The successful runs of the handler. *)
Lemma message_send_inr now input db q db1 :
  message_send now input db = (inr q, db1) →
  let toUserId := MessageSend.toUserId input in
  let fromUserId := AuthEnvelope.userId (MessageSend.auth input) in
  let same := Sql.same_message toUserId fromUserId (MessageSend.clientMsgId input) in
  is_Some (users db !! toUserId)
  ∧ users db1 = users db
  ∧ ((Exists same (messageQueue db) ∧ messageQueue db1 = messageQueue db
      ∧ ∃ r, head (filter same (messageQueue db)) = Some r ∧ MessageQueue.queuedMsgId r = q)
     ∨ (¬ Exists same (messageQueue db)
        ∧ messageQueue db1
          = messageQueue db ++
              [MessageQueue.mk q toUserId fromUserId (MessageSend.ciphertext input)
                 (MessageSend.header input) (MessageSend.clientMsgId input)
                 (MessageSend.createdAt input) None])).
Proof.
  intros Hsend toUserId fromUserId same. revert Hsend. subst toUserId fromUserId same.
  unfold message_send. cbv zeta. unfold bind at 1.
  destruct (requireAuth _ _ _ _ _) as [[e|u] db0] eqn:Ea; [done|].
  apply requireAuth_inv in Ea as (-> & _ & _ & ->).
  unfold bind at 1, query at 1. db_simpl.
  destruct (users db !! MessageSend.toUserId input) as [target|] eqn:Et; [|done].
  unfold bind at 1, uncaught.
  match goal with |- context [Sql.insert_messageQueue ?a ?b ?c ?d ?e ?f ?g] =>
    pose proof (insert_messageQueue_cases a b c d e f g) as Hi;
    destruct (Sql.insert_messageQueue a b c d e f g) as [out db2] end.
  db_simpl. destruct Hi as (Hu & _ & [(HE & -> & Hq)|[(HE & -> & Hq)|(_ & e & ->)]]); [| |done].
  - unfold bind, query, ret. intros [= <- <-]. rewrite Hq.
    split; [eauto|]. split; [done|]. left. split; [done|]. split; [done|].
    destruct (head_filter_Exists _ _ HE) as (r & -> & _). eauto.
  - unfold ret. intros [= <- <-]. split; [eauto|]. split; [done|]. right. done.
Qed.

(** A send that meets a row with its key returns that row's id and
    inserts nothing. *)
Lemma message_send_conflict now input db r :
  envelope_valid "message.send" (MessageSend.auth input) (MessageSend.payload input) →
  authNonces db !! (AuthEnvelope.userId (MessageSend.auth input),
                    AuthEnvelope.nonce (MessageSend.auth input)) = None →
  is_Some (users db !! MessageSend.toUserId input) →
  head (filter (Sql.same_message (MessageSend.toUserId input)
                  (AuthEnvelope.userId (MessageSend.auth input))
                  (MessageSend.clientMsgId input)) (messageQueue db)) = Some r →
  ∃ db2, message_send now input db = (inr (MessageQueue.queuedMsgId r), db2)
         ∧ messageQueue db2 = messageQueue db.
Proof.
  intros Hv Hf [target Ht] Hhead.
  unfold message_send. cbv zeta. unfold bind at 1.
  rewrite (requireAuth_fresh _ _ _ _ _ Hv Hf).
  unfold bind at 1, query at 1. db_simpl. rewrite Ht.
  unfold bind at 1, uncaught.
  match goal with |- context [Sql.insert_messageQueue ?a ?b ?c ?d ?e ?f ?g] =>
    pose proof (insert_messageQueue_cases a b c d e f g) as Hi;
    destruct (Sql.insert_messageQueue a b c d e f g) as [out db2] end.
  db_simpl.
  assert (Exists (Sql.same_message (MessageSend.toUserId input)
                    (AuthEnvelope.userId (MessageSend.auth input))
                    (MessageSend.clientMsgId input)) (messageQueue db)) as HE.
  { apply Exists_exists. exists r.
    assert (r ∈ filter (Sql.same_message (MessageSend.toUserId input)
                          (AuthEnvelope.userId (MessageSend.auth input))
                          (MessageSend.clientMsgId input)) (messageQueue db)) as Hr.
    { destruct (filter _ _); simplify_eq/=. left. }
    apply list_elem_of_filter in Hr as [? ?]. done. }
  destruct Hi as (Hu & _ & [(_ & -> & Hq)|[(HE' & _)|(HE' & _)]]); [|done..].
  unfold bind, query, ret. rewrite Hq, Hhead. eauto.
Qed.

(** C3. [message.send] is idempotent under retries: when a send succeeds
    with [queuedMsgId = q], an authenticated second send with the same
    [(toUserId, fromUserId, clientMsgId)], whatever its ciphertext, returns
    [q] again and leaves the queue as it is; [q] is the id of the row the
    queue holds under that key, and that row is the one the first call
    appended when the key was new. *)
Theorem message_send_idempotent now1 now2 input1 input2 db q db1 :
  let toUserId := MessageSend.toUserId input1 in
  let fromUserId := AuthEnvelope.userId (MessageSend.auth input1) in
  let same := Sql.same_message toUserId fromUserId (MessageSend.clientMsgId input1) in
  appRouter now1 (MessageSendReq input1) db = (inr (RQueuedMsgId q), db1) →
  MessageSend.toUserId input2 = toUserId →
  AuthEnvelope.userId (MessageSend.auth input2) = fromUserId →
  MessageSend.clientMsgId input2 = MessageSend.clientMsgId input1 →
  MessageSend.schema input2 = true →
  envelope_valid "message.send" (MessageSend.auth input2) (MessageSend.payload input2) →
  authNonces db1 !! (AuthEnvelope.userId (MessageSend.auth input2),
                     AuthEnvelope.nonce (MessageSend.auth input2)) = None →
  ∃ db2,
    appRouter now2 (MessageSendReq input2) db1 = (inr (RQueuedMsgId q), db2)
    ∧ messageQueue db2 = messageQueue db1
    ∧ (∃ r, head (filter same (messageQueue db1)) = Some r ∧ MessageQueue.queuedMsgId r = q)
    ∧ (¬ Exists same (messageQueue db) →
       messageQueue db1
       = messageQueue db ++
           [MessageQueue.mk q toUserId fromUserId (MessageSend.ciphertext input1)
              (MessageSend.header input1) (MessageSend.clientMsgId input1)
              (MessageSend.createdAt input1) None]).
Proof.
  intros toUserId fromUserId same Hfirst Hto Hfrom Hcid Hschema Hvalid Hfresh.
  subst toUserId fromUserId same.
  simpl in Hfirst. unfold t_procedure in Hfirst.
  destruct (MessageSend.schema input1); [|done].
  unfold bind at 1 in Hfirst.
  destruct (message_send now1 input1 db) as [[e|q'] db1'] eqn:Esend; [done|].
  unfold ret in Hfirst. simplify_eq.
  apply message_send_inr in Esend as (Htarget & Husers & Hcases).
  assert (∃ r, head (filter (Sql.same_message (MessageSend.toUserId input1)
                               (AuthEnvelope.userId (MessageSend.auth input1))
                               (MessageSend.clientMsgId input1)) (messageQueue db1)) = Some r
               ∧ MessageQueue.queuedMsgId r = q) as (r & Hhead & Hq).
  { destruct Hcases as [(HE & -> & r & Hr & Hq)|(HE & ->)]; [eauto|].
    rewrite filter_app, (filter_not_Exists _ _ HE), filter_cons.
    destruct (decide _) as [_|Hn]; [eauto|].
    exfalso. apply Hn. by repeat split. }
  destruct (message_send_conflict now2 input2 db1 r) as (db2 & Hsecond & Hqueue); try done.
  { by rewrite Hto, Husers. }
  { by rewrite Hto, Hfrom, Hcid. }
  exists db2. simpl. rewrite Hschema. unfold t_procedure, bind at 1. rewrite Hsecond.
  unfold ret. rewrite Hq. repeat split; eauto.
  intros HE. destruct Hcases as [(HE' & _)|(_ & ->)]; done.
Qed.

End message_send.

Lemma message_send_idempotent_witness :
  ∃ db2,
    appRouter (H:=Scenario.host) 2001 (MessageSendReq Scenario.retry_send)
      (appRouter (H:=Scenario.host) 2000 (MessageSendReq Scenario.first_send)
         Scenario.registered).2
    = (inr (RQueuedMsgId 1), db2)
    ∧ messageQueue db2
      = messageQueue (appRouter (H:=Scenario.host) 2000 (MessageSendReq Scenario.first_send)
                        Scenario.registered).2
    ∧ (∃ r, head (filter (Sql.same_message Scenario.bob Scenario.alice "msg-1")
                    (messageQueue
                       (appRouter (H:=Scenario.host) 2000 (MessageSendReq Scenario.first_send)
                          Scenario.registered).2)) = Some r
            ∧ MessageQueue.queuedMsgId r = 1)
    ∧ (¬ Exists (Sql.same_message Scenario.bob Scenario.alice "msg-1")
           (messageQueue Scenario.registered) →
       messageQueue (appRouter (H:=Scenario.host) 2000 (MessageSendReq Scenario.first_send)
                       Scenario.registered).2
       = messageQueue Scenario.registered ++
           [MessageQueue.mk 1 Scenario.bob Scenario.alice "ciphertext-1" "hdr" "msg-1" 1700 None]).
Proof.
  apply (message_send_idempotent (H:=Scenario.host) 2000 2001
           Scenario.first_send Scenario.retry_send Scenario.registered 1
           (appRouter (H:=Scenario.host) 2000 (MessageSendReq Scenario.first_send)
              Scenario.registered).2).
  - vm_compute. reflexivity.
  - reflexivity.
  - reflexivity.
  - reflexivity.
  - vm_compute. reflexivity.
  - split; [vm_compute; reflexivity|]. eexists. split; vm_compute; reflexivity.
  - vm_compute. reflexivity.
Defined.

(** ** [identity.getBundle] *)

Section getBundle.
Context `{Runtime}.

Lemma order_by_nil {A} (key : A → Z) (l : list A) : Sql.order_by key l = [] ↔ l = [].
Proof.
  unfold Sql.order_by. split; intros E.
  - apply Permutation_nil_r. rewrite <- E. symmetry. apply merge_sort_Permutation.
  - subst. done.
Qed.

Lemma order_by_singleton {A} (key : A → Z) (x : A) : Sql.order_by key [x] = [x].
Proof.
  unfold Sql.order_by. apply Permutation_singleton_r. apply merge_sort_Permutation.
Qed.

Lemma select_unused_prekey_Some userId db p :
  Sql.select_unused_prekey userId db = Some p →
  p ∈ prekeys db ∧ Prekeys.userId p = userId ∧ Prekeys.isUsed p = false.
Proof.
  unfold Sql.select_unused_prekey. intros Hh.
  assert (p ∈ Sql.order_by Prekeys.id
                (filter (λ r, Prekeys.userId r = userId ∧ Prekeys.isUsed r = false) (prekeys db)))
    as Hin.
  { destruct (Sql.order_by _ _) as [|p' ?]; [done|]. simpl in Hh. injection Hh as Hp.
    rewrite Hp. left. }
  unfold Sql.order_by in Hin. rewrite merge_sort_Permutation in Hin.
  apply list_elem_of_filter in Hin as [[? ?] ?]. done.
Qed.

(** The unused rows of a user once the rows with one id are marked used. *)
Lemma unused_after_update userId id (l : list Prekeys.row) :
  filter (λ r, Prekeys.userId r = userId ∧ Prekeys.isUsed r = false)
    (map (λ r, if bool_decide (Prekeys.id r = id) then Prekeys.set_isUsed true r else r) l)
  = filter (λ r, Prekeys.id r ≠ id)
      (filter (λ r, Prekeys.userId r = userId ∧ Prekeys.isUsed r = false) l).
Proof.
  induction l as [|r l IH]; [done|]. simpl map. rewrite !filter_cons.
  case_bool_decide as Hid.
  - destruct (decide (Prekeys.userId (Prekeys.set_isUsed true r) = userId
                      ∧ Prekeys.isUsed (Prekeys.set_isUsed true r) = false)) as [[_ ?]|_];
      [done|].
    rewrite IH. destruct (decide (Prekeys.userId r = userId ∧ Prekeys.isUsed r = false)); [|done].
    rewrite filter_cons. destruct (decide (Prekeys.id r ≠ id)); done.
  - rewrite IH. destruct (decide (Prekeys.userId r = userId ∧ Prekeys.isUsed r = false)); [|done].
    rewrite filter_cons. destruct (decide (Prekeys.id r ≠ id)); done.
Qed.

Lemma omap_filter_sub {A B} (f : A → option B) (P : A → Prop) `{∀ x, Decision (P x)}
    (l : list A) :
  omap f (filter P l) ⊆+ omap f l.
Proof.
  induction l as [|a l IH]; [done|]. rewrite filter_cons.
  destruct (decide (P a)); simpl; destruct (f a); try done.
  - by apply submseteq_skip.
  - by apply submseteq_cons.
Qed.

(** Taking one row out of a pool takes its key out once. *)
Lemma omap_filter_taken {A B} (f : A → option B) (P : A → Prop) `{∀ x, Decision (P x)}
    (l : list A) x y :
  x ∈ l → ¬ P x → f x = Some y → y :: omap f (filter P l) ⊆+ omap f l.
Proof.
  intros Hin HP Hf. induction l as [|a l IH]; [by apply elem_of_nil in Hin|].
  apply elem_of_cons in Hin as [<-|Hin].
  - rewrite filter_cons_False by done. simpl. rewrite Hf.
    apply submseteq_skip, omap_filter_sub.
  - specialize (IH Hin). rewrite filter_cons.
    destruct (decide (P a)); simpl; destruct (f a) as [b|]; try done.
    + etrans; [apply submseteq_swap|]. by apply submseteq_skip.
    + by apply submseteq_cons.
Qed.

Lemma submseteq_NoDup {A} (l1 l2 : list A) : l1 ⊆+ l2 → NoDup l2 → NoDup l1.
Proof.
  intros Hsub Hnd. apply submseteq_Permutation in Hsub as [k Hk].
  rewrite Hk in Hnd. by apply NoDup_app in Hnd as [? _].
Qed.

#[local] Instance pool_shrinks_preorder userId : PreOrder (pool_shrinks userId).
Proof.
  split; unfold pool_shrinks.
  - by intros db.
  - intros a b c Hab Hbc. by etrans.
Qed.

Lemma pool_same userId db db' : prekeys db' = prekeys db → pool_shrinks userId db db'.
Proof. unfold pool_shrinks, unused_keyIds. by intros ->. Qed.

(** The runs of the handler: which row it selects and what it writes. *)
Lemma identity_getBundle_cases input db :
  let userId := IdentityGetBundle.userId input in
  let out := identity_getBundle input db in
  match users db !! userId, Sql.select_unused_prekey userId db with
  | None, _ => out = (inl (mkTRPCError NOT_FOUND "user not found"), db)
  | Some _, None => out = (inl (mkTRPCError NOT_FOUND "no prekey bundle"), db)
  | Some identity, Some prekey =>
      out.1 = inr (mkBundle
                     (Users.registrationId identity)
                     (Users.signalIdentityPublicKey identity)
                     (SignedPreKey.mk (Prekeys.signedPreKeyId prekey)
                        (Prekeys.signedPreKeyPublic prekey)
                        (Prekeys.signedPreKeySignature prekey))
                     match Prekeys.oneTimePreKeyId prekey, Prekeys.oneTimePreKeyPublic prekey with
                     | Some keyId, Some publicKey => Some (PreKey.mk keyId publicKey)
                     | _, _ => None
                     end)
      ∧ users out.2 = users db
      ∧ prekeys out.2
        = match Prekeys.oneTimePreKeyId prekey with
          | Some _ =>
              map (λ r, if bool_decide (Prekeys.id r = Prekeys.id prekey)
                        then Prekeys.set_isUsed true r else r) (prekeys db)
          | None => prekeys db
          end
  end.
Proof.
  intros userId out. subst userId out.
  unfold identity_getBundle, bind, query, throw, ret, uncaught, exec, Sql.update_prekey_used.
  cbv beta zeta.
  destruct (users db !! IdentityGetBundle.userId input) as [identity|]; [|done].
  destruct (Sql.select_unused_prekey _ db) as [prekey|]; [|done].
  destruct (Prekeys.oneTimePreKeyId prekey) as [keyId|]; done.
Qed.

(** A fetch only ever shrinks a pool, and a fetch that hands out a key
    takes that key out of the pool of its user. *)
Lemma identity_getBundle_pool input db userId :
  let out := identity_getBundle input db in
  pool_shrinks userId db out.2
  ∧ ∀ b keyId,
      out.1 = inr b → IdentityGetBundle.userId input = userId →
      PreKey.keyId <$> oneTimePreKey b = Some keyId →
      keyId :: unused_keyIds userId out.2 ⊆+ unused_keyIds userId db.
Proof.
  intros out. subst out. pose proof (identity_getBundle_cases input db) as Hc. cbv zeta in Hc.
  destruct (users db !! IdentityGetBundle.userId input) as [identity|];
    [|rewrite Hc; split; [reflexivity|done]].
  destruct (Sql.select_unused_prekey _ db) as [prekey|] eqn:Esel;
    [|rewrite Hc; split; [reflexivity|done]].
  destruct Hc as (Hout & _ & Hpre).
  apply select_unused_prekey_Some in Esel as (Hin & Hu & Hunused).
  destruct (Prekeys.oneTimePreKeyId prekey) as [k|] eqn:Ek.
  - split.
    + unfold pool_shrinks, unused_keyIds. rewrite Hpre, unused_after_update.
      apply omap_filter_sub.
    + intros b keyId Hb Huser Hkey. rewrite Hout in Hb. simplify_eq/=.
      assert (keyId = k) as ->.
      { destruct (Prekeys.oneTimePreKeyPublic prekey); by simplify_eq/=. }
      unfold unused_keyIds. rewrite Hpre, unused_after_update.
      apply (omap_filter_taken _ _ _ prekey); [|naive_solver|done].
      apply list_elem_of_filter. done.
  - split; [by apply pool_same|].
    intros b keyId Hb _ Hkey. rewrite Hout in Hb. by simplify_eq/=.
Qed.

(** Statements that leave [prekeys] alone. *)
Ltac statement_keeps_prekeys :=
  first
    [ intros db; destruct (requireAuth _ _ _ _ db) as [[?|?] ?] eqn:Er;
      apply requireAuth_inv in Er; apply pool_same; simpl; by destruct_and?; subst
    | apply preserves_exec; [apply _|];
      intros db db'; unfold Sql.delete_messageQueue, Sql.insert_groupMembers,
        Sql.insert_groupMembers_onConflictDoNothing, Sql.upsert_users;
      repeat case_match; intros; simplify_eq; by apply pool_same
    | intros db; unfold Sql.insert_messageQueue, Sql.insert_groups,
        Sql.insert_groupMessageQueue; repeat case_match; by apply pool_same ].

Lemma unused_keyIds_delete userId other db :
  other ≠ userId →
  unused_keyIds userId
    (set_prekeys (filter (λ r, Prekeys.userId r ≠ other) (prekeys db)) (prekeys_id_seq db) db)
  = unused_keyIds userId db.
Proof.
  intros Hne. unfold unused_keyIds. simpl. f_equal.
  induction (prekeys db) as [|r l IH]; [done|]. rewrite !filter_cons.
  destruct (decide (Prekeys.userId r ≠ other)) as [Hr|Hr].
  - rewrite filter_cons. destruct (decide _); by rewrite IH.
  - destruct (decide _) as [[Hu _]|_]; [|done]. exfalso. apply Hr. congruence.
Qed.

Lemma unused_keyIds_insert userId other (mk : Z → PreKey.t → Prekeys.row) next items seq db :
  other ≠ userId →
  (∀ id item, Prekeys.userId (mk id item) = other) →
  unused_keyIds userId
    (set_prekeys (prekeys db ++ Sql.number_from mk next items) seq db)
  = unused_keyIds userId db.
Proof.
  intros Hne Hmk. unfold unused_keyIds. simpl. rewrite filter_app.
  replace (filter _ (Sql.number_from mk next items)) with (@nil Prekeys.row);
    [by rewrite app_nil_r|].
  revert next. induction items as [|item items IH]; intros next; [done|].
  simpl. rewrite filter_cons. destruct (decide _) as [[Hu _]|_]; [|by apply IH].
  rewrite Hmk in Hu. done.
Qed.

(** Registering a bundle for someone else leaves the pool of a user alone. *)
Lemma registerBundle_body_pool now userId other (input : IdentityRegisterBundle.input) :
  other ≠ userId →
  preserves (pool_shrinks userId)
    (uncaught (exec (Sql.upsert_users other
                       (AuthEnvelope.identityPublicKey (IdentityRegisterBundle.auth input))
                       (IdentityRegisterBundle.signalIdentityPublicKey input)
                       (IdentityRegisterBundle.registrationId input) now)) ;;;
     uncaught (exec (Sql.delete_prekeys other)) ;;;
     uncaught (Sql.insert_prekeys other (IdentityRegisterBundle.signedPreKey input)
                 (IdentityRegisterBundle.oneTimePreKeys input) now) ;;;
     ret (E:=TRPCError) tt).
Proof.
  intros Hne. frame.
  - statement_keeps_prekeys.
  - apply preserves_exec; [apply _|]. intros db db'. unfold Sql.delete_prekeys.
    intros [= <-]. unfold pool_shrinks. by rewrite unused_keyIds_delete.
  - intros db. unfold Sql.insert_prekeys.
    destruct (negb _); [by apply pool_same|].
    destruct (users db !! other); simpl.
    + unfold pool_shrinks. by rewrite (unused_keyIds_insert userId other).
    + by apply pool_same.
Qed.

(** No request other than a registration in the user's name refills or
    otherwise grows the user's pool. *)
Lemma appRouter_pool_shrinks now req userId :
  ¬ registers userId req → preserves (pool_shrinks userId) (appRouter now req).
Proof.
  intros Hreg. destruct req as [i|i| | | | | | | | | |]; simpl.
  - simpl in Hreg. unfold t_procedure. destruct (IdentityRegisterBundle.schema i); [|by frame].
    apply preserves_bind; [apply _| |by intros; frame].
    unfold identity_registerBundle. cbv zeta. intros db. unfold bind at 1.
    destruct (requireAuth _ _ _ _ db) as [[e|u] db0] eqn:Er;
      apply requireAuth_inv in Er.
    + destruct Er as [_ ->]. reflexivity.
    + destruct Er as (-> & _ & _ & ->).
      etrans; [|apply (registerBundle_body_pool now userId _ i Hreg)].
      by apply pool_same.
  - unfold t_procedure. destruct (IdentityGetBundle.schema i); [|by frame].
    apply preserves_bind; [apply _| |by intros; frame].
    intros db. apply identity_getBundle_pool.
  - unfold_handlers; frame; statement_keeps_prekeys.
  - unfold_handlers; frame; statement_keeps_prekeys.
  - unfold_handlers; frame; statement_keeps_prekeys.
  - unfold_handlers; frame; statement_keeps_prekeys.
  - unfold_handlers; frame; statement_keeps_prekeys.
  - unfold_handlers; frame; statement_keeps_prekeys.
  - unfold_handlers; frame; statement_keeps_prekeys.
  - unfold_handlers; frame; statement_keeps_prekeys.
  - unfold_handlers; frame; statement_keeps_prekeys.
  - unfold_handlers; frame; statement_keeps_prekeys.
Qed.

(** A request that hands out a key of the user takes it out of the pool. *)
Lemma appRouter_served now req userId db keyId :
  let out := appRouter now req db in
  served_keyId userId req out.1 = Some keyId →
  keyId :: unused_keyIds userId out.2 ⊆+ unused_keyIds userId db.
Proof.
  intros out. subst out. destruct req as [|i| | | | | | | | | |]; try done.
  simpl. unfold t_procedure. destruct (IdentityGetBundle.schema i); [|done].
  pose proof (identity_getBundle_pool i db userId) as [_ Hp]. unfold bind, ret.
  destruct (identity_getBundle i db) as [[e|b] db1]; [done|]. simpl in *.
  case_bool_decide; [|done]. intros Hk. by eapply Hp.
Qed.

(** C5, amended. Each one-time pre-key is handed out at most once: over any
    sequence of requests with no registration in the user's name, the key
    ids that successful [identity.getBundle] calls return for the user
    form a sub-multiset of the key ids of the user's unused pre-key rows,
    so a row is never handed out twice; the returned key ids are pairwise
    distinct whenever those of the unused rows are. *)
Theorem one_time_prekeys_served_once userId trace db :
  Forall (λ step, ¬ registers userId step.2) trace →
  let served := served_keyIds userId trace (serve trace db).1 in
  served ⊆+ unused_keyIds userId db
  ∧ (NoDup (unused_keyIds userId db) → NoDup served).
Proof.
  intros Htrace served. subst served.
  enough (served_keyIds userId trace (serve trace db).1 ⊆+ unused_keyIds userId db) as Hsub.
  { split; [done|]. by apply submseteq_NoDup. }
  revert db. induction Htrace as [|[now req] trace Hreq _ IH]; intros db.
  { simpl. apply submseteq_nil_l. }
  simpl. pose proof (appRouter_served now req userId db) as Hserved.
  pose proof (appRouter_pool_shrinks now req userId Hreq db) as Hshrink.
  destruct (appRouter now req db) as [out db1]. specialize (IH db1).
  destruct (serve trace db1) as [outs db2]. simpl in *.
  destruct (served_keyId userId req out) as [keyId|].
  - etrans; [|by apply Hserved]. by apply submseteq_skip.
  - by etrans.
Qed.

End getBundle.

(** C5 as stated fails: the schema lets a pool hold two pre-keys under one
    key id, and two fetches then return that key id twice. *)
Lemma one_time_prekeys_served_once_counterexample :
  (serve (H:=Scenario.host) Scenario.fetches_of_dave Scenario.registered_twice_5).1
  = [inr (RBundle (mkBundle 42 "signaldavekey" (SignedPreKey.mk 7 "signedPub" "signedSig")
                     (Some (PreKey.mk 5 "otkD1"))));
     inr (RBundle (mkBundle 42 "signaldavekey" (SignedPreKey.mk 7 "signedPub" "signedSig")
                     (Some (PreKey.mk 5 "otkD2"))))]
  ∧ served_keyIds Scenario.dave Scenario.fetches_of_dave
      (serve (H:=Scenario.host) Scenario.fetches_of_dave Scenario.registered_twice_5).1
    = [5; 5]
  ∧ ¬ NoDup (served_keyIds Scenario.dave Scenario.fetches_of_dave
               (serve (H:=Scenario.host) Scenario.fetches_of_dave Scenario.registered_twice_5).1).
Proof.
  split; [vm_compute; reflexivity|].
  assert (served_keyIds Scenario.dave Scenario.fetches_of_dave
            (serve (H:=Scenario.host) Scenario.fetches_of_dave Scenario.registered_twice_5).1
          = [5; 5]) as E by (vm_compute; reflexivity).
  split; [exact E|]. rewrite E. intros Hnd. apply NoDup_cons in Hnd as [Hnotin _].
  apply Hnotin. left.
Qed.

Lemma one_time_prekeys_served_once_witness :
  served_keyIds Scenario.bob Scenario.fetches_of_bob
    (serve (H:=Scenario.host) Scenario.fetches_of_bob Scenario.registered).1
  ⊆+ unused_keyIds Scenario.bob Scenario.registered
  ∧ (NoDup (unused_keyIds Scenario.bob Scenario.registered) →
     NoDup (served_keyIds Scenario.bob Scenario.fetches_of_bob
              (serve (H:=Scenario.host) Scenario.fetches_of_bob Scenario.registered).1)).
Proof.
  apply (one_time_prekeys_served_once (H:=Scenario.host) Scenario.bob Scenario.fetches_of_bob
           Scenario.registered).
  repeat constructor; simpl; intros [].
Defined.

Example fetches_of_bob_served :
  served_keyIds Scenario.bob Scenario.fetches_of_bob
    (serve (H:=Scenario.host) Scenario.fetches_of_bob Scenario.registered).1 = [1; 2]
  ∧ unused_keyIds Scenario.bob Scenario.registered = [1; 2].
Proof. split; vm_compute; reflexivity. Qed.

Section getBundle_exhaustion.
Context `{Runtime}.

(** C4, amended. When the pool of a registered user holds exactly one
    unused one-time pre-key, the first [identity.getBundle] returns the
    signed pre-key with that one-time pre-key and marks it used, and the
    second fails with [NOT_FOUND] ("no prekey bundle"): the signed pre-key
    is stored on the pre-key rows and is not served once none is unused. *)
Theorem getBundle_exhausts_pool now1 now2 input db identity prekey keyId publicKey :
  IdentityGetBundle.schema input = true →
  users db !! IdentityGetBundle.userId input = Some identity →
  filter (λ r, Prekeys.userId r = IdentityGetBundle.userId input ∧ Prekeys.isUsed r = false)
    (prekeys db) = [prekey] →
  Prekeys.oneTimePreKeyId prekey = Some keyId →
  Prekeys.oneTimePreKeyPublic prekey = Some publicKey →
  ∃ db1,
    appRouter now1 (IdentityGetBundleReq input) db
    = (inr (RBundle (mkBundle
                       (Users.registrationId identity)
                       (Users.signalIdentityPublicKey identity)
                       (SignedPreKey.mk (Prekeys.signedPreKeyId prekey)
                          (Prekeys.signedPreKeyPublic prekey)
                          (Prekeys.signedPreKeySignature prekey))
                       (Some (PreKey.mk keyId publicKey)))), db1)
    ∧ appRouter now2 (IdentityGetBundleReq input) db1
      = (inl (mkTRPCError NOT_FOUND "no prekey bundle"), db1).
Proof.
  intros Hschema Hidentity Hpool Hid Hpub.
  simpl. rewrite Hschema. unfold t_procedure, bind, ret.
  pose proof (identity_getBundle_cases input db) as Hc. cbv zeta in Hc.
  assert (Sql.select_unused_prekey (IdentityGetBundle.userId input) db = Some prekey) as Hsel.
  { unfold Sql.select_unused_prekey. by rewrite Hpool, order_by_singleton. }
  rewrite Hidentity, Hsel, Hid, Hpub in Hc.
  destruct (identity_getBundle input db) as [out1 db1]. simpl in Hc.
  destruct Hc as (-> & Husers & Hprekeys). exists db1. split; [done|].
  pose proof (identity_getBundle_cases input db1) as Hc. cbv zeta in Hc.
  assert (Sql.select_unused_prekey (IdentityGetBundle.userId input) db1 = None) as Hnone.
  { unfold Sql.select_unused_prekey. rewrite Hprekeys, unused_after_update, Hpool.
    rewrite filter_cons_False by (intros Hne; by apply Hne). done. }
  rewrite Husers, Hidentity, Hnone in Hc. by rewrite Hc.
Qed.

End getBundle_exhaustion.

(** C4 as stated fails: after the only one-time pre-key is fetched, the
    next fetch returns no bundle at all. *)
Lemma getBundle_exhausts_pool_counterexample :
  unused_keyIds Scenario.alice Scenario.registered = [1]
  ∧ (appRouter (H:=Scenario.host) 3000 (Scenario.get_bundle Scenario.alice) Scenario.registered).1
    = inr (RBundle (mkBundle 42 "signalalicekey" (SignedPreKey.mk 7 "signedPub" "signedSig")
                      (Some (PreKey.mk 1 "otkA1"))))
  ∧ (appRouter (H:=Scenario.host) 3001 (Scenario.get_bundle Scenario.alice)
       Scenario.after_first_fetch).1
    = inl (mkTRPCError NOT_FOUND "no prekey bundle")
  ∧ ¬ ∃ bundle,
        (appRouter (H:=Scenario.host) 3001 (Scenario.get_bundle Scenario.alice)
           Scenario.after_first_fetch).1 = inr (RBundle bundle)
        ∧ oneTimePreKey bundle = None.
Proof.
  assert ((appRouter (H:=Scenario.host) 3001 (Scenario.get_bundle Scenario.alice)
             Scenario.after_first_fetch).1
          = inl (mkTRPCError NOT_FOUND "no prekey bundle")) as E by (vm_compute; reflexivity).
  repeat split; try (vm_compute; reflexivity).
  intros (bundle & Hb & _). rewrite E in Hb. discriminate.
Qed.

Lemma getBundle_exhausts_pool_witness :
  ∃ db1,
    appRouter (H:=Scenario.host) 3000 (Scenario.get_bundle Scenario.alice) Scenario.registered
    = (inr (RBundle (mkBundle 42 "signalalicekey" (SignedPreKey.mk 7 "signedPub" "signedSig")
                       (Some (PreKey.mk 1 "otkA1")))), db1)
    ∧ appRouter (H:=Scenario.host) 3001 (Scenario.get_bundle Scenario.alice) db1
      = (inl (mkTRPCError NOT_FOUND "no prekey bundle"), db1).
Proof.
  apply (getBundle_exhausts_pool (H:=Scenario.host) 3000 3001
           (IdentityGetBundle.mk Scenario.alice) Scenario.registered
           (Users.mk Scenario.alice_key "signalalicekey" 42 1000)
           (Prekeys.mk 1 Scenario.alice 7 "signedPub" "signedSig" (Some 1) (Some "otkA1")
              false 1000)
           1 "otkA1").
  - vm_compute. reflexivity.
  - vm_compute. reflexivity.
  - vm_compute. reflexivity.
  - reflexivity.
  - reflexivity.
Defined.

(** ** The invariants hold in every reachable state *)

Section invariants.
Context `{Runtime}.

#[local] Instance keeps_ok_preorder : PreOrder keeps_ok.
Proof. split; unfold keeps_ok; [by intros ?|]. intros x y z Hxy Hyz Hx. auto. Qed.

Lemma empty_db_ok : db_ok empty_db.
Proof.
  split; simpl; try done. intros k [v Hv]. by rewrite lookup_empty in Hv.
Qed.

(** The invariants do not read these fields. *)
Lemma db_ok_ext db db' :
  messageQueue db' = messageQueue db →
  groups db' = groups db →
  groups_id_seq db' = groups_id_seq db →
  groupMembers db' = groupMembers db →
  (∀ u, is_Some (users db !! u) → is_Some (users db' !! u)) →
  keeps_ok db db'.
Proof.
  intros Hq Hg Hs Hm Hu [O1 O2 O3 O4]. split; rewrite ?Hq, ?Hg, ?Hs, ?Hm; try done.
  intros k Hk. destruct (O4 k Hk) as [Hgr Hus]. split; [by rewrite Hg|by apply Hu].
Qed.

Lemma member_fk_ok_mono db db' k :
  (∀ g, g ∈ groups db → g ∈ groups db') →
  (∀ u, is_Some (users db !! u) → is_Some (users db' !! u)) →
  Sql.member_fk_ok db k → Sql.member_fk_ok db' k.
Proof.
  intros Hg Hu [Hgr Hus]. split; [|by apply Hu].
  apply Exists_exists in Hgr as (g & Hin & Hid). apply Exists_exists. eauto.
Qed.

Lemma keeps_ok_requireAuth now procedure auth payload :
  preserves keeps_ok (requireAuth now procedure auth payload).
Proof.
  intros db. destruct (requireAuth _ _ _ _ db) as [[e|u] db'] eqn:Er;
    apply requireAuth_inv in Er; simpl.
  - destruct Er as [_ ->]. reflexivity.
  - destruct Er as (_ & _ & _ & ->). by apply db_ok_ext.
Qed.

Lemma keeps_ok_upsert_users userId ipk sipk registrationId now :
  preserves keeps_ok (exec (Sql.upsert_users userId ipk sipk registrationId now)).
Proof.
  apply preserves_exec; [apply _|]. intros db db'. unfold Sql.upsert_users.
  do 2 (case_match; [done|]). intros [= <-]. apply db_ok_ext; try done.
  intros u Hu. simpl. destruct (decide (userId = u)) as [->|Hne].
  - rewrite lookup_insert_eq. eauto.
  - by rewrite lookup_insert_ne.
Qed.

Lemma keeps_ok_prekeys (f : Db → string + Db) :
  (∀ db db', f db = inr db' → ∃ v s, db' = set_prekeys v s db) →
  preserves keeps_ok (exec f).
Proof.
  intros Hf. apply preserves_exec; [apply _|]. intros db db' Hdb.
  destruct (Hf _ _ Hdb) as (v & s & ->). by apply db_ok_ext.
Qed.

Lemma keeps_ok_insert_prekeys userId signedPreKey items now :
  preserves keeps_ok (Sql.insert_prekeys userId signedPreKey items now).
Proof.
  intros db. unfold Sql.insert_prekeys. repeat case_match; simpl; by apply db_ok_ext.
Qed.

Lemma keeps_ok_insert_messageQueue toUserId fromUserId ciphertext header clientMsgId createdAt :
  0 < createdAt →
  preserves keeps_ok
    (Sql.insert_messageQueue toUserId fromUserId ciphertext header clientMsgId createdAt).
Proof.
  intros Hpos db. unfold Sql.insert_messageQueue.
  repeat case_bool_decide; simpl; try by apply db_ok_ext.
  intros [O1 O2 O3 O4]. split; simpl; try done.
  apply Forall_app. split; [done|]. by repeat constructor.
Qed.

Lemma keeps_ok_delete_messageQueue queuedMsgId toUserId :
  preserves keeps_ok (exec (Sql.delete_messageQueue queuedMsgId toUserId)).
Proof.
  apply preserves_exec; [apply _|]. intros db db'. unfold Sql.delete_messageQueue.
  intros [= <-] [O1 O2 O3 O4]. split; simpl; try done.
  rewrite Forall_forall in O1 |- *. intros r Hr.
  apply list_elem_of_filter in Hr as [_ Hr]. by apply O1.
Qed.

Lemma keeps_ok_insert_groups name createdAt createdByUserId :
  preserves keeps_ok (Sql.insert_groups name createdAt createdByUserId).
Proof.
  intros db. unfold Sql.insert_groups. case_match; simpl.
  - intros [O1 O2 O3 O4]. split; simpl; try done; [lia| |].
    + apply Forall_app. split; [|repeat constructor; simpl; lia].
      eapply Forall_impl; [done|]. simpl. intros g Hg. lia.
    + intros k Hk. eapply member_fk_ok_mono; [| |by apply O4]; simpl; [|done].
      intros g Hg. apply elem_of_app. by left.
  - intros [O1 O2 O3 O4]. split; simpl; try done; [lia|].
    eapply Forall_impl; [done|]. simpl. intros g Hg. lia.
Qed.

Lemma keeps_ok_insert_groupMembers rows :
  preserves keeps_ok (exec (Sql.insert_groupMembers rows)).
Proof.
  apply preserves_exec; [apply _|]. intros db db'. unfold Sql.insert_groupMembers.
  case_bool_decide as Hpk; [|done]. case_bool_decide as Hfk; [|done].
  intros [= <-] [O1 O2 O3 O4]. split; simpl; try done.
  intros k Hk. apply lookup_union_is_Some in Hk as [Hk|Hk].
  - destruct Hk as [v Hv]. apply elem_of_list_to_map_2 in Hv.
    rewrite Forall_forall in Hfk.
    eapply member_fk_ok_mono; [| |apply (Hfk k)]; try done.
    apply list_elem_of_fmap. by exists (k, v).
  - eapply member_fk_ok_mono; [| |by apply O4]; done.
Qed.

(** Inserting rows and skipping the keys that exist is a left-biased union. *)
Lemma foldl_insert_if_absent {K V} `{Countable K} (rows : list (K * V)) (m : gmap K V) :
  foldl Sql.insert_if_absent m rows = m ∪ list_to_map rows.
Proof.
  revert m. induction rows as [|[k v] rows IH]; intros m; simpl.
  { by rewrite (right_id_L ∅ (∪)). }
  rewrite IH. unfold Sql.insert_if_absent. simpl.
  apply map_eq. intros i. rewrite !lookup_union.
  destruct (m !! k) as [v0|] eqn:Ek.
  - destruct (decide (k = i)) as [->|Hne].
    + rewrite Ek, lookup_insert_eq. by destruct (list_to_map rows !! i).
    + by rewrite lookup_insert_ne.
  - destruct (decide (k = i)) as [->|Hne].
    + rewrite !lookup_insert_eq, Ek. by destruct (list_to_map rows !! i).
    + by rewrite !lookup_insert_ne.
Qed.

Lemma keeps_ok_insert_groupMembers_onConflictDoNothing rows :
  preserves keeps_ok (exec (Sql.insert_groupMembers_onConflictDoNothing rows)).
Proof.
  apply preserves_exec; [apply _|]. intros db db'.
  unfold Sql.insert_groupMembers_onConflictDoNothing.
  case_bool_decide as Hfk; [|done].
  intros [= <-] [O1 O2 O3 O4]. split; simpl; try done.
  intros k Hk. rewrite foldl_insert_if_absent in Hk.
  destruct (groupMembers db !! k) as [v0|] eqn:Ek.
  - eapply member_fk_ok_mono; [| |apply O4]; by rewrite ?Ek.
  - apply lookup_union_is_Some in Hk as [Hk|[v Hv]]; [by rewrite Ek in Hk; destruct Hk|].
    apply elem_of_list_to_map_2 in Hv. rewrite Forall_forall in Hfk.
    eapply member_fk_ok_mono; [| |apply (Hfk k)]; try done.
    apply list_elem_of_fmap. by exists (k, v).
Qed.

Lemma keeps_ok_insert_groupMessageQueue groupId fromUserId ciphertext header clientMsgId
    createdAt :
  preserves keeps_ok
    (Sql.insert_groupMessageQueue groupId fromUserId ciphertext header clientMsgId createdAt).
Proof.
  intros db. unfold Sql.insert_groupMessageQueue.
  repeat case_bool_decide; simpl; by apply db_ok_ext.
Qed.

Ltac statement_keeps_ok :=
  first
    [ apply keeps_ok_requireAuth
    | apply keeps_ok_upsert_users
    | apply keeps_ok_insert_prekeys
    | apply keeps_ok_delete_messageQueue
    | apply keeps_ok_insert_groups
    | apply keeps_ok_insert_groupMembers
    | apply keeps_ok_insert_groupMembers_onConflictDoNothing
    | apply keeps_ok_insert_groupMessageQueue
    | apply keeps_ok_prekeys; intros db db';
      unfold Sql.delete_prekeys, Sql.update_prekey_used; intros [= <-]; eauto ].

Lemma MessageSend_schema_createdAt input :
  MessageSend.schema input = true → 0 < MessageSend.createdAt input.
Proof.
  unfold MessageSend.schema, Zod.positive. rewrite !andb_true_iff. intros (_ & Hpos). lia.
Qed.

Lemma appRouter_keeps_ok now req : preserves keeps_ok (appRouter now req).
Proof.
  destruct req as [i|i|i|i|i|i|i|i|i|i|i|i]; simpl.
  3: { unfold t_procedure. destruct (MessageSend.schema i) eqn:Hs; [|by frame].
       apply MessageSend_schema_createdAt in Hs.
       unfold message_send. cbv zeta. frame; try statement_keeps_ok.
       by apply keeps_ok_insert_messageQueue. }
  all: unfold_handlers; frame; statement_keeps_ok.
Qed.

Lemma serve_keeps_ok trace db : keeps_ok db (serve trace db).2.
Proof.
  revert db. induction trace as [|[now req] trace IH]; intros db; simpl; [reflexivity|].
  pose proof (appRouter_keeps_ok now req db) as Hstep.
  destruct (appRouter now req db) as [out db1]. specialize (IH db1).
  destruct (serve trace db1) as [outs db2]. simpl in *. by etrans.
Qed.

Lemma reachable_ok db : reachable db → db_ok db.
Proof. intros [trace ->]. apply serve_keeps_ok, empty_db_ok. Qed.

End invariants.

(** ** [message.poll] *)

Section message_poll.
Context `{Runtime}.

#[local] Instance le_on_total {A} (key : A → Z) : Total (Sql.le_on key).
Proof. intros a b. unfold Sql.le_on. lia. Qed.

#[local] Instance le_on_trans {A} (key : A → Z) : Transitive (Sql.le_on key).
Proof. intros a b c. unfold Sql.le_on. lia. Qed.

Lemma order_by_perm {A} (key : A → Z) (l : list A) : Sql.order_by key l ≡ₚ l.
Proof. apply merge_sort_Permutation. Qed.

Lemma order_by_sorted {A} (key : A → Z) (l : list A) :
  Sorted (Sql.le_on key) (Sql.order_by key l).
Proof. apply Sorted_merge_sort. apply _. Qed.

(** On a queue of positive timestamps the conditions of the handler select
    the rows addressed to the user and created after the threshold: a
    threshold of [0], which the handler takes for none, excludes nothing. *)
Lemma message_poll_conditions userId since (l : list MessageQueue.row) :
  Zod.optional Zod.nonnegative since = true →
  Forall (λ r, 0 < MessageQueue.createdAt r) l →
  List.filter
    (and_all
       ([λ r, bool_decide (MessageQueue.toUserId r = userId)]
        ++ if truthy since
           then [λ r, bool_decide (default 0 since < MessageQueue.createdAt r)]
           else []))
    l
  = filter (addressed_after userId since) l.
Proof.
  intros Hsince Hpos.
  match goal with |- List.filter ?g _ = _ => set (f := g) end.
  assert (∀ r, 0 < MessageQueue.createdAt r →
               f r = bool_decide (addressed_after userId since r)) as Hf.
  { intros r Hr. unfold f, and_all, addressed_after. destruct since as [T|]; simpl.
    - unfold Zod.nonnegative in Hsince. destruct (T =? 0) eqn:ET; simpl.
      + apply Z.eqb_eq in ET as ->. repeat case_bool_decide; simpl; try done; exfalso; intuition lia.
      + repeat case_bool_decide; simpl; try done; exfalso; intuition lia.
    - repeat case_bool_decide; simpl; try done; exfalso; intuition lia. }
  clearbody f. induction Hpos as [|r l Hr _ IH]; [done|].
  cbn [List.filter]. rewrite filter_cons, IH, (Hf r Hr).
  by case_bool_decide; destruct (decide _).
Qed.

(** C7, amended. [message.poll] with [since = T] returns exactly the
    queued messages addressed to the caller whose [createdAt] is strictly
    greater than [T], all of those addressed to the caller when [since] is
    omitted, in ascending (non-decreasing) order of [createdAt]. *)
Theorem message_poll_returns now input db :
  let userId := AuthEnvelope.userId (MessagePoll.auth input) in
  reachable db →
  MessagePoll.schema input = true →
  envelope_valid "message.poll" (MessagePoll.auth input) (MessagePoll.payload input) →
  authNonces db !! (userId, AuthEnvelope.nonce (MessagePoll.auth input)) = None →
  ∃ rows db1,
    appRouter now (MessagePollReq input) db = (inr (RMessages rows), db1)
    ∧ rows ≡ₚ filter (addressed_after userId (MessagePoll.since input)) (messageQueue db)
    ∧ Sorted (Sql.le_on MessageQueue.createdAt) rows.
Proof.
  intros userId Hreach Hschema Hvalid Hfresh. subst userId.
  apply reachable_ok in Hreach as [Hpos _ _ _].
  simpl. rewrite Hschema. unfold t_procedure, message_poll. cbv zeta.
  unfold bind. rewrite (requireAuth_fresh _ _ _ _ _ Hvalid Hfresh).
  unfold query, ret. eexists _, _. split; [done|].
  unfold message_poll_rows. cbv zeta. db_simpl.
  unfold MessagePoll.schema in Hschema. apply andb_true_iff in Hschema as [_ Hsince].
  rewrite (message_poll_conditions _ _ _ Hsince Hpos).
  split; [apply order_by_perm|apply order_by_sorted].
Qed.

End message_poll.

(** C7 as stated fails: nothing keeps two messages to one user from
    carrying the same [createdAt], and the poll then returns a list that is
    ascending but not strictly so. *)
Lemma message_poll_returns_counterexample :
  (appRouter (H:=Scenario.host) 4000
     (MessagePollReq Scenario.poll_of_bob)
     Scenario.two_queued).1
  = inr (RMessages
           [MessageQueue.mk 1 Scenario.bob Scenario.alice "ciphertext-a" "hdr" "msg-1" 1700 None;
            MessageQueue.mk 2 Scenario.bob Scenario.alice "ciphertext-b" "hdr" "msg-2" 1700 None])
  ∧ ¬ Sorted Z.lt
        (map MessageQueue.createdAt
           [MessageQueue.mk 1 Scenario.bob Scenario.alice "ciphertext-a" "hdr" "msg-1" 1700 None;
            MessageQueue.mk 2 Scenario.bob Scenario.alice "ciphertext-b" "hdr" "msg-2" 1700 None]).
Proof.
  split; [vm_compute; reflexivity|].
  simpl. intros Hs. apply Sorted_inv in Hs as [_ Hhd]. apply HdRel_inv in Hhd. lia.
Qed.

Lemma message_poll_returns_witness :
  ∃ rows db1,
    appRouter (H:=Scenario.host) 4000
      (MessagePollReq Scenario.poll_of_bob)
      Scenario.two_queued
    = (inr (RMessages rows), db1)
    ∧ rows ≡ₚ filter (addressed_after Scenario.bob (Some 1000)) (messageQueue Scenario.two_queued)
    ∧ Sorted (Sql.le_on MessageQueue.createdAt) rows.
Proof.
  apply (message_poll_returns (H:=Scenario.host) 4000
           Scenario.poll_of_bob Scenario.two_queued).
  - exists (Scenario.registration ++ Scenario.sends_to_bob). reflexivity.
  - vm_compute. reflexivity.
  - split; [vm_compute; reflexivity|]. eexists. split; vm_compute; reflexivity.
  - vm_compute. reflexivity.
Defined.

(** ** [group.ackDelete] *)

Section group_ackDelete.
Context `{Runtime}.

(** The handler runs no statement on [group_message_queue]: whoever calls
    it and whatever it answers, the queue is as it was. *)
Lemma group_ackDelete_keeps_queue now input db :
  groupMessageQueue (appRouter now (GroupAckDeleteReq input) db).2 = groupMessageQueue db.
Proof.
  simpl. unfold t_procedure. destruct (GroupAckDelete.schema input); [|done].
  unfold group_ackDelete, bind, query, ret, forbidden, throw.
  destruct (requireAuth _ _ _ _ db) as [[e|u] db0] eqn:Er; apply requireAuth_inv in Er.
  - by destruct Er as [_ ->].
  - destruct Er as (_ & _ & _ & ->). db_simpl.
    destruct (head _) as [row|]; [|done].
    by destruct (_ !! _).
Qed.

End group_ackDelete.

(** C6. The code does not do what the claim says: a member's
    [group.ackDelete] of an existing row of the member's group answers
    [{ ok: true }] and the row is still in [group_message_queue]. *)
Theorem group_ackDelete_keeps_row :
  map GroupMessageQueue.queuedMsgId (groupMessageQueue Scenario.group_posted) = [1]
  ∧ is_Some (groupMembers Scenario.group_posted !! (1, Scenario.bob))
  ∧ (appRouter (H:=Scenario.host) 5000
       (GroupAckDeleteReq Scenario.ack_of_bob)
       Scenario.group_posted).1 = inr ROk
  ∧ groupMessageQueue
      (appRouter (H:=Scenario.host) 5000
         (GroupAckDeleteReq Scenario.ack_of_bob)
         Scenario.group_posted).2
    = [GroupMessageQueue.mk 1 1 Scenario.alice "group-ciphertext" "hdr" "gmsg-1" 1800].
Proof.
  split; [vm_compute; reflexivity|]. split; [vm_compute; eauto|].
  split; [vm_compute; reflexivity|].
  rewrite group_ackDelete_keeps_queue. vm_compute. reflexivity.
Qed.

(** The sibling [message.ackDelete] does delete the row it acknowledges. *)
Example message_ackDelete_deletes :
  map MessageQueue.queuedMsgId (messageQueue Scenario.two_queued) = [1; 2]
  ∧ map MessageQueue.queuedMsgId
      (messageQueue
         (appRouter (H:=Scenario.host) 5000
            (MessageAckDeleteReq (Scenario.ack_message_input Scenario.bob_key "nonce-ack-00002" 1))
            Scenario.two_queued).2)
    = [2].
Proof. split; vm_compute; reflexivity. Qed.

(** ** Group membership *)

Section known_users.
Context `{Runtime}.

Lemma size_list_to_set_le (l : list string) :
  (size (list_to_set (C:=gset string) l) ≤ length l)%nat.
Proof.
  induction l as [|x l IH].
  { rewrite list_to_set_nil, size_empty. done. }
  rewrite list_to_set_cons, size_union_alt, size_singleton. simpl.
  assert (size (list_to_set (C:=gset string) l ∖ {[x]})
          ≤ size (list_to_set (C:=gset string) l))%nat
    by (apply subseteq_size; set_solver).
  lia.
Qed.

Lemma select_users_in_length ids db :
  length (Sql.select_users_in ids db)
  = size (dom (users db) ∩ list_to_set (C:=gset string) ids).
Proof.
  unfold Sql.select_users_in. rewrite length_fmap, length_map_to_list, <- size_dom.
  f_equal. apply dom_filter_L. intros i. rewrite elem_of_intersection, elem_of_dom.
  rewrite elem_of_list_to_set. unfold is_Some. simpl. naive_solver.
Qed.

(** The check [knownUsers.length !== ids.length] passes when the ids are
    distinct and all registered. *)
Lemma known_users_all ids db :
  NoDup ids → Forall (λ u, is_Some (users db !! u)) ids →
  length (Sql.select_users_in ids db) = length ids.
Proof.
  intros Hnd Hall. rewrite select_users_in_length.
  replace (dom (users db) ∩ list_to_set ids) with (list_to_set (C:=gset string) ids).
  { by apply size_list_to_set. }
  apply set_eq. intros u. rewrite elem_of_intersection, elem_of_list_to_set, elem_of_dom.
  rewrite Forall_forall in Hall. naive_solver.
Qed.

(** The check fails when an id is not registered. *)
Lemma known_users_missing ids db u :
  u ∈ ids → users db !! u = None →
  length (Sql.select_users_in ids db) ≠ length ids.
Proof.
  intros Hin Hnone. rewrite select_users_in_length.
  pose proof (size_list_to_set_le ids) as Hle.
  assert (dom (users db) ∩ list_to_set ids ⊂ list_to_set (C:=gset string) ids) as Hsub.
  { split; [set_solver|]. intros Hsup.
    assert (u ∈ dom (users db) ∩ list_to_set (C:=gset string) ids) as Hu.
    { apply Hsup. by apply elem_of_list_to_set. }
    apply elem_of_intersection in Hu as [Hu _]. apply elem_of_dom in Hu as [v Hv]. congruence. }
  apply subset_size in Hsub. lia.
Qed.



Lemma elem_of_uniq seen l x : x ∈ uniq seen l ↔ x ∈ l ∧ x ∉ seen.
Proof.
  revert seen. induction l as [|y l IH]; intros seen; simpl.
  { split; [by intros ?%elem_of_nil|by intros [?%elem_of_nil _]]. }
  case_bool_decide as Hy.
  - rewrite IH, elem_of_cons. naive_solver.
  - rewrite !elem_of_cons, IH, elem_of_cons. split; [naive_solver|].
    intros [[->|Hx] Hs]; [by left|]. destruct (decide (x = y)) as [->|Hne]; [by left|].
    right. naive_solver.
Qed.

Lemma NoDup_uniq seen l : NoDup (uniq seen l).
Proof.
  revert seen. induction l as [|y l IH]; intros seen; simpl; [constructor|].
  case_bool_decide; [done|]. apply NoDup_cons. split; [|done].
  rewrite elem_of_uniq, elem_of_cons. naive_solver.
Qed.

Lemma elem_of_Array_from_Set l x : x ∈ Array_from_Set l ↔ x ∈ l.
Proof.
  unfold Array_from_Set. rewrite elem_of_uniq. split; [naive_solver|].
  intros Hx. split; [done|]. apply not_elem_of_nil.
Qed.

(** The member rows of one group, looked up. *)
Lemma lookup_member_rows groupId (f : string → GroupMembers.row) ids g u :
  (list_to_map (map (λ m, ((groupId, m), f m)) ids) : gmap (Z * string) GroupMembers.row)
    !! (g, u)
  = if decide (g = groupId ∧ u ∈ ids) then Some (f u) else None.
Proof.
  induction ids as [|m ids IH]; simpl.
  { rewrite lookup_empty. destruct (decide _) as [[_ Hu]|_]; [|done]. by apply elem_of_nil in Hu. }
  destruct (decide ((groupId, m) = (g, u))) as [Heq|Hne].
  - simplify_eq. rewrite lookup_insert_eq.
    rewrite decide_True; [done|]. split; [done|left].
  - rewrite lookup_insert_ne by done. rewrite IH.
    destruct (decide (g = groupId ∧ u ∈ ids)) as [[-> Hu]|Hn].
    + rewrite decide_True; [done|]. split; [done|by right].
    + rewrite decide_False; [done|]. intros [-> Hu].
      apply elem_of_cons in Hu as [->|Hu]; [done|]. apply Hn. done.
Qed.

End known_users.

Section group_create.
Context `{Runtime}.

Lemma insert_groups_registered name createdAt createdByUserId db :
  is_Some (users db !! createdByUserId) →
  Sql.insert_groups name createdAt createdByUserId db
  = (inr [groups_id_seq db],
     set_groups (groups db ++ [Groups.mk (groups_id_seq db) name createdAt createdByUserId])
       (groups_id_seq db + 1) db).
Proof. unfold Sql.insert_groups. intros [v Hv]. cbv zeta. by rewrite Hv. Qed.

Lemma insert_groupMembers_accepted rows db :
  NoDup rows.*1 →
  Forall (λ k, groupMembers db !! k = None) rows.*1 →
  Forall (Sql.member_fk_ok db) rows.*1 →
  Sql.insert_groupMembers rows db
  = inr (set_groupMembers (list_to_map rows ∪ groupMembers db) db).
Proof.
  intros Hnd Hnew Hfk. unfold Sql.insert_groupMembers.
  rewrite bool_decide_eq_true_2 by done. by rewrite bool_decide_eq_true_2.
Qed.

(** A group id not handed out yet has no member rows. *)
Lemma fresh_group_no_members db u :
  db_ok db → groupMembers db !! (groups_id_seq db, u) = None.
Proof.
  intros [_ _ Hids Hfk]. destruct (groupMembers db !! _) as [v|] eqn:Ev; [|done].
  destruct (Hfk (groups_id_seq db, u)) as [Hg _]; [eauto|].
  apply Exists_exists in Hg as (g & Hin & Hid). rewrite Forall_forall in Hids.
  specialize (Hids g Hin). simpl in Hid. lia.
Qed.

(** C9. [group.create] by an authenticated creator with a list of member
    ids: when the creator and every listed id are registered, it creates
    one group row and, in that group, exactly one member row for each
    distinct id among the creator and the list, the creator's with role
    [owner] and the others' with role [member]; when the creator or a
    listed id is not registered, it fails with [BAD_REQUEST] (the spec's
    INVALID_ARGUMENT) and creates neither a group row nor a member row. *)
Theorem group_create_members now input db :
  let creator := AuthEnvelope.userId (GroupCreate.auth input) in
  let listed := GroupCreate.memberUserIds input in
  reachable db →
  GroupCreate.schema input = true →
  envelope_valid "group.create" (GroupCreate.auth input) (GroupCreate.payload input) →
  authNonces db !! (creator, AuthEnvelope.nonce (GroupCreate.auth input)) = None →
  (Forall (λ u, is_Some (users db !! u)) (creator :: listed) →
   ∃ db1,
     appRouter now (GroupCreateReq input) db = (inr (RGroupId (groups_id_seq db)), db1)
     ∧ groups db1
       = groups db ++ [Groups.mk (groups_id_seq db) (GroupCreate.name input) now creator]
     ∧ ∀ g u,
         groupMembers db1 !! (g, u)
         = if decide (g = groups_id_seq db)
           then if decide (u ∈ creator :: listed)
                then Some (GroupMembers.mk
                             (if decide (u = creator)
                              then GroupMembers.owner else GroupMembers.member) now)
                else None
           else groupMembers db !! (g, u))
  ∧ (¬ Forall (λ u, is_Some (users db !! u)) (creator :: listed) →
     ∃ db1,
       appRouter now (GroupCreateReq input) db
       = (inl (mkTRPCError BAD_REQUEST "unknown userId included"), db1)
       ∧ groups db1 = groups db
       ∧ groupMembers db1 = groupMembers db).
Proof.
  intros creator listed Hreach Hschema Hvalid Hfresh. subst creator listed.
  apply reachable_ok in Hreach as Hok.
  simpl. rewrite Hschema. unfold t_procedure, group_create. cbv zeta.
  unfold bind, query. cbv beta.
  rewrite (requireAuth_fresh _ _ _ _ _ Hvalid Hfresh).
  set (creator := AuthEnvelope.userId (GroupCreate.auth input)).
  set (listed := GroupCreate.memberUserIds input).
  set (ids := Array_from_Set (creator :: listed)).
  set (db0 := set_authNonces _ db).
  split.
  - intros Hall.
    assert (Forall (λ u, is_Some (users db0 !! u)) ids) as Hall0.
    { apply Forall_forall. intros u Hu. unfold ids in Hu.
      rewrite elem_of_Array_from_Set in Hu.
      rewrite Forall_forall in Hall. change (is_Some (users db !! u)). by apply Hall. }
    rewrite (known_users_all ids db0 (NoDup_uniq _ _) Hall0), Nat.eqb_refl. cbn [negb].
    unfold uncaught at 1.
    rewrite insert_groups_registered by (by apply Forall_cons in Hall as [? _]).
    cbn [head]. pose proof Hok as [_ Hseq Hids Hfk].
    replace (groups_id_seq db0) with (groups_id_seq db) by done.
    replace (groups db0) with (groups db) by done.
    destruct (groups_id_seq db =? 0) eqn:E0; [lia|].
    unfold uncaught, exec, ret.
    rewrite insert_groupMembers_accepted.
    + eexists. split; [done|]. subst db0. db_simpl. split; [done|]. intros g u.
      rewrite lookup_union, lookup_member_rows.
      destruct (decide (g = groups_id_seq db)) as [->|Hg].
      * destruct (decide (u ∈ creator :: listed)) as [Hu|Hu].
        -- rewrite decide_True by (split; [done|by apply elem_of_Array_from_Set]).
           destruct (groupMembers db !! (groups_id_seq db, u)); simpl.
           all: destruct (decide (u = creator)) as [->|Hne];
             [by rewrite String.eqb_refl|].
           all: by apply String.eqb_neq in Hne as ->.
        -- rewrite decide_False by (unfold ids; rewrite elem_of_Array_from_Set; naive_solver).
           rewrite (fresh_group_no_members db u); done.
      * rewrite decide_False by naive_solver. by destruct (groupMembers db !! (g, u)).
    + rewrite <- list_fmap_compose. apply NoDup_fmap_2; [|apply NoDup_uniq].
      intros x y. simpl. congruence.
    + rewrite <- list_fmap_compose. apply Forall_fmap, Forall_forall. intros u _. simpl.
      by apply (fresh_group_no_members db u).
    + rewrite <- list_fmap_compose. apply Forall_fmap, Forall_forall. intros u Hu. simpl.
      split; simpl.
      * apply Exists_app. right. by left.
      * rewrite Forall_forall in Hall0. by apply Hall0.
  - intros Hmissing.
    assert (∃ u, u ∈ ids ∧ users db0 !! u = None) as (u & Hu & Hnone).
    { apply not_Forall_Exists in Hmissing; [|apply _].
      apply Exists_exists in Hmissing as (u & Hu & Hn). exists u. split.
      - by apply elem_of_Array_from_Set.
      - change (users db !! u = None). destruct (users db !! u) eqn:Eu; [|done].
        exfalso. apply Hn. eauto. }
    pose proof (known_users_missing ids db0 u Hu Hnone) as Hne.
    apply Nat.eqb_neq in Hne. rewrite Hne. cbn [negb].
    eexists. split; [done|]. done.
Qed.

End group_create.

Section group_addMembers.
Context `{Runtime}.




End group_addMembers.

Lemma registered_reachable : reachable (H:=Scenario.host) Scenario.registered.
Proof. by exists Scenario.registration. Qed.

Lemma group_posted_reachable : reachable (H:=Scenario.host) Scenario.group_posted.
Proof. by exists (Scenario.registration ++ Scenario.group_setup). Qed.

Lemma group_create_members_witness :
  (Forall (λ u, is_Some (users Scenario.registered !! u))
     (Scenario.alice :: [Scenario.bob; Scenario.alice; Scenario.bob]) →
   ∃ db1,
     appRouter (H:=Scenario.host) 2200 (GroupCreateReq Scenario.create_of_alice)
       Scenario.registered
     = (inr (RGroupId (groups_id_seq Scenario.registered)), db1)
     ∧ groups db1
       = groups Scenario.registered ++
           [Groups.mk (groups_id_seq Scenario.registered) "friends" 2200 Scenario.alice]
     ∧ ∀ g u,
         groupMembers db1 !! (g, u)
         = if decide (g = groups_id_seq Scenario.registered)
           then if decide (u ∈ Scenario.alice :: [Scenario.bob; Scenario.alice; Scenario.bob])
                then Some (GroupMembers.mk
                             (if decide (u = Scenario.alice)
                              then GroupMembers.owner else GroupMembers.member) 2200)
                else None
           else groupMembers Scenario.registered !! (g, u))
  ∧ (¬ Forall (λ u, is_Some (users Scenario.registered !! u))
         (Scenario.alice :: [Scenario.bob; Scenario.alice; Scenario.bob]) →
     ∃ db1,
       appRouter (H:=Scenario.host) 2200 (GroupCreateReq Scenario.create_of_alice)
         Scenario.registered
       = (inl (mkTRPCError BAD_REQUEST "unknown userId included"), db1)
       ∧ groups db1 = groups Scenario.registered
       ∧ groupMembers db1 = groupMembers Scenario.registered).
Proof.
  apply (group_create_members (H:=Scenario.host) 2200 Scenario.create_of_alice
           Scenario.registered).
  - apply registered_reachable.
  - vm_compute. reflexivity.
  - split; [vm_compute; reflexivity|]. eexists. split; vm_compute; reflexivity.
  - vm_compute. reflexivity.
Defined.

(** The rows the example creation leaves: one per distinct user. *)
Example create_of_alice_rows :
  (appRouter (H:=Scenario.host) 2200 (GroupCreateReq Scenario.create_of_alice)
     Scenario.registered).1 = inr (RGroupId 1)
  ∧ size (groupMembers (appRouter (H:=Scenario.host) 2200 (GroupCreateReq Scenario.create_of_alice)
                          Scenario.registered).2) = 2%nat
  ∧ groupMembers (appRouter (H:=Scenario.host) 2200 (GroupCreateReq Scenario.create_of_alice)
                    Scenario.registered).2 !! (1, Scenario.alice)
    = Some (GroupMembers.mk GroupMembers.owner 2200)
  ∧ groupMembers (appRouter (H:=Scenario.host) 2200 (GroupCreateReq Scenario.create_of_alice)
                    Scenario.registered).2 !! (1, Scenario.bob)
    = Some (GroupMembers.mk GroupMembers.member 2200).
Proof. repeat split; vm_compute; reflexivity. Qed.



(** The scenario of the spec: the member Bob may not add Carol, the owner
    Alice may; Bob, who is in the group, keeps the row he has. *)
Example addMembers_scenario :
  (appRouter (H:=Scenario.host) 2300 (GroupAddMembersReq Scenario.add_by_bob)
     Scenario.group_posted).1
  = inl (mkTRPCError FORBIDDEN "insufficient role")
  ∧ (appRouter (H:=Scenario.host) 2300 (GroupAddMembersReq Scenario.add_by_alice)
       Scenario.group_posted).1 = inr ROk
  ∧ groupMembers Scenario.group_posted !! (1, Scenario.bob)
    = Some (GroupMembers.mk GroupMembers.member 2100)
  ∧ groupMembers (appRouter (H:=Scenario.host) 2300 (GroupAddMembersReq Scenario.add_by_alice)
                    Scenario.group_posted).2 !! (1, Scenario.bob)
    = Some (GroupMembers.mk GroupMembers.member 2100)
  ∧ groupMembers (appRouter (H:=Scenario.host) 2300 (GroupAddMembersReq Scenario.add_by_alice)
                    Scenario.group_posted).2 !! (1, Scenario.carol)
    = Some (GroupMembers.mk GroupMembers.member 2300).
Proof. repeat split; vm_compute; reflexivity. Qed.

(** A member with role [admin] may add members as an owner may. No
    procedure hands out this role; the row is written into the table here. *)
Example addMembers_by_admin :
  let db :=
    set_groupMembers
      (<[(1, Scenario.bob) := GroupMembers.mk GroupMembers.admin 2100]>
         (groupMembers Scenario.group_posted))
      Scenario.group_posted in
  (appRouter (H:=Scenario.host) 2300 (GroupAddMembersReq Scenario.add_by_bob) db).1 = inr ROk
  ∧ groupMembers
      (appRouter (H:=Scenario.host) 2300 (GroupAddMembersReq Scenario.add_by_bob) db).2
      !! (1, Scenario.carol)
    = Some (GroupMembers.mk GroupMembers.member 2300).
Proof. split; vm_compute; reflexivity. Qed.

(** * Further properties of the relay *)

(** Evaluates the authentication of a request of the scenarios. *)
Ltac scenario_authenticates :=
  split;
    [split; [vm_compute; reflexivity|eexists; split; vm_compute; reflexivity]
    |vm_compute; reflexivity].

(** ** What a handler can raise *)

Section raises.
Context {E : Type} (P : E → Prop).

Lemma raises_ret {A} (a : A) : raises P (ret a).
Proof. by intros db e db'. Qed.

Lemma raises_query {A} (f : Db → A) : raises P (query f).
Proof. by intros db e db'. Qed.

Lemma raises_throw {A} (e : E) : P e → raises P (throw (A:=A) e).
Proof. intros He db e' db'. by intros [= <- _]. Qed.

Lemma raises_bind {A B} (m : M E A) (k : A → M E B) :
  raises P m → (∀ a, raises P (k a)) → raises P (bind m k).
Proof.
  intros Hm Hk db e db'. unfold bind.
  destruct (m db) as [[e1|a] db1] eqn:Em.
  - intros [= <- <-]. eauto.
  - apply Hk.
Qed.

End raises.

Lemma raises_uncaught (P : TRPCError → Prop) {A} (m : M string A) :
  (∀ e, P (mkTRPCError INTERNAL_SERVER_ERROR e)) → raises P (uncaught m).
Proof.
  intros HP db e db'. unfold uncaught. destruct (m db) as [[e1|a] db1]; [|done].
  by intros [= <- _].
Qed.

(** Steps through the body of a handler, collecting what it throws. *)
Ltac raises_step :=
  lazymatch goal with
  | |- raises _ (ret _) => apply raises_ret
  | |- raises _ (query _) => apply raises_query
  | |- raises _ (throw _) => apply raises_throw
  | |- raises _ (badRequest _) => apply raises_throw
  | |- raises _ (forbidden _) => apply raises_throw
  | |- raises _ (unauthorized _) => apply raises_throw
  | |- raises _ (uncaught _) => apply raises_uncaught; intros ?
  | |- raises _ (bind _ _) => apply raises_bind; [|intros ?]
  | |- raises _ (match ?x with _ => _ end) => destruct x
  end.

Section unauthorized.
Context `{Runtime}.

(** A handler that authenticates first answers [UNAUTHORIZED] only from
    the authentication, which has written nothing by then. *)
Lemma t_procedure_unauthorized {A} valid now procedure auth payload
    (body : string → M TRPCError A) wrap db e db' :
  (∀ userId, raises (λ e, code e ≠ UNAUTHORIZED) (body userId)) →
  t_procedure valid (bind (requireAuth now procedure auth payload) body) wrap db = (inl e, db') →
  code e = UNAUTHORIZED → db' = db.
Proof.
  intros Hbody. unfold t_procedure. destruct valid; [|by intros [= <- _]].
  unfold bind at 1. unfold bind at 1.
  destruct (requireAuth _ _ _ _ db) as [[e0|u] db0] eqn:Er; apply requireAuth_inv in Er.
  - destruct Er as [_ ->]. by intros [= _ <-].
  - destruct (body u db0) as [[e1|a] db1] eqn:Eb; [|done].
    intros [= <- _] Hc. by apply Hbody in Eb.
Qed.

(** X1. An [UNAUTHORIZED] answer means that nothing was written: whatever
    the procedure and the state, a request answered with that code leaves
    every table, the nonce table included, as it was. *)
Theorem unauthorized_writes_nothing now req db e db' :
  appRouter now req db = (inl e, db') → code e = UNAUTHORIZED → db' = db.
Proof.
  destruct req as [i|i|i|i|i|i|i|i|i|i|i|i]; simpl.
  2: { unfold t_procedure. destruct (IdentityGetBundle.schema i); [|by intros [= <- _]].
       unfold bind at 1.
       destruct (identity_getBundle i db) as [[e1|b] db1] eqn:Eb; [|done].
       intros [= <- _] Hc. exfalso. revert Eb Hc.
       assert (raises (λ e, code e ≠ UNAUTHORIZED) (identity_getBundle i)) as Hr.
       { unfold identity_getBundle. cbv zeta. repeat raises_step; done. }
       intros Eb. by apply Hr in Eb. }
  all: unfold identity_registerBundle, message_send, message_poll, message_ackDelete,
         group_create, group_addMembers, group_listMine, group_getMembers, group_post,
         group_poll, group_ackDelete; cbv zeta.
  all: apply t_procedure_unauthorized; intros userId; repeat raises_step; done.
Qed.

End unauthorized.

Lemma unauthorized_writes_nothing_witness :
  (appRouter (H:=Scenario.host) 4001 (MessagePollReq Scenario.poll_of_alice)
     Scenario.polled_once).2
  = Scenario.polled_once.
Proof.
  apply (unauthorized_writes_nothing (H:=Scenario.host) 4001
           (MessagePollReq Scenario.poll_of_alice) Scenario.polled_once
           (mkTRPCError UNAUTHORIZED "replayed request")).
  - vm_compute. reflexivity.
  - reflexivity.
Defined.

(** ** Requests that pass or fail authentication *)

Section accepted_requests.
Context `{Runtime}.

Lemma requireAuth_accepts now procedure auth payload db :
  authenticates procedure auth payload db →
  requireAuth now procedure auth payload db
  = (inr (AuthEnvelope.userId auth), record_nonce now auth db).
Proof. intros [Hv Hf]. by apply requireAuth_fresh. Qed.

(** The canonical form of a payload object always exists. *)
Lemma stableStringify_payload payload :
  Server.stableStringify localeCompare (JObj payload)
  = Some (default EmptyString (Server.stableStringify localeCompare (JObj payload))).
Proof. done. Qed.

(** X2. The checks of [assertAuthenticated] come before the nonce is
    recorded: an envelope whose [userId] is not derived from its public key
    is refused with "auth.userId mismatch" whatever its signature, one whose
    signature does not verify with "invalid signature", one whose operands
    the verification rejects with the message of that error; each time the
    answer is [UNAUTHORIZED] and the database, the nonce table included,
    is as it was, so that the pair can still be used. *)
Theorem forged_envelope_rejected now req procedure auth payload db :
  signed_request req = Some (procedure, auth, payload) →
  schema_of req = true →
  let verified :=
    nacl_sign_detached_verify (signed_message procedure auth payload)
      (decodeBase64Url (AuthEnvelope.signature auth))
      (decodeBase64Url (AuthEnvelope.identityPublicKey auth)) in
  (deriveUserId (AuthEnvelope.identityPublicKey auth) ≠ AuthEnvelope.userId auth →
   appRouter now req db = (inl (mkTRPCError UNAUTHORIZED "auth.userId mismatch"), db))
  ∧ (deriveUserId (AuthEnvelope.identityPublicKey auth) = AuthEnvelope.userId auth →
     verified = inr false →
     appRouter now req db = (inl (mkTRPCError UNAUTHORIZED "invalid signature"), db))
  ∧ (deriveUserId (AuthEnvelope.identityPublicKey auth) = AuthEnvelope.userId auth →
     ∀ e, verified = inl e →
     appRouter now req db = (inl (mkTRPCError UNAUTHORIZED e), db)).
Proof.
  intros Hreq Hschema verified. subst verified. unfold signed_message.
  repeat split.
  - intros Hne. eapply appRouter_unauthenticated; [done..|].
    unfold requireAuth, try_catch, assertAuthenticated.
    apply String.eqb_neq in Hne. by rewrite Hne.
  - intros Hid Hv. eapply appRouter_unauthenticated; [done..|].
    unfold requireAuth, try_catch, assertAuthenticated.
    rewrite Hid, String.eqb_refl. cbn [negb].
    rewrite stableStringify_payload. cbv iota beta zeta. by rewrite Hv.
  - intros Hid e Hv. eapply appRouter_unauthenticated; [done..|].
    unfold requireAuth, try_catch, assertAuthenticated.
    rewrite Hid, String.eqb_refl. cbn [negb].
    rewrite stableStringify_payload. cbv iota beta zeta. by rewrite Hv.
Qed.

End accepted_requests.

Lemma forged_envelope_rejected_witness :
  let verified :=
    nacl_sign_detached_verify (Runtime:=Scenario.host)
      (signed_message (H:=Scenario.host) "message.send"
         (MessageSend.auth Scenario.tampered_send)
         (MessageSend.payload Scenario.tampered_send))
      (decodeBase64Url (Runtime:=Scenario.host)
         (AuthEnvelope.signature (MessageSend.auth Scenario.tampered_send)))
      (decodeBase64Url (Runtime:=Scenario.host)
         (AuthEnvelope.identityPublicKey (MessageSend.auth Scenario.tampered_send))) in
  (deriveUserId (H:=Scenario.host)
     (AuthEnvelope.identityPublicKey (MessageSend.auth Scenario.tampered_send))
   ≠ AuthEnvelope.userId (MessageSend.auth Scenario.tampered_send) →
   appRouter (H:=Scenario.host) 2000 (MessageSendReq Scenario.tampered_send)
     Scenario.registered
   = (inl (mkTRPCError UNAUTHORIZED "auth.userId mismatch"), Scenario.registered))
  ∧ (deriveUserId (H:=Scenario.host)
       (AuthEnvelope.identityPublicKey (MessageSend.auth Scenario.tampered_send))
     = AuthEnvelope.userId (MessageSend.auth Scenario.tampered_send) →
     verified = inr false →
     appRouter (H:=Scenario.host) 2000 (MessageSendReq Scenario.tampered_send)
       Scenario.registered
     = (inl (mkTRPCError UNAUTHORIZED "invalid signature"), Scenario.registered))
  ∧ (deriveUserId (H:=Scenario.host)
       (AuthEnvelope.identityPublicKey (MessageSend.auth Scenario.tampered_send))
     = AuthEnvelope.userId (MessageSend.auth Scenario.tampered_send) →
     ∀ e, verified = inl e →
     appRouter (H:=Scenario.host) 2000 (MessageSendReq Scenario.tampered_send)
       Scenario.registered
     = (inl (mkTRPCError UNAUTHORIZED e), Scenario.registered)).
Proof.
  apply (forged_envelope_rejected (H:=Scenario.host) 2000
           (MessageSendReq Scenario.tampered_send) "message.send"
           (MessageSend.auth Scenario.tampered_send)
           (MessageSend.payload Scenario.tampered_send) Scenario.registered).
  - reflexivity.
  - vm_compute. reflexivity.
Defined.

(** The forged request of the scenario is of the second kind. *)
Example tampered_send_rejected :
  appRouter (H:=Scenario.host) 2000 (MessageSendReq Scenario.tampered_send)
    Scenario.registered
  = (inl (mkTRPCError UNAUTHORIZED "invalid signature"), Scenario.registered).
Proof. vm_compute. reflexivity. Qed.

(** ** The direct-message queue *)

Section message_queue.
Context `{Runtime}.

Lemma elem_of_List_filter {A} (f : A → bool) (l : list A) x :
  x ∈ List.filter f l ↔ x ∈ l ∧ f x = true.
Proof. rewrite !list_elem_of_In. apply filter_In. Qed.

(** The rows a poll selects, read with JavaScript's truthiness of [since]. *)
Lemma elem_of_message_poll_rows userId since db r :
  r ∈ message_poll_rows userId since db
  ↔ r ∈ messageQueue db ∧ MessageQueue.toUserId r = userId
    ∧ (truthy since = true → default 0 since < MessageQueue.createdAt r).
Proof.
  unfold message_poll_rows. cbv zeta. rewrite order_by_perm, elem_of_List_filter.
  unfold and_all. destruct (truthy since); simpl.
  - rewrite !andb_true_iff, !bool_decide_eq_true. naive_solver.
  - rewrite !andb_true_iff, !bool_decide_eq_true. naive_solver.
Qed.

Lemma message_poll_accepted now input db :
  MessagePoll.schema input = true →
  authenticates "message.poll" (MessagePoll.auth input) (MessagePoll.payload input) db →
  appRouter now (MessagePollReq input) db
  = (inr (RMessages (message_poll_rows (AuthEnvelope.userId (MessagePoll.auth input))
                       (MessagePoll.since input) db)),
     record_nonce now (MessagePoll.auth input) db).
Proof.
  intros Hschema Hauth. simpl. rewrite Hschema. unfold t_procedure, message_poll. cbv zeta.
  unfold bind. by rewrite (requireAuth_accepts _ _ _ _ _ Hauth).
Qed.

Lemma appRouter_message_send now input db q db1 :
  appRouter now (MessageSendReq input) db = (inr (RQueuedMsgId q), db1) →
  MessageSend.schema input = true ∧ message_send now input db = (inr q, db1).
Proof.
  simpl. unfold t_procedure. destruct (MessageSend.schema input); [|done].
  unfold bind at 1. destruct (message_send now input db) as [[e|q'] db1']; [done|].
  unfold ret. by intros [= <- <-].
Qed.

(** X3. A message that was accepted under a new [clientMsgId] is delivered:
    the recipient's next poll, with no threshold or with one below the
    message's [createdAt], returns the row as it was sent, under the id
    the send returned. *)
Theorem message_send_delivers now1 now2 send poll db q db1 :
  let toUserId := MessageSend.toUserId send in
  let fromUserId := AuthEnvelope.userId (MessageSend.auth send) in
  appRouter now1 (MessageSendReq send) db = (inr (RQueuedMsgId q), db1) →
  ¬ Exists (Sql.same_message toUserId fromUserId (MessageSend.clientMsgId send))
      (messageQueue db) →
  MessagePoll.schema poll = true →
  authenticates "message.poll" (MessagePoll.auth poll) (MessagePoll.payload poll) db1 →
  AuthEnvelope.userId (MessagePoll.auth poll) = toUserId →
  match MessagePoll.since poll with
  | Some T => T < MessageSend.createdAt send
  | None => True
  end →
  ∃ rows db2,
    appRouter now2 (MessagePollReq poll) db1 = (inr (RMessages rows), db2)
    ∧ MessageQueue.mk q toUserId fromUserId (MessageSend.ciphertext send)
        (MessageSend.header send) (MessageSend.clientMsgId send)
        (MessageSend.createdAt send) None ∈ rows.
Proof.
  intros toUserId fromUserId Hsend Hnew Hschema Hauth Hto Hsince. subst toUserId fromUserId.
  apply appRouter_message_send in Hsend as [_ Hsend].
  apply message_send_inr in Hsend as (_ & _ & [(HE & _)|(_ & Hq)]); [done|].
  eexists _, _. split; [by apply message_poll_accepted|].
  apply elem_of_message_poll_rows. unfold record_nonce. db_simpl.
  rewrite Hq. split; [apply elem_of_app; right; left|]. split; [done|].
  simpl. destruct (MessagePoll.since poll) as [T|]; simpl; [done|done].
Qed.

(** X4. What [message.send] refuses once the sender is authenticated: a
    recipient who is not registered is a [BAD_REQUEST] and only the nonce
    is recorded; a sender who never registered is stopped by the foreign
    key of [from_user_id], an [INTERNAL_SERVER_ERROR] that queues nothing. *)
Theorem message_send_rejected now input db :
  let toUserId := MessageSend.toUserId input in
  let fromUserId := AuthEnvelope.userId (MessageSend.auth input) in
  MessageSend.schema input = true →
  authenticates "message.send" (MessageSend.auth input) (MessageSend.payload input) db →
  (users db !! toUserId = None →
   appRouter now (MessageSendReq input) db
   = (inl (mkTRPCError BAD_REQUEST "target user not found"),
      record_nonce now (MessageSend.auth input) db))
  ∧ (is_Some (users db !! toUserId) → users db !! fromUserId = None →
     ¬ Exists (Sql.same_message toUserId fromUserId (MessageSend.clientMsgId input))
         (messageQueue db) →
     ∃ e db1,
       appRouter now (MessageSendReq input) db = (inl e, db1)
       ∧ code e = INTERNAL_SERVER_ERROR
       ∧ messageQueue db1 = messageQueue db).
Proof.
  intros toUserId fromUserId Hschema Hauth. subst toUserId fromUserId.
  split.
  - intros Hto. simpl. rewrite Hschema. unfold t_procedure, message_send. cbv zeta.
    unfold bind at 1. unfold bind at 1. rewrite (requireAuth_accepts _ _ _ _ _ Hauth).
    unfold bind at 1, query. unfold record_nonce at 1. db_simpl. by rewrite Hto.
  - intros [target Hto] Hfrom Hnew. simpl. rewrite Hschema.
    unfold t_procedure, message_send. cbv zeta.
    unfold bind at 1. unfold bind at 1. rewrite (requireAuth_accepts _ _ _ _ _ Hauth).
    unfold bind at 1, query. unfold record_nonce at 1. db_simpl. rewrite Hto.
    unfold bind at 1, uncaught, Sql.insert_messageQueue. unfold record_nonce. db_simpl.
    rewrite bool_decide_eq_false_2 by done.
    rewrite bool_decide_eq_false_2.
    2: { intros [_ [x Hx]]. by rewrite Hfrom in Hx. }
    eexists _, _. split; [done|]. done.
Qed.

(** X5. For an id within the range of the [integer] key (the database
    rejects a larger one before it runs the delete), [message.ackDelete]
    answers [{ ok: true }] to an authenticated caller and removes exactly
    the rows with the given id that are addressed to the caller: a row
    addressed to somebody else stays, whatever its id, so that nobody
    else's poll changes. *)
Theorem message_ackDelete_removes_own now input db :
  let userId := AuthEnvelope.userId (MessageAckDelete.auth input) in
  let queuedMsgId := MessageAckDelete.queuedMsgId input in
  MessageAckDelete.schema input = true →
  authenticates "message.ackDelete" (MessageAckDelete.auth input)
    (MessageAckDelete.payload input) db →
  Sql.int4 queuedMsgId = true →
  ∃ db1,
    appRouter now (MessageAckDeleteReq input) db = (inr ROk, db1)
    ∧ messageQueue db1 `sublist_of` messageQueue db
    ∧ (∀ r, r ∈ messageQueue db1
            ↔ r ∈ messageQueue db
              ∧ ¬ (MessageQueue.queuedMsgId r = queuedMsgId ∧ MessageQueue.toUserId r = userId))
    ∧ (∀ other since, other ≠ userId →
         message_poll_rows other since db1 = message_poll_rows other since db).
Proof.
  intros userId queuedMsgId Hschema Hauth _. subst userId queuedMsgId.
  simpl. rewrite Hschema. unfold t_procedure, message_ackDelete.
  unfold bind at 1. unfold bind at 1. rewrite (requireAuth_accepts _ _ _ _ _ Hauth).
  unfold bind, uncaught, exec, Sql.delete_messageQueue, ret. unfold record_nonce. db_simpl.
  eexists. split; [done|]. db_simpl. split; [apply sublist_filter|].
  split; [intros r; by rewrite list_elem_of_filter; naive_solver|].
  intros other since Hother. unfold message_poll_rows. cbv zeta. db_simpl. f_equal.
  induction (messageQueue db) as [|r l IH]; [done|].
  rewrite filter_cons. destruct (decide _) as [Hkeep|Hdrop].
  - cbn [List.filter]. rewrite IH. done.
  - cbn [List.filter]. rewrite IH.
    assert (MessageQueue.toUserId r = AuthEnvelope.userId (MessageAckDelete.auth input)) as Hr.
    { destruct (decide (MessageQueue.toUserId r
                        = AuthEnvelope.userId (MessageAckDelete.auth input))); [done|].
      exfalso. apply Hdrop. naive_solver. }
    unfold and_all at 2. cbn [forallb app].
    rewrite bool_decide_eq_false_2; [done|]. by rewrite Hr.
Qed.

End message_queue.

Lemma message_send_delivers_witness :
  ∃ rows db2,
    appRouter (H:=Scenario.host) 4000 (MessagePollReq Scenario.poll_of_bob)
      (appRouter (H:=Scenario.host) 2000 (MessageSendReq Scenario.first_send)
         Scenario.registered).2
    = (inr (RMessages rows), db2)
    ∧ MessageQueue.mk 1 Scenario.bob Scenario.alice "ciphertext-1" "hdr" "msg-1" 1700 None
      ∈ rows.
Proof.
  apply (message_send_delivers (H:=Scenario.host) 2000 4000 Scenario.first_send
           Scenario.poll_of_bob Scenario.registered 1
           (appRouter (H:=Scenario.host) 2000 (MessageSendReq Scenario.first_send)
              Scenario.registered).2).
  - vm_compute. reflexivity.
  - vm_compute. intros Hex. inversion Hex.
  - vm_compute. reflexivity.
  - scenario_authenticates.
  - reflexivity.
  - vm_compute. reflexivity.
Defined.

Lemma message_send_rejected_witness :
  (users Scenario.registered !! Scenario.dave = None →
   appRouter (H:=Scenario.host) 2000 (MessageSendReq Scenario.send_to_dave) Scenario.registered
   = (inl (mkTRPCError BAD_REQUEST "target user not found"),
      record_nonce 2000 (MessageSend.auth Scenario.send_to_dave) Scenario.registered))
  ∧ (is_Some (users Scenario.registered !! Scenario.dave) →
     users Scenario.registered !! Scenario.alice = None →
     ¬ Exists (Sql.same_message Scenario.dave Scenario.alice "msg-0")
         (messageQueue Scenario.registered) →
     ∃ e db1,
       appRouter (H:=Scenario.host) 2000 (MessageSendReq Scenario.send_to_dave)
         Scenario.registered = (inl e, db1)
       ∧ code e = INTERNAL_SERVER_ERROR
       ∧ messageQueue db1 = messageQueue Scenario.registered).
Proof.
  apply (message_send_rejected (H:=Scenario.host) 2000 Scenario.send_to_dave
           Scenario.registered).
  - vm_compute. reflexivity.
  - scenario_authenticates.
Defined.

Lemma message_ackDelete_removes_own_witness :
  ∃ db1,
    appRouter (H:=Scenario.host) 5000 (MessageAckDeleteReq Scenario.ack_by_bob)
      Scenario.two_queued = (inr ROk, db1)
    ∧ messageQueue db1 `sublist_of` messageQueue Scenario.two_queued
    ∧ (∀ r, r ∈ messageQueue db1
            ↔ r ∈ messageQueue Scenario.two_queued
              ∧ ¬ (MessageQueue.queuedMsgId r = 1 ∧ MessageQueue.toUserId r = Scenario.bob))
    ∧ (∀ other since, other ≠ Scenario.bob →
         message_poll_rows other since db1
         = message_poll_rows other since Scenario.two_queued).
Proof.
  apply (message_ackDelete_removes_own (H:=Scenario.host) 5000 Scenario.ack_by_bob
           Scenario.two_queued).
  - vm_compute. reflexivity.
  - scenario_authenticates.
  - reflexivity.
Defined.

(** ** What no procedure takes back *)

#[local] Instance grows_preorder : PreOrder grows.
Proof.
  split.
  - intros db. split; try done. eauto.
  - intros x y z [X1 X2 X3 X4 X5 X6 X7 X8 X9] [Y1 Y2 Y3 Y4 Y5 Y6 Y7 Y8 Y9].
    split; try (by etrans); try lia.
    intros u r Hu. destruct (X1 u r Hu) as (r' & Hr' & Hc).
    destruct (Y1 u r' Hr') as (r'' & Hr'' & Hc'). exists r''. split; [done|congruence].
Qed.

Section grows.
Context `{Runtime}.

Lemma grows_ext db db' :
  users db' = users db → groups db' = groups db → groupMembers db' = groupMembers db →
  groupMessageQueue db' = groupMessageQueue db → authNonces db' = authNonces db →
  prekeys_id_seq db ≤ prekeys_id_seq db' →
  messageQueue_id_seq db ≤ messageQueue_id_seq db' →
  groups_id_seq db' = groups_id_seq db →
  groupMessageQueue_id_seq db' = groupMessageQueue_id_seq db →
  grows db db'.
Proof.
  intros Hu Hg Hm Hq Hn Hp Hs Hgs Hqs.
  split; rewrite ?Hu, ?Hg, ?Hm, ?Hq, ?Hn, ?Hgs, ?Hqs; try done. eauto.
Qed.

Lemma grows_requireAuth now procedure auth payload :
  preserves grows (requireAuth now procedure auth payload).
Proof.
  intros db. destruct (requireAuth _ _ _ _ db) as [[e|u] db'] eqn:Er;
    apply requireAuth_inv in Er; simpl.
  - destruct Er as [_ ->]. reflexivity.
  - destruct Er as (_ & _ & Hf & ->). split; simpl; try done; [eauto|].
    by apply insert_subseteq.
Qed.

Lemma grows_upsert_users userId ipk sipk registrationId now :
  preserves grows (exec (Sql.upsert_users userId ipk sipk registrationId now)).
Proof.
  apply preserves_exec; [apply _|]. intros db db'. unfold Sql.upsert_users.
  do 2 (case_match; [done|]). intros [= <-]. split; simpl; try done.
  intros u r Hu. destruct (decide (userId = u)) as [->|Hne].
  - rewrite lookup_insert_eq, Hu. eauto.
  - rewrite lookup_insert_ne by done. eauto.
Qed.

Lemma grows_insert_groups name createdAt createdByUserId :
  preserves grows (Sql.insert_groups name createdAt createdByUserId).
Proof.
  intros db. unfold Sql.insert_groups. case_match; simpl.
  - split; simpl; try done; [eauto|by apply prefix_app_r|lia].
  - split; simpl; try done; [eauto|lia].
Qed.

Lemma grows_insert_groupMembers rows :
  preserves grows (exec (Sql.insert_groupMembers rows)).
Proof.
  apply preserves_exec; [apply _|]. intros db db'. unfold Sql.insert_groupMembers.
  case_bool_decide as Hpk; [|done]. case_bool_decide as Hfk; [|done].
  intros [= <-]. split; simpl; try done; [eauto|].
  apply map_union_subseteq_r. apply map_disjoint_spec. intros k x y Hx Hy.
  destruct Hpk as [_ Hpk]. rewrite Forall_forall in Hpk.
  apply elem_of_list_to_map_2 in Hx.
  rewrite (Hpk k) in Hy; [done|]. apply list_elem_of_fmap. by exists (k, x).
Qed.

Lemma grows_insert_groupMembers_onConflictDoNothing rows :
  preserves grows (exec (Sql.insert_groupMembers_onConflictDoNothing rows)).
Proof.
  apply preserves_exec; [apply _|]. intros db db'.
  unfold Sql.insert_groupMembers_onConflictDoNothing.
  case_bool_decide as Hfk; [|done]. intros [= <-]. split; simpl; try done; [eauto|].
  rewrite foldl_insert_if_absent. apply map_union_subseteq_l.
Qed.

Lemma grows_insert_groupMessageQueue groupId fromUserId ciphertext header clientMsgId
    createdAt :
  preserves grows
    (Sql.insert_groupMessageQueue groupId fromUserId ciphertext header clientMsgId createdAt).
Proof.
  intros db. unfold Sql.insert_groupMessageQueue.
  repeat case_bool_decide; simpl; split; simpl; try done; eauto; try lia.
  by apply prefix_app_r.
Qed.

Ltac statement_grows :=
  first
    [ apply grows_requireAuth
    | apply grows_upsert_users
    | apply grows_insert_groups
    | apply grows_insert_groupMembers
    | apply grows_insert_groupMembers_onConflictDoNothing
    | apply grows_insert_groupMessageQueue
    | apply preserves_exec; [apply _|]; intros db db';
      unfold Sql.delete_prekeys, Sql.update_prekey_used, Sql.delete_messageQueue;
      intros [= <-]; by apply grows_ext
    | intros db; unfold Sql.insert_prekeys, Sql.insert_messageQueue;
      repeat case_match; simpl; apply grows_ext; simpl; try done; lia ].

Lemma appRouter_grows now req : preserves grows (appRouter now req).
Proof.
  destruct req; simpl; unfold_handlers; frame; statement_grows.
Qed.

(** X6. Nothing but pre-keys and acknowledged direct messages is ever
    taken out of the database: whatever requests are handled, every user
    stays registered with the same [createdAt], every group, every
    membership row (role and [joinedAt] included), every group message and
    every nonce pair stays as it is, and no sequence goes back. *)
Theorem nothing_taken_back trace db : grows db (serve trace db).2.
Proof.
  revert db. induction trace as [|[now req] trace IH]; intros db; simpl; [reflexivity|].
  pose proof (appRouter_grows now req db) as Hstep.
  destruct (appRouter now req db) as [out db1]. specialize (IH db1).
  destruct (serve trace db1) as [outs db2]. simpl in *. by etrans.
Qed.

End grows.

(** ** The constraints of the schema hold in every reachable state *)

Section serial.
Context {A : Type} (key : A → Z).

Lemma StronglySorted_sublist (R : relation A) l1 l2 :
  l1 `sublist_of` l2 → StronglySorted R l2 → StronglySorted R l1.
Proof.
  induction 1 as [|x l1 l2 Hs IH|x l1 l2 Hs IH]; intros Hl2; [done| |].
  - apply StronglySorted_cons in Hl2 as [Hx Hl2]. constructor; [by apply IH|].
    rewrite Forall_forall in Hx |- *. intros y Hy. apply Hx. by eapply elem_of_sublist.
  - apply StronglySorted_cons in Hl2 as [_ Hl2]. by apply IH.
Qed.

Lemma Forall_sublist (P : A → Prop) l1 l2 :
  l1 `sublist_of` l2 → Forall P l2 → Forall P l1.
Proof.
  rewrite !Forall_forall. intros Hs Hl2 x Hx. apply Hl2. by eapply elem_of_sublist.
Qed.

Lemma serial_ok_seq rows seq seq' :
  serial_ok key rows seq → seq ≤ seq' → serial_ok key rows seq'.
Proof.
  intros (H1 & Hs & Hb) Hle. split; [lia|]. split; [done|].
  eapply Forall_impl; [done|]. simpl. intros r Hr. lia.
Qed.

Lemma serial_ok_sublist rows rows' seq :
  rows' `sublist_of` rows → serial_ok key rows seq → serial_ok key rows' seq.
Proof.
  intros Hsub (H1 & Hs & Hb). split; [done|].
  split; [by eapply StronglySorted_sublist|by eapply Forall_sublist].
Qed.

Lemma serial_ok_snoc rows seq x :
  serial_ok key rows seq → key x = seq → serial_ok key (rows ++ [x]) (seq + 1).
Proof.
  intros (H1 & Hs & Hb) Hx. split; [lia|]. split.
  - apply StronglySorted_app_2; [|done|repeat constructor].
    intros a b Ha Hb'. apply list_elem_of_singleton in Hb' as ->.
    rewrite Forall_forall in Hb. specialize (Hb a Ha). lia.
  - apply Forall_app. split; [|repeat constructor; lia].
    eapply Forall_impl; [done|]. simpl. intros r Hr. lia.
Qed.

Lemma serial_ok_map (f : A → A) rows seq :
  (∀ r, key (f r) = key r) → serial_ok key rows seq → serial_ok key (map f rows) seq.
Proof.
  intros Hf (H1 & Hs & Hb). split; [done|]. split.
  - clear Hb. induction Hs as [|x l Hl IH Hx]; simpl; constructor; [done|].
    rewrite Forall_forall in Hx |- *. intros y Hy.
    apply list_elem_of_fmap in Hy as (z & -> & Hz). rewrite !Hf. by apply Hx.
  - rewrite Forall_forall in Hb |- *. intros y Hy.
    apply list_elem_of_fmap in Hy as (z & -> & Hz). rewrite Hf. by apply Hb.
Qed.

Lemma serial_ok_number_from {B} (mk : Z → B → A) rows seq items :
  (∀ id x, key (mk id x) = id) →
  serial_ok key rows seq →
  serial_ok key (rows ++ Sql.number_from mk seq items) (seq + Z.of_nat (length items)).
Proof.
  intros Hmk. revert rows seq. induction items as [|x items IH]; intros rows seq Hok; simpl.
  { rewrite app_nil_r. eapply serial_ok_seq; [done|lia]. }
  replace (seq + Z.of_nat (S (length items)))
    with ((seq + 1) + Z.of_nat (length items)) by lia.
  rewrite (cons_middle _ rows), app_assoc. apply IH. by apply serial_ok_snoc.
Qed.

(** A serial key identifies the row. *)
Lemma serial_ok_inj rows seq r1 r2 :
  serial_ok key rows seq → r1 ∈ rows → r2 ∈ rows → key r1 = key r2 → r1 = r2.
Proof.
  intros (_ & Hs & _). induction Hs as [|x l Hl IH Hx]; intros H1 H2 Hk.
  { by apply elem_of_nil in H1. }
  rewrite Forall_forall in Hx.
  apply elem_of_cons in H1 as [->|H1], H2 as [->|H2]; try done.
  - specialize (Hx _ H2). lia.
  - specialize (Hx _ H1). lia.
  - by apply IH.
Qed.

Lemma serial_ok_NoDup rows seq : serial_ok key rows seq → NoDup (map key rows).
Proof.
  intros (_ & Hs & _). induction Hs as [|x l Hl IH Hx]; simpl; constructor; [|done].
  rewrite Forall_forall in Hx. intros Hin.
  apply list_elem_of_fmap in Hin as (y & Hy & Hin). specialize (Hx _ Hin). lia.
Qed.

End serial.

#[local] Instance keeps_constraints_preorder : PreOrder keeps_constraints.
Proof. split; unfold keeps_constraints; [by intros ?|]. intros x y z Hxy Hyz Hx. auto. Qed.

Section constraints.
Context `{Runtime}.

Lemma empty_db_constraints : constraints_ok empty_db.
Proof.
  split; simpl; try done; try (by repeat split; try constructor); try constructor.
  all: intros u v r s Hu; by rewrite lookup_empty in Hu.
Qed.

Lemma keeps_constraints_requireAuth now procedure auth payload :
  preserves keeps_constraints (requireAuth now procedure auth payload).
Proof.
  intros db. destruct (requireAuth _ _ _ _ db) as [[e|u] db'] eqn:Er;
    apply requireAuth_inv in Er; simpl.
  - destruct Er as [_ ->]. reflexivity.
  - destruct Er as (_ & _ & _ & ->). intros []. by split.
Qed.

Lemma keeps_constraints_groupMembers (f : Db → string + Db) :
  (∀ db db', f db = inr db' → ∃ v, db' = set_groupMembers v db) →
  preserves keeps_constraints (exec f).
Proof.
  intros Hf. apply preserves_exec; [apply _|]. intros db db' Hdb.
  destruct (Hf _ _ Hdb) as (v & ->). intros []. by split.
Qed.

(** The insert of a user is refused when another row holds one of its keys. *)
Lemma upsert_users_inr userId ipk sipk registrationId now db db' :
  Sql.upsert_users userId ipk sipk registrationId now db = inr db' →
  (∀ v s, users db !! v = Some s → v ≠ userId →
          Users.identityPublicKey s ≠ ipk ∧ Users.signalIdentityPublicKey s ≠ sipk)
  ∧ ∃ createdAt,
      db' = set_users (<[userId := Users.mk ipk sipk registrationId createdAt]> (users db)) db
      ∧ createdAt = match users db !! userId with
                    | Some old => Users.createdAt old
                    | None => now
                    end.
Proof.
  unfold Sql.upsert_users. destruct (negb _); [done|].
  destruct (existsb _ _) eqn:Hex; [done|]. intros [= <-].
  split; [|eauto].
  intros v s Hv Hne.
  assert (¬ (Users.identityPublicKey s = ipk ∨ Users.signalIdentityPublicKey s = sipk)) as Hn.
  { intros Heq. apply not_true_iff_false in Hex. apply Hex. apply existsb_exists.
    exists (v, s). split; [by apply list_elem_of_In, elem_of_map_to_list|]. simpl.
    apply andb_true_iff. split.
    - apply negb_true_iff, String.eqb_neq. done.
    - apply orb_true_iff. rewrite !String.eqb_eq. done. }
  split; intros Heq; apply Hn; auto.
Qed.

Lemma keeps_constraints_upsert_users userId ipk sipk registrationId now :
  preserves keeps_constraints (exec (Sql.upsert_users userId ipk sipk registrationId now)).
Proof.
  apply preserves_exec; [apply _|]. intros db db' Hup.
  apply upsert_users_inr in Hup as (Hother & createdAt & -> & _).
  assert (∀ u, is_Some (users db !! u) →
               is_Some (<[userId := Users.mk ipk sipk registrationId createdAt]> (users db)
                          !! u)) as Hmono.
  { intros u Hu. destruct (decide (userId = u)) as [->|Hne].
    - rewrite lookup_insert_eq. eauto.
    - by rewrite lookup_insert_ne. }
  intros [C1 C2 C3 C4 C5 C6 C7 C8 C9 C10 C11 C12 C13 C14]. split; db_simpl; try done.
  - intros u v r s Hu Hv Heq.
    destruct (decide (u = userId)) as [->|Hnu], (decide (v = userId)) as [->|Hnv]; try done.
    + rewrite lookup_insert_eq in Hu. rewrite lookup_insert_ne in Hv by congruence.
      injection Hu as <-. simpl in Heq. destruct (Hother v s Hv) as [Hi _]; [done|]. congruence.
    + rewrite lookup_insert_eq in Hv. rewrite lookup_insert_ne in Hu by congruence.
      injection Hv as <-. simpl in Heq. destruct (Hother u r Hu) as [Hi _]; [done|]. congruence.
    + rewrite lookup_insert_ne in Hu, Hv by congruence. eauto.
  - intros u v r s Hu Hv Heq.
    destruct (decide (u = userId)) as [->|Hnu], (decide (v = userId)) as [->|Hnv]; try done.
    + rewrite lookup_insert_eq in Hu. rewrite lookup_insert_ne in Hv by congruence.
      injection Hu as <-. simpl in Heq. destruct (Hother v s Hv) as [_ Hi]; [done|]. congruence.
    + rewrite lookup_insert_eq in Hv. rewrite lookup_insert_ne in Hu by congruence.
      injection Hv as <-. simpl in Heq. destruct (Hother u r Hu) as [_ Hi]; [done|]. congruence.
    + rewrite lookup_insert_ne in Hu, Hv by congruence. eauto.
  - eapply Forall_impl; [exact C4|]. simpl. intros r Hr. by apply Hmono.
  - eapply Forall_impl; [exact C8|]. simpl. intros r [? ?]. split; by apply Hmono.
  - eapply Forall_impl; [exact C10|]. simpl. intros r Hr. by apply Hmono.
  - eapply Forall_impl; [exact C13|]. simpl. intros r [? ?]. split; [done|by apply Hmono].
Qed.

Lemma keeps_constraints_delete_prekeys userId :
  preserves keeps_constraints (exec (Sql.delete_prekeys userId)).
Proof.
  apply preserves_exec; [apply _|]. intros db db'. unfold Sql.delete_prekeys. intros [= <-].
  intros [C1 C2 C3 C4 C5 C6 C7 C8 C9 C10 C11 C12 C13 C14]. split; db_simpl; try done.
  - eapply serial_ok_sublist; [apply sublist_filter|done].
  - eapply Forall_sublist; [apply sublist_filter|done].
  - eapply Forall_sublist; [apply sublist_filter|done].
Qed.

Lemma Forall_number_from {A B} (P : B → Prop) (mk : Z → A → B) next items :
  (∀ id x, P (mk id x)) → Forall P (Sql.number_from mk next items).
Proof.
  intros HP. revert next. induction items as [|x items IH]; intros next; simpl; constructor; auto.
Qed.

Lemma keeps_constraints_insert_prekeys userId signedPreKey items now :
  preserves keeps_constraints (Sql.insert_prekeys userId signedPreKey items now).
Proof.
  intros db. unfold Sql.insert_prekeys. cbv zeta.
  destruct (negb _); [done|].
  destruct (users db !! userId) as [u|] eqn:Eu; simpl.
  - intros [C1 C2 C3 C4 C5 C6 C7 C8 C9 C10 C11 C12 C13 C14]. split; db_simpl; try done.
    + by apply serial_ok_number_from.
    + apply Forall_app. split; [done|]. apply Forall_number_from. intros id x. simpl. eauto.
    + apply Forall_app. split; [done|]. apply Forall_number_from. intros id x. simpl. eauto.
  - intros [C1 C2 C3 C4 C5 C6 C7 C8 C9 C10 C11 C12 C13 C14]. split; db_simpl; try done.
    eapply serial_ok_seq; [done|lia].
Qed.

Lemma keeps_constraints_update_prekey_used id :
  preserves keeps_constraints (exec (Sql.update_prekey_used id)).
Proof.
  apply preserves_exec; [apply _|]. intros db db'. unfold Sql.update_prekey_used.
  intros [= <-].
  intros [C1 C2 C3 C4 C5 C6 C7 C8 C9 C10 C11 C12 C13 C14]. split; db_simpl; try done.
  - apply serial_ok_map; [|done]. intros r. by case_bool_decide.
  - rewrite Forall_forall in C4 |- *. intros r Hr.
    apply list_elem_of_fmap in Hr as (r0 & -> & Hr0). specialize (C4 _ Hr0).
    by case_bool_decide.
  - rewrite Forall_forall in C5 |- *. intros r Hr.
    apply list_elem_of_fmap in Hr as (r0 & -> & Hr0). specialize (C5 _ Hr0).
    by case_bool_decide.
Qed.

Lemma keeps_constraints_insert_messageQueue toUserId fromUserId ciphertext header clientMsgId
    createdAt :
  preserves keeps_constraints
    (Sql.insert_messageQueue toUserId fromUserId ciphertext header clientMsgId createdAt).
Proof.
  intros db. unfold Sql.insert_messageQueue. cbv zeta.
  case_bool_decide as Hsame; [|case_bool_decide as Hfk]; simpl.
  - intros [C1 C2 C3 C4 C5 C6 C7 C8 C9 C10 C11 C12 C13 C14]. split; db_simpl; try done.
    eapply serial_ok_seq; [done|lia].
  - intros [C1 C2 C3 C4 C5 C6 C7 C8 C9 C10 C11 C12 C13 C14]. split; db_simpl; try done.
    + by apply serial_ok_snoc.
    + rewrite map_app. apply NoDup_app. split; [done|]. split; [|apply NoDup_singleton].
      intros k Hk Hk'. simpl in Hk'. apply list_elem_of_singleton in Hk' as ->.
      apply list_elem_of_fmap in Hk as (r & Hr & Hin). apply Hsame.
      apply Exists_exists. exists r. split; [done|]. unfold message_key in Hr.
      unfold Sql.same_message. by simplify_eq/=.
    + apply Forall_app. split; [done|]. apply Forall_singleton. simpl. done.
  - intros [C1 C2 C3 C4 C5 C6 C7 C8 C9 C10 C11 C12 C13 C14]. split; db_simpl; try done.
    eapply serial_ok_seq; [done|lia].
Qed.

Lemma keeps_constraints_delete_messageQueue queuedMsgId toUserId :
  preserves keeps_constraints (exec (Sql.delete_messageQueue queuedMsgId toUserId)).
Proof.
  apply preserves_exec; [apply _|]. intros db db'. unfold Sql.delete_messageQueue.
  intros [= <-].
  intros [C1 C2 C3 C4 C5 C6 C7 C8 C9 C10 C11 C12 C13 C14]. split; db_simpl; try done.
  - eapply serial_ok_sublist; [apply sublist_filter|done].
  - eapply sublist_NoDup; [done|]. apply fmap_sublist, sublist_filter.
  - eapply Forall_sublist; [apply sublist_filter|done].
Qed.

Lemma keeps_constraints_insert_groups name createdAt createdByUserId :
  preserves keeps_constraints (Sql.insert_groups name createdAt createdByUserId).
Proof.
  intros db. unfold Sql.insert_groups. cbv zeta.
  destruct (users db !! createdByUserId) as [u|] eqn:Eu; simpl.
  - intros [C1 C2 C3 C4 C5 C6 C7 C8 C9 C10 C11 C12 C13 C14]. split; db_simpl; try done.
    + by apply serial_ok_snoc.
    + apply Forall_app. split; [done|]. apply Forall_singleton. simpl. eauto.
    + eapply Forall_impl; [exact C13|]. simpl. intros r [Hg Hu]. split; [|done].
      apply Exists_app. by left.
  - intros [C1 C2 C3 C4 C5 C6 C7 C8 C9 C10 C11 C12 C13 C14]. split; db_simpl; try done.
    eapply serial_ok_seq; [done|lia].
Qed.

Lemma keeps_constraints_insert_groupMessageQueue groupId fromUserId ciphertext header
    clientMsgId createdAt :
  0 < createdAt →
  preserves keeps_constraints
    (Sql.insert_groupMessageQueue groupId fromUserId ciphertext header clientMsgId createdAt).
Proof.
  intros Hpos db. unfold Sql.insert_groupMessageQueue. cbv zeta.
  case_bool_decide as Hsame; [|case_bool_decide as Hfk]; simpl.
  - intros [C1 C2 C3 C4 C5 C6 C7 C8 C9 C10 C11 C12 C13 C14]. split; db_simpl; try done.
    eapply serial_ok_seq; [done|lia].
  - intros [C1 C2 C3 C4 C5 C6 C7 C8 C9 C10 C11 C12 C13 C14]. split; db_simpl; try done.
    + by apply serial_ok_snoc.
    + rewrite map_app. apply NoDup_app. split; [done|]. split; [|apply NoDup_singleton].
      intros k Hk Hk'. simpl in Hk'. apply list_elem_of_singleton in Hk' as ->.
      apply list_elem_of_fmap in Hk as (r & Hr & Hin). apply Hsame.
      apply Exists_exists. exists r. split; [done|]. unfold group_message_key in Hr.
      unfold Sql.same_group_message. by simplify_eq/=.
    + apply Forall_app. split; [done|]. apply Forall_singleton. simpl. done.
    + apply Forall_app. split; [done|]. apply Forall_singleton. simpl. done.
  - intros [C1 C2 C3 C4 C5 C6 C7 C8 C9 C10 C11 C12 C13 C14]. split; db_simpl; try done.
    eapply serial_ok_seq; [done|lia].
Qed.

Ltac statement_keeps_constraints :=
  first
    [ apply keeps_constraints_requireAuth
    | apply keeps_constraints_upsert_users
    | apply keeps_constraints_delete_prekeys
    | apply keeps_constraints_insert_prekeys
    | apply keeps_constraints_update_prekey_used
    | apply keeps_constraints_insert_messageQueue
    | apply keeps_constraints_delete_messageQueue
    | apply keeps_constraints_insert_groups
    | apply keeps_constraints_groupMembers; intros db db';
      unfold Sql.insert_groupMembers, Sql.insert_groupMembers_onConflictDoNothing;
      repeat case_bool_decide; intros; simplify_eq; eauto ].

Lemma GroupPost_schema_createdAt input :
  GroupPost.schema input = true → 0 < GroupPost.createdAt input.
Proof.
  unfold GroupPost.schema, Zod.positive. rewrite !andb_true_iff. intros (_ & Hpos). lia.
Qed.

Lemma appRouter_keeps_constraints now req : preserves keeps_constraints (appRouter now req).
Proof.
  destruct req as [i|i|i|i|i|i|i|i|i|i|i|i]; simpl.
  10: { unfold t_procedure. destruct (GroupPost.schema i) eqn:Hs; [|by frame].
        apply GroupPost_schema_createdAt in Hs.
        unfold group_post. cbv zeta. frame; try statement_keeps_constraints.
        by apply keeps_constraints_insert_groupMessageQueue. }
  all: unfold_handlers; frame; statement_keeps_constraints.
Qed.

Lemma serve_keeps_constraints trace db : keeps_constraints db (serve trace db).2.
Proof.
  revert db. induction trace as [|[now req] trace IH]; intros db; simpl; [reflexivity|].
  pose proof (appRouter_keeps_constraints now req db) as Hstep.
  destruct (appRouter now req db) as [out db1]. specialize (IH db1).
  destruct (serve trace db1) as [outs db2]. simpl in *. by etrans.
Qed.

Lemma constraints_reachable db : reachable db → constraints_ok db.
Proof. intros [trace ->]. apply serve_keeps_constraints, empty_db_constraints. Qed.

(** X7. Every state the server reaches from the empty database, whatever
    the requests it has handled, satisfies the constraints [schema.ts]
    declares, and what the input schemas add to them: serial ids are
    distinct, ascending and below their sequence; no two users share an
    identity key or a Signal identity key; no two queued messages share
    [(toUserId, fromUserId, clientMsgId)], no two group messages
    [(groupId, fromUserId, clientMsgId)]; pre-keys, messages, groups and
    group messages refer to registered users (and existing groups); every
    pre-key row carries a one-time pre-key; group messages carry a positive
    [createdAt]. *)
Theorem reachable_constraints trace : constraints_ok (serve trace empty_db).2.
Proof. apply serve_keeps_constraints, empty_db_constraints. Qed.

End constraints.

Lemma two_queued_reachable : reachable (H:=Scenario.host) Scenario.two_queued.
Proof. by exists (Scenario.registration ++ Scenario.sends_to_bob). Qed.

(** ** Acknowledged messages *)

#[local] Instance stays_retired_preorder q : PreOrder (stays_retired q).
Proof. split; unfold stays_retired; [by intros ?|]. intros x y z Hxy Hyz Hx. auto. Qed.

Section retired.
Context `{Runtime}.

Lemma stays_retired_ext q db db' :
  messageQueue db' = messageQueue db → messageQueue_id_seq db' = messageQueue_id_seq db →
  stays_retired q db db'.
Proof. unfold stays_retired, retired. by intros -> ->. Qed.

Lemma stays_retired_requireAuth q now procedure auth payload :
  preserves (stays_retired q) (requireAuth now procedure auth payload).
Proof.
  intros db. destruct (requireAuth _ _ _ _ db) as [[e|u] db'] eqn:Er;
    apply requireAuth_inv in Er; simpl.
  - destruct Er as [_ ->]. reflexivity.
  - destruct Er as (_ & _ & _ & ->). by apply stays_retired_ext.
Qed.

Lemma stays_retired_insert_messageQueue q toUserId fromUserId ciphertext header clientMsgId
    createdAt :
  preserves (stays_retired q)
    (Sql.insert_messageQueue toUserId fromUserId ciphertext header clientMsgId createdAt).
Proof.
  intros db. unfold Sql.insert_messageQueue. cbv zeta.
  repeat case_bool_decide; simpl; intros [Hq Hall]; split; db_simpl; try lia; try done.
  apply Forall_app. split; [done|]. apply Forall_singleton. simpl. lia.
Qed.

Lemma stays_retired_delete_messageQueue q queuedMsgId toUserId :
  preserves (stays_retired q) (exec (Sql.delete_messageQueue queuedMsgId toUserId)).
Proof.
  apply preserves_exec; [apply _|]. intros db db'. unfold Sql.delete_messageQueue.
  intros [= <-] [Hq Hall]. split; db_simpl; [done|].
  eapply Forall_sublist; [apply sublist_filter|done].
Qed.

Ltac statement_stays_retired :=
  first
    [ apply stays_retired_requireAuth
    | apply stays_retired_insert_messageQueue
    | apply stays_retired_delete_messageQueue
    | apply preserves_exec; [apply _|]; intros db db';
      unfold Sql.upsert_users, Sql.delete_prekeys, Sql.update_prekey_used,
        Sql.insert_groupMembers, Sql.insert_groupMembers_onConflictDoNothing;
      repeat case_match; intros; simplify_eq; by apply stays_retired_ext
    | intros db; unfold Sql.insert_prekeys, Sql.insert_groups, Sql.insert_groupMessageQueue;
      repeat case_match; by apply stays_retired_ext ].

Lemma appRouter_stays_retired q now req : preserves (stays_retired q) (appRouter now req).
Proof.
  destruct req; simpl; unfold_handlers; frame; statement_stays_retired.
Qed.

Lemma serve_stays_retired q trace db : stays_retired q db (serve trace db).2.
Proof.
  revert db. induction trace as [|[now req] trace IH]; intros db; simpl; [reflexivity|].
  pose proof (appRouter_stays_retired q now req db) as Hstep.
  destruct (appRouter now req db) as [out db1]. specialize (IH db1).
  destruct (serve trace db1) as [outs db2]. simpl in *. by etrans.
Qed.

Lemma serve_cons now req trace db :
  serve ((now, req) :: trace) db
  = let '(out, db') := appRouter now req db in
    let '(outs, db'') := serve trace db' in
    (out :: outs, db'').
Proof. done. Qed.

Lemma message_ackDelete_accepted now input db :
  MessageAckDelete.schema input = true →
  authenticates "message.ackDelete" (MessageAckDelete.auth input)
    (MessageAckDelete.payload input) db →
  appRouter now (MessageAckDeleteReq input) db
  = (inr ROk,
     set_messageQueue
       (filter (λ r, ¬ (MessageQueue.queuedMsgId r = MessageAckDelete.queuedMsgId input
                        ∧ MessageQueue.toUserId r
                          = AuthEnvelope.userId (MessageAckDelete.auth input)))
          (messageQueue db))
       (messageQueue_id_seq db) (record_nonce now (MessageAckDelete.auth input) db)).
Proof.
  intros Hschema Hauth.
  simpl. rewrite Hschema. unfold t_procedure, message_ackDelete.
  unfold bind at 1. unfold bind at 1. rewrite (requireAuth_accepts _ _ _ _ _ Hauth).
  unfold bind, uncaught, exec, Sql.delete_messageQueue, ret. unfold record_nonce. db_simpl.
  done.
Qed.

(** X8. A message acknowledged by its recipient is gone for good: after
    [message.ackDelete] by the user a queued row is addressed to, no row
    carries that [queuedMsgId], and none will whatever requests follow,
    since the sequence never hands the id out again. *)
Theorem acknowledged_message_gone now input trace db r :
  reachable db →
  MessageAckDelete.schema input = true →
  authenticates "message.ackDelete" (MessageAckDelete.auth input)
    (MessageAckDelete.payload input) db →
  r ∈ messageQueue db →
  MessageQueue.queuedMsgId r = MessageAckDelete.queuedMsgId input →
  MessageQueue.toUserId r = AuthEnvelope.userId (MessageAckDelete.auth input) →
  Forall (λ r', MessageQueue.queuedMsgId r' ≠ MessageAckDelete.queuedMsgId input)
    (messageQueue (serve ((now, MessageAckDeleteReq input) :: trace) db).2).
Proof.
  intros Hreach Hschema Hauth Hr Hid Hto.
  apply constraints_reachable in Hreach as [_ _ _ _ _ Hserial _ _ _ _ _ _ _ _].
  rewrite serve_cons, (message_ackDelete_accepted _ _ _ Hschema Hauth).
  match goal with |- context [serve trace ?d] =>
    pose proof (serve_stays_retired (MessageAckDelete.queuedMsgId input) trace d) as Hkeep;
    destruct (serve trace d) as [outs db2] end.
  simpl in *. apply Hkeep. split; db_simpl.
  - destruct Hserial as (_ & _ & Hb). rewrite Forall_forall in Hb.
    specialize (Hb r Hr). lia.
  - apply Forall_forall. intros r' Hr' Hid'.
    apply list_elem_of_filter in Hr' as [Hkept Hin]. apply Hkept.
    assert (r' = r) as ->; [|done].
    eapply (serial_ok_inj MessageQueue.queuedMsgId); [done..|]. congruence.
Qed.

End retired.

Lemma acknowledged_message_gone_witness :
  Forall (λ r', MessageQueue.queuedMsgId r' ≠ 1)
    (messageQueue
       (serve (H:=Scenario.host)
          ((5000, MessageAckDeleteReq Scenario.ack_by_bob) :: Scenario.third_send)
          Scenario.two_queued).2).
Proof.
  apply (acknowledged_message_gone (H:=Scenario.host) 5000 Scenario.ack_by_bob
           Scenario.third_send Scenario.two_queued
           (MessageQueue.mk 1 Scenario.bob Scenario.alice "ciphertext-a" "hdr" "msg-1" 1700
              None)).
  - apply two_queued_reachable.
  - vm_compute. reflexivity.
  - scenario_authenticates.
  - vm_compute. left.
  - reflexivity.
  - reflexivity.
Defined.

(** The message sent afterwards is queued under the next id, not under the
    one that was acknowledged. *)
Example third_send_queued :
  map MessageQueue.queuedMsgId
    (messageQueue
       (serve (H:=Scenario.host)
          ((5000, MessageAckDeleteReq Scenario.ack_by_bob) :: Scenario.third_send)
          Scenario.two_queued).2)
  = [2; 3].
Proof. vm_compute. reflexivity. Qed.

(** ** The pre-key pool *)

#[local] Instance le_on_total' {A} (key : A → Z) : Total (Sql.le_on key).
Proof. intros a b. unfold Sql.le_on. lia. Qed.

#[local] Instance le_on_trans' {A} (key : A → Z) : Transitive (Sql.le_on key).
Proof. intros a b c. unfold Sql.le_on. lia. Qed.

(** [orderBy] leaves rows alone that are in ascending order of distinct keys. *)
Lemma order_by_ascending {A} (key : A → Z) (l : list A) :
  StronglySorted (λ a b, key a < key b) l → Sql.order_by key l = l.
Proof.
  intros Hl. unfold Sql.order_by.
  apply (StronglySorted_unique_strong (Sql.le_on key)).
  - intros x1 x2 H1 H2 H12 H21. rewrite merge_sort_Permutation in H1.
    unfold Sql.le_on in *.
    assert (key x1 = key x2) as Hk by lia. clear H12 H21.
    induction Hl as [|x l Hl' IH Hx]; [by apply elem_of_nil in H1|].
    rewrite Forall_forall in Hx.
    apply elem_of_cons in H1 as [->|H1], H2 as [->|H2]; try done.
    + specialize (Hx _ H2). lia.
    + specialize (Hx _ H1). lia.
    + by apply IH.
  - apply StronglySorted_merge_sort; apply _.
  - clear -Hl. induction Hl as [|x l Hl' IH Hx]; constructor; [done|].
    eapply Forall_impl; [done|]. unfold Sql.le_on. simpl. intros. lia.
  - apply merge_sort_Permutation.
Qed.

Section prekeys.
Context `{Runtime}.

Lemma unused_prekeys_ascending userId db :
  constraints_ok db →
  StronglySorted (λ a b, Prekeys.id a < Prekeys.id b) (unused_prekeys userId db).
Proof.
  intros [_ _ (_ & Hs & _) _ _ _ _ _ _ _ _ _ _ _].
  eapply StronglySorted_sublist; [apply sublist_filter|done].
Qed.

Lemma select_unused_prekey_head userId db :
  constraints_ok db →
  Sql.select_unused_prekey userId db = head (unused_prekeys userId db).
Proof.
  intros Hok. unfold Sql.select_unused_prekey.
  fold (unused_prekeys userId db). by rewrite order_by_ascending by by apply unused_prekeys_ascending.
Qed.

(** One fetch on a state that satisfies the constraints. *)
Lemma identity_getBundle_step input db :
  let userId := IdentityGetBundle.userId input in
  constraints_ok db →
  match users db !! userId, unused_prekeys userId db with
  | None, _ =>
      identity_getBundle input db = (inl (mkTRPCError NOT_FOUND "user not found"), db)
  | Some _, [] =>
      identity_getBundle input db = (inl (mkTRPCError NOT_FOUND "no prekey bundle"), db)
  | Some identity, prekey :: rest =>
      ∃ db', identity_getBundle input db = (inr (bundle_of identity prekey), db')
             ∧ is_Some (oneTimePreKey (bundle_of identity prekey))
             ∧ users db' = users db
             ∧ unused_prekeys userId db' = rest
             ∧ Forall (λ r, Prekeys.id prekey < Prekeys.id r) rest
  end.
Proof.
  intros userId Hok. subst userId.
  pose proof (identity_getBundle_cases input db) as Hc. cbv zeta in Hc.
  rewrite (select_unused_prekey_head _ _ Hok) in Hc.
  destruct (users db !! IdentityGetBundle.userId input) as [identity|]; [|done].
  pose proof (unused_prekeys_ascending (IdentityGetBundle.userId input) db Hok) as Hasc.
  destruct (unused_prekeys (IdentityGetBundle.userId input) db) as [|prekey rest] eqn:Epool;
    [done|].
  simpl in Hc. destruct Hc as (Hout & Husers & Hpre).
  assert (prekey ∈ prekeys db) as Hin.
  { assert (prekey ∈ unused_prekeys (IdentityGetBundle.userId input) db) as Hp
      by (rewrite Epool; left).
    by apply list_elem_of_filter in Hp as [_ ?]. }
  destruct Hok as [_ _ _ _ Hone _ _ _ _ _ _ _ _ _].
  rewrite Forall_forall in Hone. destruct (Hone _ Hin) as [[keyId Hk] [publicKey Hp]].
  apply StronglySorted_cons in Hasc as [Hlt Hrest].
  destruct (identity_getBundle input db) as [out db'] eqn:Eg. simpl in *.
  exists db'. subst out. split; [done|].
  split; [unfold bundle_of; rewrite Hk, Hp; simpl; eauto|].
  split; [done|]. split; [|done].
  unfold unused_prekeys in *. rewrite Hpre, Hk, unused_after_update, Epool.
  rewrite filter_cons_False by naive_solver.
  clear -Hlt. induction Hlt as [|r l Hr Hl IH]; [done|].
  rewrite filter_cons_True by lia. by rewrite IH.
Qed.

Lemma appRouter_getBundle now input db :
  IdentityGetBundle.schema input = true →
  appRouter now (IdentityGetBundleReq input) db
  = match identity_getBundle input db with
    | (inl e, db') => (inl e, db')
    | (inr b, db') => (inr (RBundle b), db')
    end.
Proof. intros Hs. simpl. rewrite Hs. done. Qed.

(** X9. On a reachable state [identity.getBundle] never answers with
    [oneTimePreKey: null]: a successful fetch hands out the one-time
    pre-key of the user's oldest unused pre-key row, together with the
    signed pre-key stored on that row, and takes exactly that row out of
    the user's pool. *)
Theorem getBundle_serves_oldest now input db b db' :
  let userId := IdentityGetBundle.userId input in
  reachable db →
  appRouter now (IdentityGetBundleReq input) db = (inr (RBundle b), db') →
  ∃ identity prekey rest keyId publicKey,
    users db !! userId = Some identity
    ∧ unused_prekeys userId db = prekey :: rest
    ∧ Forall (λ r, Prekeys.id prekey < Prekeys.id r) rest
    ∧ Prekeys.oneTimePreKeyId prekey = Some keyId
    ∧ Prekeys.oneTimePreKeyPublic prekey = Some publicKey
    ∧ b = mkBundle (Users.registrationId identity) (Users.signalIdentityPublicKey identity)
            (SignedPreKey.mk (Prekeys.signedPreKeyId prekey)
               (Prekeys.signedPreKeyPublic prekey) (Prekeys.signedPreKeySignature prekey))
            (Some (PreKey.mk keyId publicKey))
    ∧ unused_prekeys userId db' = rest.
Proof.
  intros userId Hreach Hget. subst userId.
  apply constraints_reachable in Hreach as Hok.
  destruct (IdentityGetBundle.schema input) eqn:Hs.
  2: { simpl in Hget. rewrite Hs in Hget. done. }
  rewrite (appRouter_getBundle _ _ _ Hs) in Hget.
  pose proof (identity_getBundle_step input db Hok) as Hstep. cbv zeta in Hstep.
  destruct (users db !! IdentityGetBundle.userId input) as [identity|];
    [|by rewrite Hstep in Hget].
  destruct (unused_prekeys (IdentityGetBundle.userId input) db) as [|prekey rest] eqn:Epool;
    [by rewrite Hstep in Hget|].
  destruct Hstep as (db1 & Hrun & Hone & _ & Hrest & Hlt). rewrite Hrun in Hget.
  injection Hget as <- <-.
  unfold bundle_of in Hone |- *.
  destruct (Prekeys.oneTimePreKeyId prekey) as [keyId|] eqn:Hk;
    [|by destruct Hone].
  destruct (Prekeys.oneTimePreKeyPublic prekey) as [publicKey|] eqn:Hp;
    [|by destruct Hone].
  by exists identity, prekey, rest, keyId, publicKey.
Qed.

(** The requests of a run of fetches for one user. *)
Lemma serve_getBundle_run nows input db identity :
  let userId := IdentityGetBundle.userId input in
  let trace := map (λ now, (now, IdentityGetBundleReq input)) nows in
  constraints_ok db →
  IdentityGetBundle.schema input = true →
  users db !! userId = Some identity →
  length nows = length (unused_prekeys userId db) →
  (serve trace db).1
  = map (λ prekey, inr (RBundle (bundle_of identity prekey))) (unused_prekeys userId db)
  ∧ unused_prekeys userId (serve trace db).2 = []
  ∧ users (serve trace db).2 !! userId = Some identity
  ∧ constraints_ok (serve trace db).2.
Proof.
  intros userId trace. subst userId trace.
  revert db. induction nows as [|now nows IH]; intros db Hok Hs Hu Hlen.
  { simpl in *. destruct (unused_prekeys _ db); done. }
  cbn [map]. rewrite serve_cons.
  pose proof (appRouter_keeps_constraints now (IdentityGetBundleReq input) db Hok) as Hok1.
  rewrite (appRouter_getBundle _ _ _ Hs) in Hok1 |- *.
  pose proof (identity_getBundle_step input db Hok) as Hstep. cbv zeta in Hstep.
  rewrite Hu in Hstep.
  destruct (unused_prekeys (IdentityGetBundle.userId input) db) as [|prekey rest] eqn:Epool;
    [done|].
  destruct Hstep as (db1 & Hrun & _ & Husers & Hrest & _). rewrite Hrun in Hok1 |- *.
  simpl in Hok1, Hlen.
  destruct (IH db1) as (Hout & Hpool & Hu' & Hok'); [done|done|by rewrite Husers|
    rewrite Hrest; lia|].
  destruct (serve _ db1) as [outs db2]. simpl in *. rewrite Hrest in Hout.
  by rewrite Hout.
Qed.

(** X10. A pool is served first in, first out, and then it is empty: on a
    reachable state where a registered user has [n] unused pre-key rows,
    [n] fetches in a row return the bundles of these rows in the order
    they were inserted, and the fetch after them is answered [NOT_FOUND]
    "no prekey bundle". *)
Theorem getBundle_first_in_first_out nows now input db identity :
  let userId := IdentityGetBundle.userId input in
  let trace := map (λ now, (now, IdentityGetBundleReq input)) nows in
  reachable db →
  IdentityGetBundle.schema input = true →
  users db !! userId = Some identity →
  length nows = length (unused_prekeys userId db) →
  (serve trace db).1
  = map (λ prekey, inr (RBundle (bundle_of identity prekey))) (unused_prekeys userId db)
  ∧ appRouter now (IdentityGetBundleReq input) (serve trace db).2
    = (inl (mkTRPCError NOT_FOUND "no prekey bundle"), (serve trace db).2).
Proof.
  intros userId trace Hreach Hs Hu Hlen. subst userId trace.
  apply constraints_reachable in Hreach as Hok.
  destruct (serve_getBundle_run nows input db identity Hok Hs Hu Hlen)
    as (Hout & Hpool & Hu' & Hok').
  split; [done|].
  rewrite (appRouter_getBundle _ _ _ Hs).
  pose proof (identity_getBundle_step input _ Hok') as Hstep. cbv zeta in Hstep.
  rewrite Hu', Hpool in Hstep. by rewrite Hstep.
Qed.

End prekeys.

Lemma getBundle_serves_oldest_witness :
  ∃ identity prekey rest keyId publicKey,
    users Scenario.registered !! Scenario.bob = Some identity
    ∧ unused_prekeys Scenario.bob Scenario.registered = prekey :: rest
    ∧ Forall (λ r, Prekeys.id prekey < Prekeys.id r) rest
    ∧ Prekeys.oneTimePreKeyId prekey = Some keyId
    ∧ Prekeys.oneTimePreKeyPublic prekey = Some publicKey
    ∧ mkBundle 42 "signalbobkey" (SignedPreKey.mk 7 "signedPub" "signedSig")
        (Some (PreKey.mk 1 "otkB1"))
      = mkBundle (Users.registrationId identity) (Users.signalIdentityPublicKey identity)
          (SignedPreKey.mk (Prekeys.signedPreKeyId prekey)
             (Prekeys.signedPreKeyPublic prekey) (Prekeys.signedPreKeySignature prekey))
          (Some (PreKey.mk keyId publicKey))
    ∧ unused_prekeys Scenario.bob
        (appRouter (H:=Scenario.host) 3000 (Scenario.get_bundle Scenario.bob)
           Scenario.registered).2 = rest.
Proof.
  apply (getBundle_serves_oldest (H:=Scenario.host) 3000 (IdentityGetBundle.mk Scenario.bob)
           Scenario.registered
           (mkBundle 42 "signalbobkey" (SignedPreKey.mk 7 "signedPub" "signedSig")
              (Some (PreKey.mk 1 "otkB1")))
           (appRouter (H:=Scenario.host) 3000 (Scenario.get_bundle Scenario.bob)
              Scenario.registered).2).
  - apply registered_reachable.
  - vm_compute. reflexivity.
Defined.

Lemma getBundle_first_in_first_out_witness :
  (serve (H:=Scenario.host)
     (map (λ now, (now, IdentityGetBundleReq (IdentityGetBundle.mk Scenario.bob)))
        [3000; 3001])
     Scenario.registered).1
  = map (λ prekey,
           inr (RBundle (bundle_of (Users.mk Scenario.bob_key "signalbobkey" 42 1001) prekey)))
      (unused_prekeys Scenario.bob Scenario.registered)
  ∧ appRouter (H:=Scenario.host) 3002
      (IdentityGetBundleReq (IdentityGetBundle.mk Scenario.bob))
      (serve (H:=Scenario.host)
         (map (λ now, (now, IdentityGetBundleReq (IdentityGetBundle.mk Scenario.bob)))
            [3000; 3001])
         Scenario.registered).2
    = (inl (mkTRPCError NOT_FOUND "no prekey bundle"),
       (serve (H:=Scenario.host)
          (map (λ now, (now, IdentityGetBundleReq (IdentityGetBundle.mk Scenario.bob)))
             [3000; 3001])
          Scenario.registered).2).
Proof.
  apply (getBundle_first_in_first_out (H:=Scenario.host) [3000; 3001] 3002
           (IdentityGetBundle.mk Scenario.bob) Scenario.registered
           (Users.mk Scenario.bob_key "signalbobkey" 42 1001)).
  - apply registered_reachable.
  - vm_compute. reflexivity.
  - vm_compute. reflexivity.
  - vm_compute. reflexivity.
Defined.

(** Bob's two one-time pre-keys go out in the order he registered them. *)
Example fetches_of_bob_in_order :
  served_keyIds Scenario.bob
    (map (λ now, (now, IdentityGetBundleReq (IdentityGetBundle.mk Scenario.bob))) [3000; 3001])
    (serve (H:=Scenario.host)
       (map (λ now, (now, IdentityGetBundleReq (IdentityGetBundle.mk Scenario.bob)))
          [3000; 3001])
       Scenario.registered).1
  = [1; 2].
Proof. vm_compute. reflexivity. Qed.

(** ** [identity.registerBundle] *)

Section registerBundle.
Context `{Runtime}.

Lemma upsert_users_accepted userId ipk sipk registrationId now db :
  Sql.int4 registrationId = true →
  (∀ v s, users db !! v = Some s → v ≠ userId →
          Users.identityPublicKey s ≠ ipk ∧ Users.signalIdentityPublicKey s ≠ sipk) →
  Sql.upsert_users userId ipk sipk registrationId now db
  = inr (set_users
           (<[userId := Users.mk ipk sipk registrationId
                          match users db !! userId with
                          | Some old => Users.createdAt old
                          | None => now
                          end]> (users db)) db).
Proof.
  intros Hfit Hother. unfold Sql.upsert_users. rewrite Hfit. cbn [negb].
  destruct (existsb _ _) eqn:Hex; [|done]. exfalso.
  apply existsb_exists in Hex as ([v s] & Hin & Hx). simpl in Hx.
  apply list_elem_of_In, elem_of_map_to_list in Hin.
  apply andb_true_iff in Hx as [Hne Heq].
  apply negb_true_iff, String.eqb_neq in Hne.
  destruct (Hother v s Hin Hne) as [Hi Hs].
  apply orb_true_iff in Heq as [Heq|Heq]; apply String.eqb_eq in Heq; done.
Qed.

Lemma upsert_users_rejected userId ipk sipk registrationId now db v s :
  users db !! v = Some s → v ≠ userId →
  Users.identityPublicKey s = ipk ∨ Users.signalIdentityPublicKey s = sipk →
  ∃ e, Sql.upsert_users userId ipk sipk registrationId now db = inl e.
Proof.
  intros Hv Hne Heq. unfold Sql.upsert_users.
  destruct (negb _); [eauto|].
  destruct (existsb _ _) eqn:Hex; [eauto|]. exfalso.
  apply not_true_iff_false in Hex. apply Hex. apply existsb_exists.
  exists (v, s). split; [by apply list_elem_of_In, elem_of_map_to_list|]. simpl.
  apply andb_true_iff. split.
  - by apply negb_true_iff, String.eqb_neq.
  - apply orb_true_iff. by rewrite !String.eqb_eq.
Qed.

Lemma filter_number_from_all {A B} (P : B → Prop) `{∀ x, Decision (P x)}
    (mk : Z → A → B) next items :
  (∀ id x, P (mk id x)) → filter P (Sql.number_from mk next items) = Sql.number_from mk next items.
Proof.
  intros HP. revert next. induction items as [|x items IH]; intros next; [done|]. simpl.
  rewrite filter_cons_True by done. by rewrite IH.
Qed.

Lemma filter_number_from_none {A B} (P : B → Prop) `{∀ x, Decision (P x)}
    (mk : Z → A → B) next items :
  (∀ id x, ¬ P (mk id x)) → filter P (Sql.number_from mk next items) = [].
Proof.
  intros HP. revert next. induction items as [|x items IH]; intros next; [done|]. simpl.
  rewrite filter_cons_False by done. by rewrite IH.
Qed.

(** X11. A registration replaces the pool of its user and nobody else's.
    When the registration id and the key ids fit an [integer] column and no
    other user holds the identity key or the Signal identity key, an
    authenticated [identity.registerBundle] stores the user row (a user
    who registers again keeps the [createdAt] of the first registration),
    discards every pre-key row the user had, used or not, and makes the
    submitted one-time pre-keys, in the order submitted and each with the
    submitted signed pre-key, the user's unused rows; the pools of the
    other users are as before. When another user holds one of the two
    keys, or when the registration id is outside int4, the user row is
    refused: the answer is an [INTERNAL_SERVER_ERROR] and users and
    pre-keys are unchanged. When the user row is accepted and a key id is
    outside int4, the insert of the pre-keys is refused after the user row
    was written and the rows of the user were deleted: the answer is an
    [INTERNAL_SERVER_ERROR] and the user is left without a pre-key row. *)
Theorem registerBundle_installs_pool now input db :
  let auth := IdentityRegisterBundle.auth input in
  let userId := AuthEnvelope.userId auth in
  let signedPreKey := IdentityRegisterBundle.signedPreKey input in
  let oneTimePreKeys := IdentityRegisterBundle.oneTimePreKeys input in
  let taken v (s : Users.row) :=
    users db !! v = Some s ∧ v ≠ userId
    ∧ (Users.identityPublicKey s = AuthEnvelope.identityPublicKey auth
       ∨ Users.signalIdentityPublicKey s = IdentityRegisterBundle.signalIdentityPublicKey input) in
  let keyIds_fit :=
    Sql.int4 (SignedPreKey.keyId signedPreKey)
    && forallb (λ item, Sql.int4 (PreKey.keyId item)) oneTimePreKeys in
  let stored :=
    <[userId := Users.mk (AuthEnvelope.identityPublicKey auth)
                  (IdentityRegisterBundle.signalIdentityPublicKey input)
                  (IdentityRegisterBundle.registrationId input)
                  match users db !! userId with
                  | Some old => Users.createdAt old
                  | None => now
                  end]> (users db) in
  IdentityRegisterBundle.schema input = true →
  authenticates "identity.registerBundle" auth (IdentityRegisterBundle.payload input) db →
  (Sql.int4 (IdentityRegisterBundle.registrationId input) = true →
   (∀ v s, ¬ taken v s) →
   keyIds_fit = true →
   ∃ db1,
     appRouter now (IdentityRegisterBundleReq input) db = (inr ROk, db1)
     ∧ users db1 = stored
     ∧ filter (λ r, Prekeys.userId r = userId) (prekeys db1)
       = Sql.number_from
           (λ id item,
              Prekeys.mk id userId (SignedPreKey.keyId signedPreKey)
                (SignedPreKey.publicKey signedPreKey) (SignedPreKey.signature signedPreKey)
                (Some (PreKey.keyId item)) (Some (PreKey.publicKey item)) false now)
           (prekeys_id_seq db) oneTimePreKeys
     ∧ unused_keyIds userId db1 = map PreKey.keyId oneTimePreKeys
     ∧ ∀ other, other ≠ userId →
         filter (λ r, Prekeys.userId r = other) (prekeys db1)
         = filter (λ r, Prekeys.userId r = other) (prekeys db))
  ∧ (∀ v s, taken v s →
     ∃ e db1,
       appRouter now (IdentityRegisterBundleReq input) db = (inl e, db1)
       ∧ code e = INTERNAL_SERVER_ERROR
       ∧ users db1 = users db ∧ prekeys db1 = prekeys db)
  ∧ (Sql.int4 (IdentityRegisterBundle.registrationId input) = false →
     ∃ e db1,
       appRouter now (IdentityRegisterBundleReq input) db = (inl e, db1)
       ∧ code e = INTERNAL_SERVER_ERROR
       ∧ users db1 = users db ∧ prekeys db1 = prekeys db)
  ∧ (Sql.int4 (IdentityRegisterBundle.registrationId input) = true →
     (∀ v s, ¬ taken v s) →
     keyIds_fit = false →
     ∃ e db1,
       appRouter now (IdentityRegisterBundleReq input) db = (inl e, db1)
       ∧ code e = INTERNAL_SERVER_ERROR
       ∧ users db1 = stored
       ∧ prekeys db1 = filter (λ r, Prekeys.userId r ≠ userId) (prekeys db)).
Proof.
  intros auth userId signedPreKey oneTimePreKeys taken keyIds_fit stored Hschema Hauth.
  subst auth userId signedPreKey oneTimePreKeys taken keyIds_fit stored.
  assert ((∀ v s,
             ¬ (users db !! v = Some s
                ∧ v ≠ AuthEnvelope.userId (IdentityRegisterBundle.auth input)
                ∧ (Users.identityPublicKey s
                   = AuthEnvelope.identityPublicKey (IdentityRegisterBundle.auth input)
                   ∨ Users.signalIdentityPublicKey s
                     = IdentityRegisterBundle.signalIdentityPublicKey input))) →
            ∀ v s,
              users (record_nonce now (IdentityRegisterBundle.auth input) db) !! v = Some s →
              v ≠ AuthEnvelope.userId (IdentityRegisterBundle.auth input) →
              Users.identityPublicKey s
              ≠ AuthEnvelope.identityPublicKey (IdentityRegisterBundle.auth input)
              ∧ Users.signalIdentityPublicKey s
                ≠ IdentityRegisterBundle.signalIdentityPublicKey input) as Hfree'.
  { intros Hfree v s Hv Hne. unfold record_nonce in Hv. revert Hv. db_simpl. intros Hv.
    split; intros Heq; eapply Hfree; eauto. }
  split; [|split; [|split]].
  - intros Hreg Hfree Hfit.
    simpl. rewrite Hschema. unfold t_procedure, identity_registerBundle. cbv zeta.
    unfold bind at 1. unfold bind at 1. rewrite (requireAuth_accepts _ _ _ _ _ Hauth).
    unfold bind at 1, uncaught at 1, exec at 1.
    rewrite (upsert_users_accepted _ _ _ _ _ _ Hreg (Hfree' Hfree)).
    unfold bind at 1, uncaught at 1, exec at 1, Sql.delete_prekeys.
    unfold bind at 1, uncaught at 1, Sql.insert_prekeys. rewrite Hfit. cbn [negb]. cbv zeta.
    db_simpl.
    unfold record_nonce. db_simpl. rewrite lookup_insert_eq. unfold bind, ret.
    eexists. split; [done|]. db_simpl. split; [done|].
    set (mk := λ (id : Z) (item : PreKey.t), Prekeys.mk id _ _ _ _ _ _ _ _).
    split; [|split].
    + rewrite filter_app, filter_number_from_all by done.
      replace (filter _ (filter _ (prekeys db))) with (@nil Prekeys.row); [done|].
      symmetry. apply filter_not_Exists. rewrite Exists_exists.
      intros (r & Hr & ?). apply list_elem_of_filter in Hr as [? ?]. done.
    + unfold unused_keyIds. db_simpl. rewrite filter_app, filter_number_from_all by done.
      replace (filter _ (filter _ (prekeys db))) with (@nil Prekeys.row).
      2: { symmetry. apply filter_not_Exists. rewrite Exists_exists.
           intros (r & Hr & ? & ?). apply list_elem_of_filter in Hr as [? ?]. done. }
      simpl. clear Hfit. generalize (prekeys_id_seq db).
      induction (IdentityRegisterBundle.oneTimePreKeys input) as [|k ks IH]; intros next;
        [done|].
      simpl. by rewrite IH.
    + intros other Hother. rewrite filter_app, filter_number_from_none.
      2: { intros id x. simpl. congruence. }
      rewrite app_nil_r, list_filter_filter. apply list_filter_iff. intros r.
      split; [naive_solver|]. intros Hr. split; [done|congruence].
  - intros v s (Hv & Hne & Heq).
    simpl. rewrite Hschema. unfold t_procedure, identity_registerBundle. cbv zeta.
    unfold bind at 1. unfold bind at 1. rewrite (requireAuth_accepts _ _ _ _ _ Hauth).
    unfold bind at 1, uncaught at 1, exec at 1.
    destruct (upsert_users_rejected (AuthEnvelope.userId (IdentityRegisterBundle.auth input))
                (AuthEnvelope.identityPublicKey (IdentityRegisterBundle.auth input))
                (IdentityRegisterBundle.signalIdentityPublicKey input)
                (IdentityRegisterBundle.registrationId input) now
                (record_nonce now (IdentityRegisterBundle.auth input) db) v s) as [e ->];
      [done..|].
    eexists _, _. split; [done|]. done.
  - intros Hreg.
    simpl. rewrite Hschema. unfold t_procedure, identity_registerBundle. cbv zeta.
    unfold bind at 1. unfold bind at 1. rewrite (requireAuth_accepts _ _ _ _ _ Hauth).
    unfold bind at 1, uncaught at 1, exec at 1, Sql.upsert_users. rewrite Hreg. cbn [negb].
    eexists _, _. split; [done|]. done.
  - intros Hreg Hfree Hfit.
    simpl. rewrite Hschema. unfold t_procedure, identity_registerBundle. cbv zeta.
    unfold bind at 1. unfold bind at 1. rewrite (requireAuth_accepts _ _ _ _ _ Hauth).
    unfold bind at 1, uncaught at 1, exec at 1.
    rewrite (upsert_users_accepted _ _ _ _ _ _ Hreg (Hfree' Hfree)).
    unfold bind at 1, uncaught at 1, exec at 1, Sql.delete_prekeys.
    unfold bind at 1, uncaught at 1, Sql.insert_prekeys. rewrite Hfit. cbn [negb].
    eexists _, _. split; [done|]. split; [done|]. db_simpl.
    unfold record_nonce. db_simpl. done.
Qed.

End registerBundle.

Lemma registerBundle_installs_pool_witness :
  let now := 1003 in
  let input := Scenario.registration_of_dave in
  let db := Scenario.registered in
  let auth := IdentityRegisterBundle.auth input in
  let userId := AuthEnvelope.userId auth in
  let signedPreKey := IdentityRegisterBundle.signedPreKey input in
  let oneTimePreKeys := IdentityRegisterBundle.oneTimePreKeys input in
  let taken v (s : Users.row) :=
    users db !! v = Some s ∧ v ≠ userId
    ∧ (Users.identityPublicKey s = AuthEnvelope.identityPublicKey auth
       ∨ Users.signalIdentityPublicKey s = IdentityRegisterBundle.signalIdentityPublicKey input) in
  let keyIds_fit :=
    Sql.int4 (SignedPreKey.keyId signedPreKey)
    && forallb (λ item, Sql.int4 (PreKey.keyId item)) oneTimePreKeys in
  let stored :=
    <[userId := Users.mk (AuthEnvelope.identityPublicKey auth)
                  (IdentityRegisterBundle.signalIdentityPublicKey input)
                  (IdentityRegisterBundle.registrationId input)
                  match users db !! userId with
                  | Some old => Users.createdAt old
                  | None => now
                  end]> (users db) in
  (Sql.int4 (IdentityRegisterBundle.registrationId input) = true →
   (∀ v s, ¬ taken v s) →
   keyIds_fit = true →
   ∃ db1,
     appRouter (H:=Scenario.host) now (IdentityRegisterBundleReq input) db = (inr ROk, db1)
     ∧ users db1 = stored
     ∧ filter (λ r, Prekeys.userId r = userId) (prekeys db1)
       = Sql.number_from
           (λ id item,
              Prekeys.mk id userId (SignedPreKey.keyId signedPreKey)
                (SignedPreKey.publicKey signedPreKey) (SignedPreKey.signature signedPreKey)
                (Some (PreKey.keyId item)) (Some (PreKey.publicKey item)) false now)
           (prekeys_id_seq db) oneTimePreKeys
     ∧ unused_keyIds userId db1 = map PreKey.keyId oneTimePreKeys
     ∧ ∀ other, other ≠ userId →
         filter (λ r, Prekeys.userId r = other) (prekeys db1)
         = filter (λ r, Prekeys.userId r = other) (prekeys db))
  ∧ (∀ v s, taken v s →
     ∃ e db1,
       appRouter (H:=Scenario.host) now (IdentityRegisterBundleReq input) db = (inl e, db1)
       ∧ code e = INTERNAL_SERVER_ERROR
       ∧ users db1 = users db ∧ prekeys db1 = prekeys db)
  ∧ (Sql.int4 (IdentityRegisterBundle.registrationId input) = false →
     ∃ e db1,
       appRouter (H:=Scenario.host) now (IdentityRegisterBundleReq input) db = (inl e, db1)
       ∧ code e = INTERNAL_SERVER_ERROR
       ∧ users db1 = users db ∧ prekeys db1 = prekeys db)
  ∧ (Sql.int4 (IdentityRegisterBundle.registrationId input) = true →
     (∀ v s, ¬ taken v s) →
     keyIds_fit = false →
     ∃ e db1,
       appRouter (H:=Scenario.host) now (IdentityRegisterBundleReq input) db = (inl e, db1)
       ∧ code e = INTERNAL_SERVER_ERROR
       ∧ users db1 = stored
       ∧ prekeys db1 = filter (λ r, Prekeys.userId r ≠ userId) (prekeys db)).
Proof.
  cbv zeta.
  apply (registerBundle_installs_pool (H:=Scenario.host) 1003 Scenario.registration_of_dave
           Scenario.registered).
  - vm_compute. reflexivity.
  - scenario_authenticates.
Defined.

(** Dave's registration goes through, and one under Alice's Signal key does not. *)
Example registrations_of_dave :
  (appRouter (H:=Scenario.host) 1003
     (IdentityRegisterBundleReq Scenario.registration_of_dave) Scenario.registered).1
  = inr ROk
  ∧ unused_keyIds Scenario.dave
      (appRouter (H:=Scenario.host) 1003
         (IdentityRegisterBundleReq Scenario.registration_of_dave) Scenario.registered).2
    = [5; 6]
  ∧ (appRouter (H:=Scenario.host) 1003
       (IdentityRegisterBundleReq Scenario.registration_with_taken_key) Scenario.registered).1
    = inl (mkTRPCError INTERNAL_SERVER_ERROR Sql.unique_violation).
Proof. repeat split; vm_compute; reflexivity. Qed.

(** A registration id one past the largest [integer] is refused and
    nothing of Bob's changes. A key id that large is refused after Bob's
    user row was rewritten and his pool deleted: the registration fails and
    Bob, who had two unused pre-keys, has none; the next fetch of his bundle
    finds no pre-key. *)
Example registrations_out_of_range :
  unused_keyIds Scenario.bob Scenario.registered = [1; 2]
  ∧ (appRouter (H:=Scenario.host) 1004
       (IdentityRegisterBundleReq Scenario.registration_with_wide_id) Scenario.registered).1
    = inl (mkTRPCError INTERNAL_SERVER_ERROR Sql.out_of_range)
  ∧ unused_keyIds Scenario.bob
      (appRouter (H:=Scenario.host) 1004
         (IdentityRegisterBundleReq Scenario.registration_with_wide_id) Scenario.registered).2
    = [1; 2]
  ∧ (appRouter (H:=Scenario.host) 1005
       (IdentityRegisterBundleReq Scenario.registration_with_wide_keyId) Scenario.registered).1
    = inl (mkTRPCError INTERNAL_SERVER_ERROR Sql.out_of_range)
  ∧ unused_keyIds Scenario.bob
      (appRouter (H:=Scenario.host) 1005
         (IdentityRegisterBundleReq Scenario.registration_with_wide_keyId) Scenario.registered).2
    = []
  ∧ Users.registrationId
      <$> users (appRouter (H:=Scenario.host) 1005
                   (IdentityRegisterBundleReq Scenario.registration_with_wide_keyId)
                   Scenario.registered).2 !! Scenario.bob
    = Some 43
  ∧ (appRouter (H:=Scenario.host) 3000 (Scenario.get_bundle Scenario.bob)
       (appRouter (H:=Scenario.host) 1005
          (IdentityRegisterBundleReq Scenario.registration_with_wide_keyId)
          Scenario.registered).2).1
    = inl (mkTRPCError NOT_FOUND "no prekey bundle").
Proof. repeat split; vm_compute; reflexivity. Qed.

(** ** Group messages *)

Section group_queue.
Context `{Runtime}.

(** X12. The three procedures open to the members of a group are closed
    to everybody else: for a [groupId] within the range of the [integer]
    column (the database rejects a larger one before it runs the lookup),
    [group.getMembers], [group.post] and [group.poll] answer an
    authenticated caller who has no membership row for the group with
    [FORBIDDEN] "not a group member", and nothing but the caller's nonce
    is recorded. *)
Theorem non_member_forbidden now req procedure auth payload groupId db :
  signed_request req = Some (procedure, auth, payload) →
  schema_of req = true →
  group_scope req = Some groupId →
  authenticates procedure auth payload db →
  Sql.int4 groupId = true →
  groupMembers db !! (groupId, AuthEnvelope.userId auth) = None →
  appRouter now req db = (inl not_a_member, record_nonce now auth db).
Proof.
  intros Hreq Hschema Hscope Hauth _ Hnone.
  destruct req; simpl in Hreq, Hschema, Hscope; simplify_eq; simpl; rewrite Hschema.
  all: unfold t_procedure, group_getMembers, group_post, group_poll; cbv zeta.
  all: unfold bind at 1; unfold bind at 1; rewrite (requireAuth_accepts _ _ _ _ _ Hauth).
  all: unfold bind at 1, query at 1; unfold record_nonce at 1; db_simpl.
  all: by rewrite Hnone.
Qed.

Lemma appRouter_group_post now input db q db1 :
  appRouter now (GroupPostReq input) db = (inr (RQueuedMsgId q), db1) →
  GroupPost.schema input = true ∧ group_post now input db = (inr q, db1).
Proof.
  simpl. unfold t_procedure. destruct (GroupPost.schema input); [|done].
  unfold bind at 1. destruct (group_post now input db) as [[e|q'] db1']; [done|].
  unfold ret. by intros [= <- <-].
Qed.

(** The successful runs of [group.post]. *)
Lemma group_post_inr now input db q db1 :
  group_post now input db = (inr q, db1) →
  let groupId := GroupPost.groupId input in
  let fromUserId := AuthEnvelope.userId (GroupPost.auth input) in
  let same := Sql.same_group_message groupId fromUserId (GroupPost.clientMsgId input) in
  is_Some (groupMembers db !! (groupId, fromUserId))
  ∧ groupMembers db1 = groupMembers db
  ∧ ((Exists same (groupMessageQueue db) ∧ groupMessageQueue db1 = groupMessageQueue db
      ∧ ∃ r, head (filter same (groupMessageQueue db)) = Some r
             ∧ GroupMessageQueue.queuedMsgId r = q)
     ∨ (¬ Exists same (groupMessageQueue db)
        ∧ groupMessageQueue db1
          = groupMessageQueue db ++
              [GroupMessageQueue.mk q groupId fromUserId (GroupPost.ciphertext input)
                 (GroupPost.header input) (GroupPost.clientMsgId input)
                 (GroupPost.createdAt input)])).
Proof.
  intros Hpost groupId fromUserId same. revert Hpost. subst groupId fromUserId same.
  unfold group_post. cbv zeta. unfold bind at 1.
  destruct (requireAuth _ _ _ _ _) as [[e|u] db0] eqn:Ea; [done|].
  apply requireAuth_inv in Ea as (-> & _ & _ & ->).
  unfold bind at 1, query at 1. db_simpl.
  destruct (groupMembers db !! _) as [member|] eqn:Em; [|done].
  unfold bind at 1, uncaught, Sql.insert_groupMessageQueue. cbv zeta. db_simpl.
  case_bool_decide as Hsame; [|case_bool_decide as Hfk].
  - unfold bind, query, ret. db_simpl. intros [= <- <-]. db_simpl.
    split; [eauto|]. split; [done|]. left. split; [done|]. split; [done|].
    destruct (head_filter_Exists _ _ Hsame) as (r & -> & _). eauto.
  - unfold ret. intros [= <- <-]. db_simpl. split; [eauto|]. split; [done|]. by right.
  - done.
Qed.

(** A post that meets a row with its key returns that row's id and
    inserts nothing. *)
Lemma group_post_conflict now input db r :
  authenticates "group.post" (GroupPost.auth input) (GroupPost.payload input) db →
  is_Some (groupMembers db !! (GroupPost.groupId input,
                               AuthEnvelope.userId (GroupPost.auth input))) →
  head (filter (Sql.same_group_message (GroupPost.groupId input)
                  (AuthEnvelope.userId (GroupPost.auth input))
                  (GroupPost.clientMsgId input)) (groupMessageQueue db)) = Some r →
  ∃ db2, group_post now input db = (inr (GroupMessageQueue.queuedMsgId r), db2)
         ∧ groupMessageQueue db2 = groupMessageQueue db.
Proof.
  intros Hauth [member Hm] Hhead.
  unfold group_post. cbv zeta. unfold bind at 1.
  rewrite (requireAuth_accepts _ _ _ _ _ Hauth).
  unfold bind at 1, query at 1. unfold record_nonce at 1. db_simpl. rewrite Hm.
  unfold bind at 1, uncaught, Sql.insert_groupMessageQueue. cbv zeta.
  unfold record_nonce. db_simpl.
  rewrite bool_decide_eq_true_2.
  2: { apply Exists_exists. exists r.
       assert (r ∈ filter (Sql.same_group_message (GroupPost.groupId input)
                             (AuthEnvelope.userId (GroupPost.auth input))
                             (GroupPost.clientMsgId input)) (groupMessageQueue db)) as Hr.
       { destruct (filter _ _); simplify_eq/=. left. }
       by apply list_elem_of_filter in Hr as [? ?]. }
  unfold bind, query, ret. db_simpl. rewrite Hhead. eauto.
Qed.

(** X13. [group.post] is idempotent under retries: when a post succeeds
    with [queuedMsgId = q], an authenticated second post with the same
    [(groupId, fromUserId, clientMsgId)], whatever its ciphertext, returns
    [q] again and leaves the group queue as it is; the row under that key
    is the one the first call appended when the key was new. *)
Theorem group_post_idempotent now1 now2 input1 input2 db q db1 :
  let groupId := GroupPost.groupId input1 in
  let fromUserId := AuthEnvelope.userId (GroupPost.auth input1) in
  let same := Sql.same_group_message groupId fromUserId (GroupPost.clientMsgId input1) in
  appRouter now1 (GroupPostReq input1) db = (inr (RQueuedMsgId q), db1) →
  GroupPost.groupId input2 = groupId →
  AuthEnvelope.userId (GroupPost.auth input2) = fromUserId →
  GroupPost.clientMsgId input2 = GroupPost.clientMsgId input1 →
  GroupPost.schema input2 = true →
  authenticates "group.post" (GroupPost.auth input2) (GroupPost.payload input2) db1 →
  ∃ db2,
    appRouter now2 (GroupPostReq input2) db1 = (inr (RQueuedMsgId q), db2)
    ∧ groupMessageQueue db2 = groupMessageQueue db1
    ∧ (¬ Exists same (groupMessageQueue db) →
       groupMessageQueue db1
       = groupMessageQueue db ++
           [GroupMessageQueue.mk q groupId fromUserId (GroupPost.ciphertext input1)
              (GroupPost.header input1) (GroupPost.clientMsgId input1)
              (GroupPost.createdAt input1)]).
Proof.
  intros groupId fromUserId same Hfirst Hg Hfrom Hcid Hschema Hauth.
  subst groupId fromUserId same.
  apply appRouter_group_post in Hfirst as [_ Hfirst].
  apply group_post_inr in Hfirst as (Hmember & Hmembers & Hcases).
  assert (∃ r, head (filter (Sql.same_group_message (GroupPost.groupId input1)
                               (AuthEnvelope.userId (GroupPost.auth input1))
                               (GroupPost.clientMsgId input1)) (groupMessageQueue db1)) = Some r
               ∧ GroupMessageQueue.queuedMsgId r = q) as (r & Hhead & Hq).
  { destruct Hcases as [(HE & -> & r & Hr & Hq)|(HE & ->)]; [eauto|].
    rewrite filter_app, (filter_not_Exists _ _ HE), filter_cons.
    destruct (decide _) as [_|Hn]; [eauto|].
    exfalso. apply Hn. by repeat split. }
  destruct (group_post_conflict now2 input2 db1 r) as (db2 & Hsecond & Hqueue); try done.
  { by rewrite Hg, Hfrom, Hmembers. }
  { by rewrite Hg, Hfrom, Hcid. }
  exists db2. simpl. rewrite Hschema. unfold t_procedure, bind at 1. rewrite Hsecond.
  unfold ret. rewrite Hq. repeat split; eauto.
  intros HE. destruct Hcases as [(HE' & _)|(_ & ->)]; done.
Qed.

Lemma elem_of_group_poll_rows groupId since db r :
  r ∈ group_poll_rows groupId since db
  ↔ r ∈ groupMessageQueue db ∧ GroupMessageQueue.groupId r = groupId
    ∧ (truthy since = true → default 0 since < GroupMessageQueue.createdAt r).
Proof.
  unfold group_poll_rows. cbv zeta. rewrite order_by_perm, elem_of_List_filter.
  unfold and_all. destruct (truthy since); simpl.
  - rewrite !andb_true_iff, !bool_decide_eq_true. naive_solver.
  - rewrite !andb_true_iff, !bool_decide_eq_true. naive_solver.
Qed.

Lemma group_poll_accepted now input db :
  GroupPoll.schema input = true →
  authenticates "group.poll" (GroupPoll.auth input) (GroupPoll.payload input) db →
  is_Some (groupMembers db !! (GroupPoll.groupId input,
                               AuthEnvelope.userId (GroupPoll.auth input))) →
  appRouter now (GroupPollReq input) db
  = (inr (RGroupMessages (group_poll_rows (GroupPoll.groupId input)
                            (GroupPoll.since input) db)),
     record_nonce now (GroupPoll.auth input) db).
Proof.
  intros Hschema Hauth [member Hm]. simpl. rewrite Hschema.
  unfold t_procedure, group_poll. cbv zeta.
  unfold bind at 1. unfold bind at 1. rewrite (requireAuth_accepts _ _ _ _ _ Hauth).
  unfold bind at 1, query at 1. unfold record_nonce at 1. db_simpl. by rewrite Hm.
Qed.

(** On a queue of positive timestamps the conditions of [group.poll]
    select the rows of the group created after the threshold. *)
Lemma group_poll_conditions groupId since (l : list GroupMessageQueue.row) :
  Zod.optional Zod.nonnegative since = true →
  Forall (λ r, 0 < GroupMessageQueue.createdAt r) l →
  List.filter
    (and_all
       ([λ r, bool_decide (GroupMessageQueue.groupId r = groupId)]
        ++ if truthy since
           then [λ r, bool_decide (default 0 since < GroupMessageQueue.createdAt r)]
           else []))
    l
  = filter (posted_after groupId since) l.
Proof.
  intros Hsince Hpos.
  match goal with |- List.filter ?g _ = _ => set (f := g) end.
  assert (∀ r, 0 < GroupMessageQueue.createdAt r →
               f r = bool_decide (posted_after groupId since r)) as Hf.
  { intros r Hr. unfold f, and_all, posted_after. destruct since as [T|]; simpl.
    - unfold Zod.nonnegative in Hsince. destruct (T =? 0) eqn:ET; simpl.
      + apply Z.eqb_eq in ET as ->. repeat case_bool_decide; simpl; try done; exfalso; intuition lia.
      + repeat case_bool_decide; simpl; try done; exfalso; intuition lia.
    - repeat case_bool_decide; simpl; try done; exfalso; intuition lia. }
  clearbody f. induction Hpos as [|r l Hr _ IH]; [done|].
  cbn [List.filter]. rewrite filter_cons, IH, (Hf r Hr).
  by case_bool_decide; destruct (decide _).
Qed.

(** X14. [group.poll] gives a member of the group exactly the queued
    messages of that group whose [createdAt] is strictly greater than
    [since], all of them when [since] is omitted, the member's own posts
    included, in ascending (non-decreasing) order of [createdAt]. *)
Theorem group_poll_returns now input db :
  let userId := AuthEnvelope.userId (GroupPoll.auth input) in
  let groupId := GroupPoll.groupId input in
  reachable db →
  GroupPoll.schema input = true →
  authenticates "group.poll" (GroupPoll.auth input) (GroupPoll.payload input) db →
  is_Some (groupMembers db !! (groupId, userId)) →
  ∃ rows db1,
    appRouter now (GroupPollReq input) db = (inr (RGroupMessages rows), db1)
    ∧ rows ≡ₚ filter (posted_after groupId (GroupPoll.since input)) (groupMessageQueue db)
    ∧ Sorted (Sql.le_on GroupMessageQueue.createdAt) rows.
Proof.
  intros userId groupId Hreach Hschema Hauth Hmember. subst userId groupId.
  apply constraints_reachable in Hreach as [_ _ _ _ _ _ _ _ _ _ _ _ _ Hpos].
  eexists _, _. split; [by apply group_poll_accepted|].
  unfold group_poll_rows. cbv zeta.
  unfold GroupPoll.schema in Hschema. apply andb_true_iff in Hschema as [_ Hsince].
  rewrite (group_poll_conditions _ _ _ Hsince Hpos).
  split; [apply order_by_perm|]. apply Sorted_merge_sort. apply _.
Qed.

(** X15. A group message that was accepted under a new [clientMsgId]
    reaches every member: the next poll of any member of the group, with no
    threshold or with one below the message's [createdAt], returns the row
    as it was posted, under the id the post returned. *)
Theorem group_post_delivers now1 now2 post poll db q db1 :
  let groupId := GroupPost.groupId post in
  let fromUserId := AuthEnvelope.userId (GroupPost.auth post) in
  appRouter now1 (GroupPostReq post) db = (inr (RQueuedMsgId q), db1) →
  ¬ Exists (Sql.same_group_message groupId fromUserId (GroupPost.clientMsgId post))
      (groupMessageQueue db) →
  GroupPoll.schema poll = true →
  authenticates "group.poll" (GroupPoll.auth poll) (GroupPoll.payload poll) db1 →
  GroupPoll.groupId poll = groupId →
  is_Some (groupMembers db1 !! (groupId, AuthEnvelope.userId (GroupPoll.auth poll))) →
  match GroupPoll.since poll with
  | Some T => T < GroupPost.createdAt post
  | None => True
  end →
  ∃ rows db2,
    appRouter now2 (GroupPollReq poll) db1 = (inr (RGroupMessages rows), db2)
    ∧ GroupMessageQueue.mk q groupId fromUserId (GroupPost.ciphertext post)
        (GroupPost.header post) (GroupPost.clientMsgId post)
        (GroupPost.createdAt post) ∈ rows.
Proof.
  intros groupId fromUserId Hpost Hnew Hschema Hauth Hg Hmember Hsince.
  subst groupId fromUserId.
  apply appRouter_group_post in Hpost as [_ Hpost].
  apply group_post_inr in Hpost as (_ & _ & [(HE & _)|(_ & Hq)]); [done|].
  eexists _, _. split; [apply group_poll_accepted; [done|done|by rewrite Hg]|].
  apply elem_of_group_poll_rows.
  rewrite Hq. split; [apply elem_of_app; right; left|]. split; [done|].
  simpl. destruct (GroupPoll.since poll) as [T|]; simpl; [done|done].
Qed.

(** X25. What [group.ackDelete] does for an authenticated caller on a
    reachable state: it answers [{ ok: true }] when no row has the given
    id, for an id within the range of the [integer] key (the database
    rejects a larger one before it runs the lookup), and when the caller is
    a member of the group of the row that has it, and [FORBIDDEN] "not a
    group member" when the caller is not; in every case the nonce is all
    it writes, so the row is still queued. *)
Theorem group_ackDelete_checks_only now input db :
  let userId := AuthEnvelope.userId (GroupAckDelete.auth input) in
  let queuedMsgId := GroupAckDelete.queuedMsgId input in
  let db1 := record_nonce now (GroupAckDelete.auth input) db in
  reachable db →
  GroupAckDelete.schema input = true →
  authenticates "group.ackDelete" (GroupAckDelete.auth input) (GroupAckDelete.payload input)
    db →
  (Sql.int4 queuedMsgId = true →
   Forall (λ r, GroupMessageQueue.queuedMsgId r ≠ queuedMsgId) (groupMessageQueue db) →
   appRouter now (GroupAckDeleteReq input) db = (inr ROk, db1))
  ∧ (∀ r, r ∈ groupMessageQueue db → GroupMessageQueue.queuedMsgId r = queuedMsgId →
          appRouter now (GroupAckDeleteReq input) db
          = (if decide (is_Some (groupMembers db !! (GroupMessageQueue.groupId r, userId)))
             then inr ROk else inl not_a_member, db1)
            ∧ r ∈ groupMessageQueue db1).
Proof.
  intros userId queuedMsgId db1 Hreach Hschema Hauth. subst userId queuedMsgId db1.
  apply constraints_reachable in Hreach as [_ _ _ _ _ _ _ _ _ _ Hserial _ _ _].
  assert (∀ row,
            head (filter (λ r, GroupMessageQueue.queuedMsgId r
                               = GroupAckDelete.queuedMsgId input) (groupMessageQueue db))
            = row →
            appRouter now (GroupAckDeleteReq input) db
            = (match row with
               | None => inr ROk
               | Some row =>
                   match groupMembers db !! (GroupMessageQueue.groupId row,
                                             AuthEnvelope.userId (GroupAckDelete.auth input)) with
                   | None => inl not_a_member
                   | Some _ => inr ROk
                   end
               end, record_nonce now (GroupAckDelete.auth input) db)) as Hrun.
  { intros row Hrow. simpl. rewrite Hschema. unfold t_procedure, group_ackDelete.
    unfold bind at 1. unfold bind at 1. rewrite (requireAuth_accepts _ _ _ _ _ Hauth).
    unfold bind at 1, query at 1. unfold record_nonce at 1. db_simpl. rewrite Hrow.
    destruct row as [row|]; [|done].
    unfold bind at 1, query at 1. unfold record_nonce at 1. db_simpl.
    by destruct (groupMembers db !! _). }
  split.
  - intros _ Hnone. rewrite (Hrun None); [done|]. rewrite filter_not_Exists; [done|].
    rewrite Exists_exists. intros (r & Hr & Hid). rewrite Forall_forall in Hnone.
    by apply (Hnone r).
  - intros r Hr Hid. split; [|done].
    destruct (head_filter_Exists
                (λ r, GroupMessageQueue.queuedMsgId r = GroupAckDelete.queuedMsgId input)
                (groupMessageQueue db)) as (r' & Hhead & Hr' & Hid').
    { apply Exists_exists. eauto. }
    assert (r' = r) as ->.
    { eapply (serial_ok_inj GroupMessageQueue.queuedMsgId); [done..|]. congruence. }
    rewrite (Hrun _ Hhead).
    destruct (groupMembers db !! _) as [member|] eqn:Em.
    + rewrite decide_True by eauto. done.
    + rewrite decide_False; [done|]. by intros [? ?].
Qed.

End group_queue.

Lemma group_created_reachable : reachable (H:=Scenario.host) Scenario.group_created.
Proof. by eexists. Qed.

Lemma non_member_forbidden_witness :
  appRouter (H:=Scenario.host) 5000 (GroupPollReq Scenario.group_poll_of_carol)
    Scenario.group_posted
  = (inl not_a_member,
     record_nonce 5000 (GroupPoll.auth Scenario.group_poll_of_carol) Scenario.group_posted).
Proof.
  apply (non_member_forbidden (H:=Scenario.host) 5000
           (GroupPollReq Scenario.group_poll_of_carol) "group.poll"
           (GroupPoll.auth Scenario.group_poll_of_carol)
           (GroupPoll.payload Scenario.group_poll_of_carol) 1 Scenario.group_posted).
  - reflexivity.
  - vm_compute. reflexivity.
  - reflexivity.
  - scenario_authenticates.
  - reflexivity.
  - vm_compute. reflexivity.
Defined.

Lemma group_post_idempotent_witness :
  ∃ db2,
    appRouter (H:=Scenario.host) 2102 (GroupPostReq Scenario.retry_post)
      (appRouter (H:=Scenario.host) 2101 (GroupPostReq Scenario.first_post)
         Scenario.group_created).2
    = (inr (RQueuedMsgId 1), db2)
    ∧ groupMessageQueue db2
      = groupMessageQueue
          (appRouter (H:=Scenario.host) 2101 (GroupPostReq Scenario.first_post)
             Scenario.group_created).2
    ∧ (¬ Exists (Sql.same_group_message 1 Scenario.alice "gmsg-1")
           (groupMessageQueue Scenario.group_created) →
       groupMessageQueue
         (appRouter (H:=Scenario.host) 2101 (GroupPostReq Scenario.first_post)
            Scenario.group_created).2
       = groupMessageQueue Scenario.group_created ++
           [GroupMessageQueue.mk 1 1 Scenario.alice "group-ciphertext" "hdr" "gmsg-1" 1800]).
Proof.
  apply (group_post_idempotent (H:=Scenario.host) 2101 2102 Scenario.first_post
           Scenario.retry_post Scenario.group_created 1
           (appRouter (H:=Scenario.host) 2101 (GroupPostReq Scenario.first_post)
              Scenario.group_created).2).
  - vm_compute. reflexivity.
  - reflexivity.
  - reflexivity.
  - reflexivity.
  - vm_compute. reflexivity.
  - scenario_authenticates.
Defined.

Lemma group_poll_returns_witness :
  ∃ rows db1,
    appRouter (H:=Scenario.host) 5000 (GroupPollReq Scenario.group_poll_of_bob)
      Scenario.group_posted
    = (inr (RGroupMessages rows), db1)
    ∧ rows ≡ₚ filter (posted_after 1 (Some 1000)) (groupMessageQueue Scenario.group_posted)
    ∧ Sorted (Sql.le_on GroupMessageQueue.createdAt) rows.
Proof.
  apply (group_poll_returns (H:=Scenario.host) 5000 Scenario.group_poll_of_bob
           Scenario.group_posted).
  - apply group_posted_reachable.
  - vm_compute. reflexivity.
  - scenario_authenticates.
  - vm_compute. eauto.
Defined.

Lemma group_post_delivers_witness :
  ∃ rows db2,
    appRouter (H:=Scenario.host) 5000 (GroupPollReq Scenario.group_poll_of_bob)
      (appRouter (H:=Scenario.host) 2101 (GroupPostReq Scenario.first_post)
         Scenario.group_created).2
    = (inr (RGroupMessages rows), db2)
    ∧ GroupMessageQueue.mk 1 1 Scenario.alice "group-ciphertext" "hdr" "gmsg-1" 1800 ∈ rows.
Proof.
  apply (group_post_delivers (H:=Scenario.host) 2101 5000 Scenario.first_post
           Scenario.group_poll_of_bob Scenario.group_created 1
           (appRouter (H:=Scenario.host) 2101 (GroupPostReq Scenario.first_post)
              Scenario.group_created).2).
  - vm_compute. reflexivity.
  - vm_compute. intros Hex. inversion Hex.
  - vm_compute. reflexivity.
  - scenario_authenticates.
  - reflexivity.
  - vm_compute. eauto.
  - vm_compute. reflexivity.
Defined.

Lemma group_ackDelete_checks_only_witness :
  let db1 := record_nonce 5000 (GroupAckDelete.auth Scenario.ack_of_bob) Scenario.group_posted in
  (Sql.int4 1 = true →
   Forall (λ r, GroupMessageQueue.queuedMsgId r ≠ 1) (groupMessageQueue Scenario.group_posted) →
   appRouter (H:=Scenario.host) 5000 (GroupAckDeleteReq Scenario.ack_of_bob)
     Scenario.group_posted = (inr ROk, db1))
  ∧ (∀ r, r ∈ groupMessageQueue Scenario.group_posted →
          GroupMessageQueue.queuedMsgId r = 1 →
          appRouter (H:=Scenario.host) 5000 (GroupAckDeleteReq Scenario.ack_of_bob)
            Scenario.group_posted
          = (if decide (is_Some (groupMembers Scenario.group_posted
                                   !! (GroupMessageQueue.groupId r, Scenario.bob)))
             then inr ROk else inl not_a_member, db1)
            ∧ r ∈ groupMessageQueue db1).
Proof.
  apply (group_ackDelete_checks_only (H:=Scenario.host) 5000 Scenario.ack_of_bob
           Scenario.group_posted).
  - apply group_posted_reachable.
  - vm_compute. reflexivity.
  - scenario_authenticates.
Defined.

(** ** Members and roles *)

#[local] Instance members_added_preorder : PreOrder members_added.
Proof.
  split.
  - intros db. split; [done|]. split; [done|]. eauto.
  - intros x y z (Xg & Xs & Xn) (Yg & Ys & Yn). split; [congruence|].
    split; [by etrans|]. intros k r Hk.
    destruct (Yn k r Hk) as [Hy|?]; [|by right]. eauto.
Qed.

Section members.
Context `{Runtime}.

(** X16. [group.getMembers] gives a member of the group the member rows
    of that group and no others, one row per member, the caller's
    included. *)
Theorem group_getMembers_lists now input db :
  let userId := AuthEnvelope.userId (GroupGetMembers.auth input) in
  let groupId := GroupGetMembers.groupId input in
  GroupGetMembers.schema input = true →
  authenticates "group.getMembers" (GroupGetMembers.auth input)
    (GroupGetMembers.payload input) db →
  is_Some (groupMembers db !! (groupId, userId)) →
  ∃ rows db1,
    appRouter now (GroupGetMembersReq input) db = (inr (RMembers rows), db1)
    ∧ NoDup rows.*1
    ∧ ∀ u r, (u, r) ∈ rows ↔ groupMembers db !! (groupId, u) = Some r.
Proof.
  intros userId groupId Hschema Hauth [self Hself]. subst userId groupId.
  simpl. rewrite Hschema. unfold t_procedure, group_getMembers. cbv zeta.
  unfold bind at 1. unfold bind at 1. rewrite (requireAuth_accepts _ _ _ _ _ Hauth).
  unfold bind at 1, query at 1. unfold record_nonce at 1. db_simpl. rewrite Hself.
  unfold bind, query, ret. unfold record_nonce. db_simpl.
  eexists _, _. split; [done|]. split.
  - rewrite <- list_fmap_compose.
    apply NoDup_fmap_2_strong; [|apply NoDup_map_to_list].
    intros [[g1 u1] r1] [[g2 u2] r2] H1 H2 Heq. simpl in Heq. subst u2.
    apply elem_of_map_to_list, map_lookup_filter_Some in H1 as [H1 Hg1].
    apply elem_of_map_to_list, map_lookup_filter_Some in H2 as [H2 Hg2].
    simpl in *. subst g1 g2. congruence.
  - intros u r. rewrite list_elem_of_fmap. split.
    + intros ([[g u'] r'] & Heq & Hin). simpl in Heq. simplify_eq.
      apply elem_of_map_to_list, map_lookup_filter_Some in Hin as [Hin Hg].
      simpl in Hg. by subst g.
    + intros Hr. exists ((GroupGetMembers.groupId input, u), r). split; [done|].
      apply elem_of_map_to_list, map_lookup_filter_Some. done.
Qed.

Lemma elem_of_group_listMine_rows userId db item :
  item ∈ group_listMine_rows userId db
  ↔ group item ∈ groups db
    ∧ ∃ r, groupMembers db !! (Groups.groupId (group item), userId) = Some r
           ∧ role item = GroupMembers.role_of r.
Proof.
  unfold group_listMine_rows. rewrite order_by_perm, list_elem_of_In, in_flat_map.
  split.
  - intros ([[g u] r] & Hin & Hitem). apply list_elem_of_In in Hin, Hitem.
    apply elem_of_map_to_list, map_lookup_filter_Some in Hin as [Hin Hu]. simpl in *.
    apply list_elem_of_fmap in Hitem as (grp & -> & Hgrp).
    apply list_elem_of_filter in Hgrp as [Hid Hgrp]. simpl.
    split; [done|]. exists r. subst. done.
  - intros (Hgrp & r & Hr & Hrole).
    exists ((Groups.groupId (group item), userId), r). split.
    + apply list_elem_of_In, elem_of_map_to_list, map_lookup_filter_Some. done.
    + apply list_elem_of_In, list_elem_of_fmap. exists (group item). split.
      * destruct item as [g ro]. simpl in *. by subst.
      * apply list_elem_of_filter. done.
Qed.

Lemma NoDup_group_listMine_rows userId db :
  constraints_ok db →
  NoDup (map (λ item, Groups.groupId (group item)) (group_listMine_rows userId db)).
Proof.
  intros [_ _ _ _ _ _ _ _ Hgroups _ _ _ _ _].
  apply serial_ok_NoDup in Hgroups.
  unfold group_listMine_rows. rewrite order_by_perm.
  match goal with |- context [flat_map ?F (map_to_list ?m)] =>
    set (f := F);
    assert (∀ kv, kv ∈ map_to_list m → kv.1.2 = userId) as Hu;
    [|pose proof (NoDup_fst_map_to_list m) as Hnd; revert Hu Hnd;
      generalize (map_to_list m)]
  end.
  { intros kv Hkv. by apply elem_of_map_to_list', map_lookup_filter_Some in Hkv as [_ ?]. }
  intros l Hu Hnd. induction l as [|kv l IH]; [constructor|].
  cbn [flat_map]. rewrite map_app. apply NoDup_app.
  apply NoDup_cons in Hnd as [Hkv Hnd]. split; [|split].
  - unfold f. rewrite map_map. simpl.
    eapply sublist_NoDup; [exact Hgroups|]. apply fmap_sublist, sublist_filter.
  - intros g Hg Hg'.
    apply list_elem_of_fmap in Hg as (item & -> & Hitem).
    unfold f in Hitem. apply list_elem_of_fmap in Hitem as (grp & -> & Hgrp).
    apply list_elem_of_filter in Hgrp as [Hid _]. simpl in Hg'.
    apply list_elem_of_fmap in Hg' as (item' & Heq & Hitem').
    apply list_elem_of_In, in_flat_map in Hitem' as (kv' & Hkv' & Hitem').
    apply list_elem_of_In in Hkv', Hitem'.
    unfold f in Hitem'. apply list_elem_of_fmap in Hitem' as (grp' & -> & Hgrp').
    apply list_elem_of_filter in Hgrp' as [Hid' _]. simpl in Heq.
    apply Hkv. apply list_elem_of_fmap. exists kv'. split; [|done].
    destruct kv as [[g1 u1] r1], kv' as [[g2 u2] r2].
    pose proof (Hu _ (list_elem_of_here _ _)) as E1.
    pose proof (Hu _ (list_elem_of_further _ _ _ Hkv')) as E2.
    simpl in *. congruence.
  - apply IH; [|done]. intros kv' Hkv'. apply Hu. by right.
Qed.

(** X17. [group.listMine] gives the caller the groups the caller is a
    member of, each once and with the caller's role in it, in ascending
    order of the groups' [createdAt]. *)
Theorem group_listMine_lists now input db :
  let userId := AuthEnvelope.userId (GroupListMine.auth input) in
  reachable db →
  GroupListMine.schema input = true →
  authenticates "group.listMine" (GroupListMine.auth input) (GroupListMine.payload input) db →
  ∃ items db1,
    appRouter now (GroupListMineReq input) db = (inr (RGroupList items), db1)
    ∧ (∀ item, item ∈ items
               ↔ group item ∈ groups db
                 ∧ ∃ r, groupMembers db !! (Groups.groupId (group item), userId) = Some r
                        ∧ role item = GroupMembers.role_of r)
    ∧ NoDup (map (λ item, Groups.groupId (group item)) items)
    ∧ Sorted (Sql.le_on (λ item, Groups.createdAt (group item))) items.
Proof.
  intros userId Hreach Hschema Hauth. subst userId.
  apply constraints_reachable in Hreach as Hok.
  simpl. rewrite Hschema. unfold t_procedure, group_listMine.
  unfold bind at 1. unfold bind at 1. rewrite (requireAuth_accepts _ _ _ _ _ Hauth).
  unfold query, ret.
  change (group_listMine_rows ?u (record_nonce ?n ?a db)) with (group_listMine_rows u db).
  eexists _, _. split; [done|].
  split; [intros item; apply elem_of_group_listMine_rows|].
  split; [by apply NoDup_group_listMine_rows|].
  unfold group_listMine_rows. apply Sorted_merge_sort. apply _.
Qed.

End members.

Lemma group_getMembers_lists_witness :
  ∃ rows db1,
    appRouter (H:=Scenario.host) 5000 (GroupGetMembersReq Scenario.members_of_bob)
      Scenario.group_posted
    = (inr (RMembers rows), db1)
    ∧ NoDup rows.*1
    ∧ ∀ u r, (u, r) ∈ rows ↔ groupMembers Scenario.group_posted !! (1, u) = Some r.
Proof.
  apply (group_getMembers_lists (H:=Scenario.host) 5000 Scenario.members_of_bob
           Scenario.group_posted).
  - vm_compute. reflexivity.
  - scenario_authenticates.
  - vm_compute. eauto.
Defined.

Lemma group_listMine_lists_witness :
  ∃ items db1,
    appRouter (H:=Scenario.host) 5000 (GroupListMineReq Scenario.list_of_bob)
      Scenario.group_posted
    = (inr (RGroupList items), db1)
    ∧ (∀ item, item ∈ items
               ↔ group item ∈ groups Scenario.group_posted
                 ∧ ∃ r, groupMembers Scenario.group_posted
                          !! (Groups.groupId (group item), Scenario.bob) = Some r
                        ∧ role item = GroupMembers.role_of r)
    ∧ NoDup (map (λ item, Groups.groupId (group item)) items)
    ∧ Sorted (Sql.le_on (λ item, Groups.createdAt (group item))) items.
Proof.
  apply (group_listMine_lists (H:=Scenario.host) 5000 Scenario.list_of_bob
           Scenario.group_posted).
  - apply group_posted_reachable.
  - vm_compute. reflexivity.
  - scenario_authenticates.
Defined.

(** What Bob is shown: the group Alice created, and his role in it. *)
Example list_of_bob_answer :
  (appRouter (H:=Scenario.host) 5000 (GroupListMineReq Scenario.list_of_bob)
     Scenario.group_posted).1
  = inr (RGroupList [mkGroupListItem (Groups.mk 1 "team" 2100 Scenario.alice)
                       GroupMembers.member]).
Proof. vm_compute. reflexivity. Qed.

Section roles.
Context `{Runtime}.

Lemma members_added_ext db db' :
  groups db' = groups db → groupMembers db' = groupMembers db → members_added db db'.
Proof. intros Hg Hm. split; [done|]. rewrite Hm. split; [done|]. eauto. Qed.

Lemma members_added_requireAuth now procedure auth payload :
  preserves members_added (requireAuth now procedure auth payload).
Proof.
  intros db. destruct (requireAuth _ _ _ _ db) as [[e|u] db'] eqn:Er;
    apply requireAuth_inv in Er; simpl.
  - destruct Er as [_ ->]. reflexivity.
  - destruct Er as (_ & _ & _ & ->). by apply members_added_ext.
Qed.

Lemma members_added_onConflictDoNothing groupId now ids :
  preserves members_added
    (exec (Sql.insert_groupMembers_onConflictDoNothing
             (map (λ memberUserId : string,
                     ((groupId, memberUserId), GroupMembers.mk GroupMembers.member now))
                  ids))).
Proof.
  apply preserves_exec; [apply _|]. intros db db'.
  unfold Sql.insert_groupMembers_onConflictDoNothing.
  case_bool_decide as Hfk; [|done]. intros [= <-]. split; [done|]. db_simpl.
  rewrite foldl_insert_if_absent. split; [apply map_union_subseteq_l|].
  intros k r Hk. apply lookup_union_Some_raw in Hk as [Hk|[_ Hk]]; [by left|right].
  apply elem_of_list_to_map_2, list_elem_of_fmap in Hk as (m & Heq & _). by simplify_eq.
Qed.

Ltac statement_members_added :=
  first
    [ apply members_added_requireAuth
    | apply members_added_onConflictDoNothing
    | apply preserves_exec; [apply _|]; intros db db';
      unfold Sql.upsert_users, Sql.delete_prekeys, Sql.update_prekey_used,
        Sql.delete_messageQueue;
      repeat case_match; intros; simplify_eq; by apply members_added_ext
    | intros db; unfold Sql.insert_prekeys, Sql.insert_messageQueue,
        Sql.insert_groupMessageQueue;
      repeat case_match; by apply members_added_ext ].

(** Every procedure but [group.create] leaves the groups alone and adds
    member rows, if any, with role [member]. *)
Lemma appRouter_members_added now req :
  (∀ i, req ≠ GroupCreateReq i) → preserves members_added (appRouter now req).
Proof.
  intros Hreq. destruct req as [i|i|i|i|i|i|i|i|i|i|i|i]; simpl;
    try (by destruct (Hreq i)).
  all: unfold_handlers; frame; statement_members_added.
Qed.

Lemma roles_ok_members_added db db' : members_added db db' → roles_ok db → roles_ok db'.
Proof.
  intros (Hg & Hsub & Hnew) [R1 R2 R3]. split.
  - intros g u r Hr Hrole. rewrite Hg.
    destruct (Hnew _ _ Hr) as [Hold|Hm]; [eauto|]. by rewrite Hm in Hrole.
  - intros k r Hr. destruct (Hnew _ _ Hr) as [Hold|Hm]; [eauto|]. by rewrite Hm.
  - intros grp Hgrp. rewrite Hg in Hgrp. destruct (R3 grp Hgrp) as (r & Hr & Hrole).
    exists r. split; [|done]. by eapply lookup_weaken.
Qed.

(** What [group.create] leaves behind on a state that satisfies the
    invariants: nothing in [groups] and [group_members], or one group and
    one member row for each of the ids it was called with, the creator
    among them. *)
Lemma group_create_effect now input db out db' :
  db_ok db →
  group_create now input db = (out, db') →
  (groups db' = groups db ∧ groupMembers db' = groupMembers db)
  ∨ ∃ creator ids,
      creator ∈ ids
      ∧ groups db'
        = groups db ++ [Groups.mk (groups_id_seq db) (GroupCreate.name input) now creator]
      ∧ groupMembers db'
        = list_to_map
            (map (λ memberUserId,
                    ((groups_id_seq db, memberUserId),
                     GroupMembers.mk
                       (if String.eqb memberUserId creator
                        then GroupMembers.owner else GroupMembers.member) now)) ids)
          ∪ groupMembers db.
Proof.
  intros Hok. unfold group_create. unfold bind at 1.
  destruct (requireAuth _ _ _ _ db) as [[e|u] db0] eqn:Er; apply requireAuth_inv in Er.
  { destruct Er as [_ ->]. intros [= <- <-]. by left. }
  destruct Er as (-> & _ & _ & ->).
  set (creator := AuthEnvelope.userId (GroupCreate.auth input)).
  set (ids := Array_from_Set (creator :: GroupCreate.memberUserIds input)).
  set (db0 := set_authNonces _ db).
  unfold bind at 1, query at 1.
  destruct (length (Sql.select_users_in ids db0) =? length ids)%nat eqn:Elen; cbn [negb].
  2: { intros [= <- <-]. by left. }
  apply Nat.eqb_eq in Elen.
  assert (Forall (λ u, is_Some (users db0 !! u)) ids) as Hall.
  { apply Forall_forall. intros u Hu.
    destruct (users db0 !! u) eqn:Eu; [eauto|].
    by destruct (known_users_missing ids db0 u Hu Eu). }
  assert (creator ∈ ids) as Hcreator.
  { unfold ids. apply elem_of_Array_from_Set. left. }
  unfold bind at 1, uncaught at 1.
  rewrite insert_groups_registered.
  2: { rewrite Forall_forall in Hall. by apply Hall. }
  cbn [head]. pose proof Hok as [_ Hseq Hids Hfk].
  replace (groups_id_seq db0) with (groups_id_seq db) by done.
  replace (groups db0) with (groups db) by done.
  destruct (groups_id_seq db =? 0) eqn:E0; [lia|].
  unfold bind, uncaught, exec, ret.
  rewrite insert_groupMembers_accepted.
  - intros [= <- <-]. right. exists creator, ids. subst db0. db_simpl. done.
  - rewrite <- list_fmap_compose. apply NoDup_fmap_2; [|apply NoDup_uniq].
    intros x y. simpl. congruence.
  - rewrite <- list_fmap_compose. apply Forall_fmap, Forall_forall. intros u _. simpl.
    by apply (fresh_group_no_members db u).
  - rewrite <- list_fmap_compose. apply Forall_fmap, Forall_forall. intros u Hu. simpl.
    split; simpl.
    + apply Exists_app. right. by left.
    + rewrite Forall_forall in Hall. by apply Hall.
Qed.

Lemma roles_ok_group_create now input db :
  db_ok db → roles_ok db → roles_ok (group_create now input db).2.
Proof.
  intros Hok Hroles.
  destruct (group_create now input db) as [out db'] eqn:Ecreate. simpl.
  destruct (group_create_effect now input db out db' Hok Ecreate)
    as [[Hg Hm]|(creator & ids & Hc & Hg & Hm)].
  { eapply roles_ok_members_added; [|done]. by apply members_added_ext. }
  destruct Hroles as [R1 R2 R3]. destruct Hok as [_ _ Hids _].
  split.
  - intros g u r Hr Hrole. rewrite Hm in Hr. rewrite Hg.
    apply lookup_union_Some_raw in Hr as [Hr|[_ Hr]].
    + rewrite lookup_member_rows in Hr.
      destruct (decide (g = groups_id_seq db ∧ u ∈ ids)) as [[-> Hu]|Hn]; [|done].
      injection Hr as <-. simpl in Hrole.
      destruct (String.eqb u creator) eqn:Eu; [|done].
      apply String.eqb_eq in Eu as ->.
      eexists. split; [apply elem_of_app; right; left|]. done.
    + destruct (R1 _ _ _ Hr Hrole) as (grp & Hin & ? & ?).
      exists grp. split; [apply elem_of_app; by left|done].
  - intros [g u] r Hr. rewrite Hm in Hr.
    apply lookup_union_Some_raw in Hr as [Hr|[_ Hr]]; [|by apply (R2 (g, u))].
    rewrite lookup_member_rows in Hr.
    destruct (decide (g = groups_id_seq db ∧ u ∈ ids)) as [[-> Hu]|Hn]; [|done].
    injection Hr as <-. simpl. by destruct (String.eqb u creator).
  - intros grp Hgrp. rewrite Hg in Hgrp. rewrite Hm.
    apply elem_of_app in Hgrp as [Hgrp|Hgrp].
    + destruct (R3 grp Hgrp) as (r & Hr & Hrole). exists r. split; [|done].
      apply lookup_union_Some_raw. right. split; [|done].
      rewrite lookup_member_rows. rewrite decide_False; [done|].
      intros [Heq _]. rewrite Forall_forall in Hids. specialize (Hids _ Hgrp). lia.
    + apply list_elem_of_singleton in Hgrp as ->. simpl.
      eexists. split.
      * apply lookup_union_Some_raw. left. rewrite lookup_member_rows.
        by rewrite decide_True.
      * simpl. by rewrite String.eqb_refl.
Qed.

Lemma appRouter_keeps_roles now req db :
  db_ok db → roles_ok db → roles_ok (appRouter now req db).2.
Proof.
  intros Hok Hroles.
  destruct req as [i|i|i|i|i|i|i|i|i|i|i|i];
    try (eapply roles_ok_members_added; [|done]; apply appRouter_members_added;
         by intros ? [=]).
  simpl. unfold t_procedure. destruct (GroupCreate.schema i); [|done].
  unfold bind. pose proof (roles_ok_group_create now i db Hok Hroles) as Hr.
  by destruct (group_create now i db) as [[e|g] db'].
Qed.

Lemma serve_keeps_roles trace db :
  db_ok db → roles_ok db → roles_ok (serve trace db).2.
Proof.
  revert db. induction trace as [|[now req] trace IH]; intros db Hok Hroles; [done|].
  rewrite serve_cons.
  pose proof (appRouter_keeps_ok now req db Hok) as Hok1.
  pose proof (appRouter_keeps_roles now req db Hok Hroles) as Hroles1.
  destruct (appRouter now req db) as [out db1]. specialize (IH db1 Hok1 Hroles1).
  by destruct (serve trace db1) as [outs db2].
Qed.

Lemma empty_db_roles : roles_ok empty_db.
Proof.
  split; simpl.
  - intros g u r Hr. by rewrite lookup_empty in Hr.
  - intros k r Hr. by rewrite lookup_empty in Hr.
  - intros grp Hgrp. by apply elem_of_nil in Hgrp.
Qed.

Lemma roles_reachable db : reachable db → roles_ok db.
Proof. intros [trace ->]. apply serve_keeps_roles; [apply empty_db_ok|apply empty_db_roles]. Qed.

(** X18. The roles the server hands out: in every state it reaches from
    the empty database the owner rows are those of the users who created
    the groups (every group has its creator as owner, and only its
    creator), and no row has role [admin]. *)
Theorem reachable_roles trace : roles_ok (serve trace empty_db).2.
Proof. apply serve_keeps_roles; [apply empty_db_ok|apply empty_db_roles]. Qed.

(** X19. Only the creator of a group ever adds members to it: on a
    reachable state a [group.addMembers] that succeeds was called by the
    user who created the group. *)
Theorem only_creator_adds_members now input db db1 :
  reachable db →
  appRouter now (GroupAddMembersReq input) db = (inr ROk, db1) →
  ∃ grp, grp ∈ groups db
         ∧ Groups.groupId grp = GroupAddMembers.groupId input
         ∧ Groups.createdByUserId grp = AuthEnvelope.userId (GroupAddMembers.auth input).
Proof.
  intros Hreach Hadd. apply roles_reachable in Hreach as [R1 R2 _].
  simpl in Hadd. unfold t_procedure in Hadd.
  destruct (GroupAddMembers.schema input); [|done].
  unfold bind at 1 in Hadd. unfold group_addMembers in Hadd. cbv zeta in Hadd.
  unfold bind at 1 in Hadd.
  destruct (requireAuth _ _ _ _ db) as [[e|u] db0] eqn:Er; [done|].
  apply requireAuth_inv in Er as (-> & _ & _ & ->).
  unfold bind at 1, query at 1 in Hadd. db_simpl.
  destruct (groupMembers db !! _) as [actor|] eqn:Eactor; [|done].
  apply (R1 _ _ actor); [done|].
  pose proof (R2 _ _ Eactor) as Hadmin.
  destruct (GroupMembers.role_of actor); done.
Qed.

End roles.

Lemma only_creator_adds_members_witness :
  ∃ grp, grp ∈ groups Scenario.group_posted
         ∧ Groups.groupId grp = 1
         ∧ Groups.createdByUserId grp = Scenario.alice.
Proof.
  apply (only_creator_adds_members (H:=Scenario.host) 2300 Scenario.add_by_alice
           Scenario.group_posted
           (appRouter (H:=Scenario.host) 2300 (GroupAddMembersReq Scenario.add_by_alice)
              Scenario.group_posted).2).
  - apply group_posted_reachable.
  - vm_compute. reflexivity.
Defined.

(** ** Who is registered, and who posts *)

#[local] Instance same_users_preorder : PreOrder same_users.
Proof. split; unfold same_users; [done|]. intros x y z. congruence. Qed.

#[local] Instance posted_by_members_preorder : PreOrder posted_by_members.
Proof.
  split.
  - intros db. split; [done|]. exists []. by rewrite app_nil_r.
  - intros x y z [Xm (new1 & Xq & Xn)] [Ym (new2 & Yq & Yn)]. split; [by etrans|].
    exists (new1 ++ new2). split; [by rewrite Yq, Xq, app_assoc|].
    apply Forall_app. split; [|done]. eapply Forall_impl; [done|]. simpl.
    intros r [v Hv]. exists v. by eapply lookup_weaken.
Qed.

Section registered.
Context `{Runtime}.

Ltac statement_same_users :=
  first
    [ intros ?d; destruct (requireAuth _ _ _ _ _) as [[?|?] ?] eqn:Er;
      apply requireAuth_inv in Er; simpl; unfold same_users; by destruct_and?; subst
    | apply preserves_exec; [apply _|]; intros ? ?;
      unfold Sql.delete_prekeys, Sql.update_prekey_used, Sql.delete_messageQueue,
        Sql.insert_groupMembers, Sql.insert_groupMembers_onConflictDoNothing;
      repeat case_match; intros; by simplify_eq
    | intros ?; unfold Sql.insert_prekeys, Sql.insert_messageQueue, Sql.insert_groups,
        Sql.insert_groupMessageQueue; by repeat case_match ].

Lemma appRouter_same_users now req :
  (∀ i, req ≠ IdentityRegisterBundleReq i) → preserves same_users (appRouter now req).
Proof.
  intros Hreq. destruct req as [i|i|i|i|i|i|i|i|i|i|i|i]; simpl;
    try (by destruct (Hreq i)).
  all: unfold_handlers; frame; statement_same_users.
Qed.

(** The one statement on [users] is run for the user the envelope has
    been verified for, with the key of that envelope. *)
Lemma registerBundle_users now input db :
  let auth := IdentityRegisterBundle.auth input in
  users (identity_registerBundle now input db).2 = users db
  ∨ deriveUserId (AuthEnvelope.identityPublicKey auth) = AuthEnvelope.userId auth
    ∧ ∃ signalIdentityPublicKey registrationId createdAt,
        users (identity_registerBundle now input db).2
        = <[AuthEnvelope.userId auth :=
              Users.mk (AuthEnvelope.identityPublicKey auth) signalIdentityPublicKey
                registrationId createdAt]> (users db).
Proof.
  intros auth. subst auth.
  destruct (identity_registerBundle now input db) as [out db'] eqn:Erun. simpl.
  revert Erun. unfold identity_registerBundle. cbv zeta. unfold bind at 1.
  destruct (requireAuth _ _ _ _ db) as [[e|u] db0] eqn:Er; apply requireAuth_inv in Er.
  { destruct Er as [_ ->]. intros [= <- <-]. by left. }
  destruct Er as (-> & [Hid _] & _ & ->).
  unfold bind at 1, uncaught at 1, exec at 1.
  destruct (Sql.upsert_users _ _ _ _ _ _) as [e|db1] eqn:Eup.
  { intros [= <- <-]. by left. }
  apply upsert_users_inr in Eup as (_ & createdAt & -> & _).
  intros Erun. right. split; [done|]. eexists _, _, createdAt.
  match type of Erun with ?body ?d = _ =>
    assert (preserves same_users body) as Hbody;
    [|specialize (Hbody d); rewrite Erun in Hbody; simpl in Hbody; by rewrite Hbody]
  end.
  frame; statement_same_users.
Qed.

(** X20. A user id is the digest of the identity key stored with it: in
    every reachable state each row of [users] holds a key whose
    [deriveUserId] is the row's [userId]; nobody registers, or
    re-registers, under an id derived from another key. *)
Theorem registered_ids_derived db u r :
  reachable db → users db !! u = Some r →
  deriveUserId (Users.identityPublicKey r) = u.
Proof.
  intros [trace ->]. revert u r.
  assert (∀ db, (∀ u r, users db !! u = Some r → deriveUserId (Users.identityPublicKey r) = u) →
                ∀ u r, users (serve trace db).2 !! u = Some r →
                       deriveUserId (Users.identityPublicKey r) = u) as Hind.
  { induction trace as [|[now req] trace IH]; intros db Hdb; [done|].
    rewrite serve_cons.
    assert (∀ u r, users (appRouter now req db).2 !! u = Some r →
                   deriveUserId (Users.identityPublicKey r) = u) as Hstep.
    { destruct req as [i|i|i|i|i|i|i|i|i|i|i|i].
      2-12: match goal with |- context [appRouter ?t ?q ?d] =>
              pose proof (appRouter_same_users t q) as Hsame;
              rewrite Hsame; [done|by intros ? [=]]
            end.
      simpl. unfold t_procedure. destruct (IdentityRegisterBundle.schema i); [|done].
      unfold bind at 1.
      pose proof (registerBundle_users now i db) as Hreg. cbv zeta in Hreg.
      destruct (identity_registerBundle now i db) as [[e|[]] db1]; simpl in *.
      all: destruct Hreg as [->|(Hid & sipk & regId & createdAt & ->)]; [done|].
      all: intros u r Hr;
           destruct (decide (u = AuthEnvelope.userId (IdentityRegisterBundle.auth i)))
             as [->|Hne];
           [rewrite lookup_insert_eq in Hr; by simplify_eq/=
           |rewrite lookup_insert_ne in Hr by congruence; eauto]. }
    destruct (appRouter now req db) as [out db1]. specialize (IH db1 Hstep).
    by destruct (serve trace db1) as [outs db2]. }
  apply Hind. intros u r Hu. simpl in Hu. by rewrite lookup_empty in Hu.
Qed.

End registered.

Lemma registered_ids_derived_witness :
  deriveUserId (H:=Scenario.host)
    (Users.identityPublicKey (Users.mk Scenario.bob_key "signalbobkey" 42 1001))
  = Scenario.bob.
Proof.
  apply (registered_ids_derived (H:=Scenario.host) Scenario.registered Scenario.bob
           (Users.mk Scenario.bob_key "signalbobkey" 42 1001)).
  - apply registered_reachable.
  - vm_compute. reflexivity.
Defined.

Section posters.
Context `{Runtime}.

Lemma posted_by_members_ext db db' :
  groupMembers db ⊆ groupMembers db' → groupMessageQueue db' = groupMessageQueue db →
  posted_by_members db db'.
Proof. intros Hm Hq. split; [done|]. exists []. by rewrite app_nil_r. Qed.

Lemma posted_by_members_insert_groupMembers rows :
  preserves posted_by_members (exec (Sql.insert_groupMembers rows)).
Proof.
  intros db. pose proof (grows_insert_groupMembers rows db) as [_ _ Hm _ _ _ _ _ _].
  apply posted_by_members_ext; [done|].
  unfold exec, Sql.insert_groupMembers. by repeat case_bool_decide.
Qed.

Lemma posted_by_members_insert_groupMembers_onConflictDoNothing rows :
  preserves posted_by_members (exec (Sql.insert_groupMembers_onConflictDoNothing rows)).
Proof.
  intros db.
  pose proof (grows_insert_groupMembers_onConflictDoNothing rows db) as [_ _ Hm _ _ _ _ _ _].
  apply posted_by_members_ext; [done|].
  unfold exec, Sql.insert_groupMembers_onConflictDoNothing. by repeat case_bool_decide.
Qed.

Ltac statement_posted_by_members :=
  first
    [ intros ?d; destruct (requireAuth _ _ _ _ _) as [[?|?] ?] eqn:Er;
      apply requireAuth_inv in Er; simpl; apply posted_by_members_ext;
      by destruct_and?; subst
    | apply posted_by_members_insert_groupMembers
    | apply posted_by_members_insert_groupMembers_onConflictDoNothing
    | apply preserves_exec; [apply _|]; intros ? ?;
      unfold Sql.upsert_users, Sql.delete_prekeys, Sql.update_prekey_used,
        Sql.delete_messageQueue;
      repeat case_match; intros; simplify_eq; by apply posted_by_members_ext
    | intros ?; unfold Sql.insert_prekeys, Sql.insert_messageQueue, Sql.insert_groups;
      repeat case_match; by apply posted_by_members_ext ].

Lemma appRouter_posted_by_members now req :
  preserves posted_by_members (appRouter now req).
Proof.
  destruct req as [i|i|i|i|i|i|i|i|i|i|i|i]; simpl.
  10: { unfold t_procedure. destruct (GroupPost.schema i); [|by frame].
        apply preserves_bind; [apply _| |intros ?; by frame].
        intros db. unfold group_post. cbv zeta. unfold bind at 1.
        destruct (requireAuth _ _ _ _ db) as [[e|u] db0] eqn:Er; apply requireAuth_inv in Er.
        { destruct Er as [_ ->]. reflexivity. }
        destruct Er as (-> & _ & _ & ->).
        unfold bind at 1, query at 1. db_simpl.
        destruct (groupMembers db !! _) as [member|] eqn:Em;
          [|by apply posted_by_members_ext].
        unfold bind at 1, uncaught, Sql.insert_groupMessageQueue. cbv zeta. db_simpl.
        case_bool_decide as Hsame; [|case_bool_decide as Hfk]; simpl.
        - unfold bind, query, ret. by apply posted_by_members_ext.
        - split; [done|]. db_simpl. eexists. split; [done|].
          apply Forall_singleton. simpl. eauto.
        - by apply posted_by_members_ext. }
  all: unfold_handlers; frame; statement_posted_by_members.
Qed.

(** X21. Every queued group message was posted by a member of its group:
    in every reachable state the sender of each row of
    [group_message_queue] has a membership row for the row's group. *)
Theorem group_messages_from_members db :
  reachable db →
  Forall (λ r, is_Some (groupMembers db !! (GroupMessageQueue.groupId r,
                                            GroupMessageQueue.fromUserId r)))
    (groupMessageQueue db).
Proof.
  intros [trace ->].
  assert (posted_by_members empty_db (serve trace empty_db).2) as [_ (new & -> & Hnew)];
    [|done].
  generalize empty_db. induction trace as [|[now req] trace IH]; intros db; [reflexivity|].
  rewrite serve_cons.
  pose proof (appRouter_posted_by_members now req db) as Hstep.
  destruct (appRouter now req db) as [out db1]. specialize (IH db1).
  destruct (serve trace db1) as [outs db2]. simpl in *. by etrans.
Qed.

End posters.

Lemma group_messages_from_members_witness :
  Forall (λ r, is_Some (groupMembers Scenario.group_posted
                          !! (GroupMessageQueue.groupId r, GroupMessageQueue.fromUserId r)))
    (groupMessageQueue Scenario.group_posted).
Proof.
  apply (group_messages_from_members (H:=Scenario.host) Scenario.group_posted).
  apply group_posted_reachable.
Defined.

(** * The client *)

(** ** [encoding.ts]: base64url *)

Section strings.

Lemma length_replace_char c by_ s :
  String.length (Web.replace_char c by_ s) = String.length s.
Proof. induction s as [|a s IH]; simpl; [done|]. by rewrite IH. Qed.

Lemma length_repeat_char c n : String.length (Web.repeat_char c n) = n.
Proof. induction n as [|n IH]; simpl; [done|]. by rewrite IH. Qed.

Lemma length_string_app (s1 s2 : string) :
  String.length (s1 +:+ s2) = (String.length s1 + String.length s2)%nat.
Proof. induction s1 as [|a s1 IH]; simpl; [done|]. by rewrite IH. Qed.

Lemma length_strip_trailing c s :
  (String.length (Web.strip_trailing c s) ≤ String.length s)%nat.
Proof.
  induction s as [|a s IH]; simpl; [done|].
  destruct (Web.strip_trailing c s) as [|b kept]; [destruct (Ascii.eqb a c)|]; simpl in *; lia.
Qed.

(** A text is what is left of it followed by the run that was dropped. *)
Lemma strip_trailing_app c s :
  s = Web.strip_trailing c s
      +:+ Web.repeat_char c (String.length s - String.length (Web.strip_trailing c s)).
Proof.
  induction s as [|a s IH]; simpl; [done|].
  pose proof (length_strip_trailing c s) as Hlen.
  destruct (Web.strip_trailing c s) as [|b kept] eqn:Es.
  - destruct (Ascii.eqb a c) eqn:Ea; simpl in *.
    + apply Ascii.eqb_eq in Ea as ->. rewrite Nat.sub_0_r in IH. by rewrite IH at 1.
    + rewrite Nat.sub_0_r in *. by rewrite IH at 1.
  - simpl in *. by rewrite IH at 1.
Qed.

(** Replacing a character that is not the stripped one, by one that is
    not, commutes with stripping. *)
Lemma strip_trailing_replace_char c a by_ s :
  a ≠ c → by_ ≠ c →
  Web.strip_trailing c (Web.replace_char a by_ s)
  = Web.replace_char a by_ (Web.strip_trailing c s).
Proof.
  intros Ha Hb. induction s as [|x s IH]; simpl; [done|]. rewrite IH.
  destruct (Web.strip_trailing c s) as [|y kept]; simpl; [|done].
  destruct (Ascii.eqb x a) eqn:Exa.
  - apply Ascii.eqb_eq in Exa as ->.
    apply Ascii.eqb_neq in Ha, Hb. rewrite Ha, Hb. simpl. by rewrite Ascii.eqb_refl.
  - destruct (Ascii.eqb x c); simpl; [done|]. by rewrite Exa.
Qed.

(** On the characters of the base64 alphabet the substitutions of
    [decodeBase64Url] undo those of [encodeBase64Url]. *)
Lemma base64_substitutions_inverse (x : ascii) :
  Web.base64_class x = true →
  let e1 := if Ascii.eqb x "+" then "-"%char else x in
  let e2 := if Ascii.eqb e1 "/" then "_"%char else e1 in
  let d1 := if Ascii.eqb e2 "-" then "+"%char else e2 in
  let d2 := if Ascii.eqb d1 "_" then "/"%char else d1 in
  d2 = x ∧ Zod.b64url_class e2 = true.
Proof.
  destruct x as [[] [] [] [] [] [] [] []]; vm_compute; intros; by try split.
Qed.

Lemma replace_chars_inverse s :
  Zod.all_chars Web.base64_class s = true →
  Web.replace_char "_" "/"
    (Web.replace_char "-" "+" (Web.replace_char "/" "_" (Web.replace_char "+" "-" s))) = s
  ∧ Zod.all_chars Zod.b64url_class (Web.replace_char "/" "_" (Web.replace_char "+" "-" s))
    = true.
Proof.
  induction s as [|x s IH]; simpl; [done|].
  rewrite andb_true_iff. intros [Hx Hs]. destruct (IH Hs) as [IH1 IH2].
  destruct (base64_substitutions_inverse x Hx) as [Hd He]. cbv zeta in Hd, He.
  rewrite IH1, IH2, Hd, He. done.
Qed.

End strings.

Section encoding.
Context `{Web.Browser}.

Lemma encodeBase64Url_body bytes :
  Web.encodeBase64Url bytes
  = Web.replace_char "/" "_"
      (Web.replace_char "+" "-" (Web.strip_trailing "=" (Web.toBase64 bytes))).
Proof.
  unfold Web.encodeBase64Url. by rewrite !strip_trailing_replace_char.
Qed.

(** X22. [decodeBase64Url] undoes [encodeBase64Url]: for bytes whose
    base64 text the host renders in canonical form (alphabet characters,
    then at most three [=], in groups of four) and decodes back to the
    bytes, decoding the base64url text gives the bytes again: the
    substitutions are inverse to each other and the padding that was
    stripped is the padding that is put back. *)
Theorem decodeBase64Url_encodeBase64Url bytes :
  Web.canonical_base64 (Web.toBase64 bytes) = true →
  Web.fromBase64 (Web.toBase64 bytes) = inr bytes →
  Web.decodeBase64Url (Web.encodeBase64Url bytes) = inr bytes.
Proof.
  intros Hcanonical Hhost. unfold Web.canonical_base64 in Hcanonical. cbv zeta in Hcanonical.
  apply andb_true_iff in Hcanonical as [Hc Hmod].
  apply andb_true_iff in Hc as [Hbody Hpad].
  apply Nat.ltb_lt in Hpad. apply Nat.eqb_eq in Hmod.
  unfold Web.decodeBase64Url. cbv zeta. rewrite encodeBase64Url_body.
  destruct (replace_chars_inverse _ Hbody) as [-> _].
  pose proof (strip_trailing_app "=" (Web.toBase64 bytes)) as Hsplit.
  pose proof (length_strip_trailing "=" (Web.toBase64 bytes)) as Hlen.
  set (s := Web.toBase64 bytes) in *. set (body := Web.strip_trailing "=" s) in *.
  replace ((4 - String.length body mod 4) mod 4)%nat
    with (String.length s - String.length body)%nat; [by rewrite <- Hsplit|].
  assert (String.length s
          = (String.length body + (String.length s - String.length body))%nat) as Hs by lia.
  set (k := (String.length s - String.length body)%nat) in *.
  rewrite Hs in Hmod. clear -Hmod Hpad.
  pose proof (Nat.div_mod_eq (String.length body) 4) as Hb.
  pose proof (Nat.mod_upper_bound (String.length body) 4) as Hlt.
  set (m := (String.length body mod 4)%nat) in *.
  set (q := (String.length body / 4)%nat) in *.
  rewrite Hb in Hmod.
  replace (4 * q + m + k)%nat with ((m + k) + q * 4)%nat in Hmod by lia.
  rewrite Nat.Div0.mod_add in Hmod.
  assert (m < 4)%nat as Hm by lia. clear Hb Hlt.
  destruct m as [|[|[|[|m]]]], k as [|[|[|[|k]]]]; simpl in *; try done; lia.
Qed.

(** X23. What [encodeBase64Url] produces passes the schema of the
    envelope: for bytes whose base64 text the host renders in canonical
    form, and not as padding alone, the base64url text matches
    [/^[A-Za-z0-9_-]+$/], the pattern [identityPublicKey] and [signature]
    are validated against. *)
Theorem encodeBase64Url_matches_b64url bytes :
  Web.canonical_base64 (Web.toBase64 bytes) = true →
  Web.strip_trailing "=" (Web.toBase64 bytes) ≠ EmptyString →
  Zod.b64url (Web.encodeBase64Url bytes) = true.
Proof.
  intros Hcanonical Hnonempty. unfold Web.canonical_base64 in Hcanonical. cbv zeta in Hcanonical.
  apply andb_true_iff in Hcanonical as [Hc _].
  apply andb_true_iff in Hc as [Hbody _].
  rewrite encodeBase64Url_body.
  destruct (replace_chars_inverse _ Hbody) as [_ Hclass].
  unfold Zod.b64url, Zod.regex_plus.
  destruct (Web.strip_trailing "=" (Web.toBase64 bytes)) as [|x body]; [done|].
  simpl in *. done.
Qed.

End encoding.

Lemma decodeBase64Url_encodeBase64Url_witness :
  Web.decodeBase64Url (H:=Scenario.browser)
    (Web.encodeBase64Url (H:=Scenario.browser) Scenario.some_bytes)
  = inr Scenario.some_bytes.
Proof.
  apply (decodeBase64Url_encodeBase64Url (H:=Scenario.browser) Scenario.some_bytes).
  - vm_compute. reflexivity.
  - vm_compute. reflexivity.
Defined.

Lemma encodeBase64Url_matches_b64url_witness :
  Zod.b64url (Web.encodeBase64Url (H:=Scenario.browser) Scenario.some_bytes) = true.
Proof.
  apply (encodeBase64Url_matches_b64url (H:=Scenario.browser) Scenario.some_bytes).
  - vm_compute. reflexivity.
  - vm_compute. discriminate.
Defined.

(** The bytes of the scenario in base64 and in base64url. *)
Example some_bytes_encoded :
  Web.toBase64 (H:=Scenario.browser) Scenario.some_bytes = "+/8+QQ=="
  ∧ Web.encodeBase64Url (H:=Scenario.browser) Scenario.some_bytes = "-_8-QQ".
Proof. split; vm_compute; reflexivity. Qed.

(** ** [crypto.ts]: signing a request *)

Section signing.
Context `{Runtime} `{Web.Browser}.

(** X24. A request signed by the client authenticates on the server.
    When the page and the server collate keys alike and agree on the
    base64url SHA-256 digest of the canonical payload, when the user id of
    the identity is the one the server derives from its public key, and
    when the server's verification accepts, under that public key, the
    signature the page's signing produces with the secret key, then
    [makeAuth] returns an envelope and [assertAuthenticated] accepts it for
    the same procedure and payload wherever its nonce is fresh: both sides
    form the same text [procedure:nonce:hash] over the same canonical
    payload. *)
Theorem makeAuth_authenticates identity nonce procedure payload secretKey signature :
  let canonical :=
    String.list_byte_of_string
      (default EmptyString (Client.stableStringify Web.localeCompare (JObj payload))) in
  let message :=
    String.list_byte_of_string
      (procedure +:+ ":" +:+ nonce +:+ ":"
       +:+ Web.encodeBase64Url (Web.subtle_digest_SHA256 canonical)) in
  let auth :=
    AuthEnvelope.mk (Web.userId identity) (Web.authIdentityPublicKey identity) nonce
      (Web.encodeBase64Url signature) in
  (∀ x y, Web.localeCompare x y = localeCompare x y) →
  sha256_base64url canonical = Web.encodeBase64Url (Web.subtle_digest_SHA256 canonical) →
  deriveUserId (Web.authIdentityPublicKey identity) = Web.userId identity →
  Web.decodeBase64Url (Web.authIdentitySecretKey identity) = inr secretKey →
  Web.nacl_sign_detached message secretKey = inr signature →
  nacl_sign_detached_verify message
    (decodeBase64Url (Web.encodeBase64Url signature))
    (decodeBase64Url (Web.authIdentityPublicKey identity)) = inr true →
  Web.makeAuth (Some identity) nonce procedure payload = inr auth
  ∧ envelope_valid procedure auth payload
  ∧ ∀ now db,
      authNonces db !! (Web.userId identity, nonce) = None →
      assertAuthenticated now procedure auth payload db
      = (inr (Web.userId identity), record_nonce now auth db).
Proof.
  intros canonical message auth Hcollate Hdigest Hid Hkey Hsign Hverify.
  assert (Web.makeAuth (Some identity) nonce procedure payload = inr auth) as Hmake.
  { unfold message, canonical in Hsign.
    unfold Web.makeAuth, Web.signProcedure, Web.TextEncoder_encode. cbv zeta.
    change (default EmptyString (Some ?s)) with s. by rewrite Hkey, Hsign. }
  assert (envelope_valid procedure auth payload) as Hvalid.
  { split; [done|].
    exists (default EmptyString (Server.stableStringify localeCompare (JObj payload))).
    split; [done|].
    rewrite <- (client_server_agree Web.localeCompare localeCompare (JObj payload) Hcollate).
    fold canonical. rewrite Hdigest. done. }
  split; [done|]. split; [done|].
  intros now db Hfresh. by apply assertAuthenticated_fresh.
Qed.

End signing.

Lemma makeAuth_authenticates_witness :
  let payload := [("since", JPrim PUndefined)] in
  let canonical :=
    String.list_byte_of_string
      (default EmptyString
         (Client.stableStringify (Web.localeCompare (Browser:=Scenario.browser))
            (JObj payload))) in
  let message :=
    String.list_byte_of_string
      ("message.poll" +:+ ":" +:+ "nonce-erin-0001" +:+ ":"
       +:+ Web.encodeBase64Url (H:=Scenario.browser)
             (Web.subtle_digest_SHA256 (Browser:=Scenario.browser) canonical)) in
  let auth :=
    AuthEnvelope.mk (Web.userId Scenario.erin) (Web.authIdentityPublicKey Scenario.erin)
      "nonce-erin-0001"
      (Web.encodeBase64Url (H:=Scenario.browser)
         (message ++ String.list_byte_of_string "erin" ++ [xfb; xff])) in
  Web.makeAuth (H:=Scenario.browser) (Some Scenario.erin) "nonce-erin-0001" "message.poll"
    payload = inr auth
  ∧ envelope_valid (H:=Scenario.node) "message.poll" auth payload
  ∧ ∀ now db,
      authNonces db !! (Web.userId Scenario.erin, "nonce-erin-0001") = None →
      assertAuthenticated (H:=Scenario.node) now "message.poll" auth payload db
      = (inr (Web.userId Scenario.erin), record_nonce now auth db).
Proof.
  apply (makeAuth_authenticates (H:=Scenario.node) (H0:=Scenario.browser) Scenario.erin
           "nonce-erin-0001" "message.poll" [("since", JPrim PUndefined)]
           (String.list_byte_of_string "erin" ++ [xfb; xff])).
  - intros x y. reflexivity.
  - vm_compute. reflexivity.
  - vm_compute. reflexivity.
  - vm_compute. reflexivity.
  - vm_compute. reflexivity.
  - vm_compute. reflexivity.
Defined.
